(** * The document extraction-and-chunking pipeline, verified against its code

    A shallow embedding of [src/document_processor.py] and
    [src/utility_bill_processor.py]: the filename classifier, the text
    normalizer, the table-cell cleanup, the character-level line
    reconstruction, the structured field extractors, the token-window
    chunker, the PDF extraction orchestrator and the page loops of the
    extractors; of what [src/vector_store.py] hands to the store, and of
    the ingestion of [src/rag_pipeline.py].

    Conventions.
    - A Python [str] is a list of Unicode code points ([N]).  The character
      classes are written out for ASCII; what CPython reads from its Unicode
      database for code points from 128 upwards is a parameter (class
      [Unicode]).
    - A Python [int] is a [Z].
    - The tokenizer (tiktoken) and the PDF / OCR back ends are external
      libraries: they are parameters ([Tokenizer], [Backends]).
    - A [while] loop that need not terminate is a function with fuel
      returning [option]: [None] means the fuel ran out.
    - The functions of the orchestrator and of the chunker come twice.
      Module [DocumentProcessor] has them without their messages and
      without the refusals of the tokenizer: what they compute when every
      [print] succeeds and every text is tokenized.  Modules [Console],
      [Encoding], [Collection] and [RAGPipeline] have them with each
      [print], each call of the file system, of the tokenizer, of the
      embedding model and of the collection as a step that can raise. *)

From Stdlib Require Import Ascii String.
From Stdlib Require Import QArith Qround.
From Stdlib Require Import List ZArith NArith Bool Lia Sorted Permutation.
From Stdlib Require Import DecimalPos DecimalZ.
Import ListNotations.
Close Scope Q_scope.

(* ================================================================== *)
(** * Part I: definitions                                              *)
(* ================================================================== *)

(** ** Python strings and the built-ins the code uses *)

Module Py.
Local Open Scope N_scope.

Definition char := N.
Definition str := list char.

(** A string literal of the source, as code points. *)
Definition u (s : string) : str := map N_of_ascii (list_ascii_of_string s).

Definition char_eqb (a b : char) : bool := N.eqb a b.

Fixpoint str_eqb (a b : str) : bool :=
  match a, b with
  | [], [] => true
  | x :: a', y :: b' => char_eqb x y && str_eqb a' b'
  | _, _ => false
  end.

Definition in_range (lo hi c : char) : bool := (N.leb lo c && N.leb c hi)%bool.

Definition is_ascii (c : char) : bool := N.ltb c 128.

(** [str.isspace] on one character (CPython's [Py_UNICODE_ISSPACE]); the
    same test decides [\s] in a pattern and what [strip] and [split]
    remove. *)
Definition isspace (c : char) : bool :=
  in_range 9 13 c || in_range 28 32 c || N.eqb c 133 || N.eqb c 160
  || N.eqb c 5760 || in_range 8192 8202 c || N.eqb c 8232 || N.eqb c 8233
  || N.eqb c 8239 || N.eqb c 8287 || N.eqb c 12288.

Definition ascii_isdigit (c : char) : bool := in_range 48 57 c.
Definition ascii_isupper (c : char) : bool := in_range 65 90 c.
Definition ascii_islower (c : char) : bool := in_range 97 122 c.
Definition ascii_isalpha (c : char) : bool := ascii_isupper c || ascii_islower c.
Definition ascii_lower (c : char) : char := if ascii_isupper c then (c + 32)%N else c.

(** What CPython takes from its Unicode database.  Every field is consulted
    for code points from 128 upwards only ([uni_lower]: for strings holding
    such a code point). *)
Class Unicode := {
  uni_isalnum : char -> bool;        (* str.isalnum, hence \w *)
  uni_decimal : char -> option N;    (* the value of a decimal digit: \d, int(), float() *)
  uni_isdigit : char -> bool;        (* str.isdigit *)
  uni_lower : str -> str;            (* str.lower *)
  uni_caseless : char -> char -> bool (* re.IGNORECASE: pattern letter, text character *)
}.

(** The tables restricted to ASCII: no alphanumeric, digit or case pair
    above 127.  Used to evaluate the functions on ASCII inputs, where the
    tables are never consulted. *)
Definition ascii_only : Unicode := {|
  uni_isalnum := fun _ => false;
  uni_decimal := fun _ => None;
  uni_isdigit := fun _ => false;
  uni_lower := fun s => s;
  uni_caseless := fun _ _ => false
|}.

Section Classes.
Context {U : Unicode}.

Definition isalnum (c : char) : bool :=
  if is_ascii c then ascii_isalpha c || ascii_isdigit c else uni_isalnum c.

(** [\w]: alphanumeric or underscore. *)
Definition is_word (c : char) : bool := isalnum c || N.eqb c 95.

Definition decimal_value (c : char) : option N :=
  if is_ascii c then (if ascii_isdigit c then Some (c - 48)%N else None)
  else uni_decimal c.

(** [\d]. *)
Definition is_decimal (c : char) : bool :=
  match decimal_value c with Some _ => true | None => false end.

Definition isdigit (c : char) : bool :=
  if is_ascii c then ascii_isdigit c else uni_isdigit c.

(** [s.lower()]. *)
Definition lower (s : str) : str :=
  if forallb is_ascii s then map ascii_lower s else uni_lower s.

(** A pattern letter [p] read under [re.IGNORECASE] against a character [c]. *)
Definition caseless_eqb (p c : char) : bool :=
  if is_ascii c then char_eqb (ascii_lower p) (ascii_lower c) else uni_caseless p c.

End Classes.

Fixpoint dropwhile (p : char -> bool) (s : str) : str :=
  match s with
  | [] => []
  | c :: t => if p c then dropwhile p t else s
  end.

Definition lstrip (s : str) : str := dropwhile isspace s.

(** [s.rstrip()]: a character is dropped when it is whitespace and nothing
    is left of what follows it. *)
Fixpoint rstrip (s : str) : str :=
  match s with
  | [] => []
  | c :: t =>
      match rstrip t with
      | [] => if isspace c then [] else [c]
      | t' => c :: t'
      end
  end.

(** [s.strip()]. *)
Definition strip (s : str) : str := rstrip (lstrip s).

(** [s.split()]: the maximal runs of non-whitespace characters.  [cur] is
    the run being read, reversed. *)
Fixpoint split_from (cur : str) (s : str) : list str :=
  match s with
  | [] => match cur with [] => [] | _ => [rev cur] end
  | c :: t =>
      if isspace c
      then match cur with [] => split_from [] t | _ => rev cur :: split_from [] t end
      else split_from (c :: cur) t
  end.

Definition split (s : str) : list str := split_from [] s.

(** [sep.join(parts)]. *)
Fixpoint join (sep : str) (parts : list str) : str :=
  match parts with
  | [] => []
  | [p] => p
  | p :: rest => p ++ sep ++ join sep rest
  end.

Fixpoint startswith (prefix s : str) : bool :=
  match prefix, s with
  | [], _ => true
  | p :: prefix', c :: s' => char_eqb p c && startswith prefix' s'
  | _ :: _, [] => false
  end.

(** [needle in hay] on strings. *)
Fixpoint contains (needle hay : str) : bool :=
  startswith needle hay ||
  match hay with
  | [] => false
  | _ :: t => contains needle t
  end.

(** [s.replace(old, new)] where [old] is one character, as at every call
    in the source. *)
Definition replace (old : char) (new : str) (s : str) : str :=
  flat_map (fun c => if char_eqb c old then new else [c]) s.

(** [set(xs)] iterated: the distinct elements.  CPython fixes no order on
    a set of strings; the model lists them by first occurrence, and the
    theorems below speak of membership only. *)
Fixpoint set_of (xs : list str) : list str :=
  match xs with
  | [] => []
  | x :: t => x :: filter (fun y => negb (str_eqb x y)) (set_of t)
  end.

(** [len(l)]. *)
Definition len {A : Type} (l : list A) : Z := Z.of_nat (length l).

(** [l[start:stop]] with Python's reading of negative and oversized
    bounds. *)
Definition clamp_index (len i : Z) : Z :=
  if (i <? 0)%Z then Z.max 0 (i + len) else Z.min i len.

Definition slice {A : Type} (l : list A) (start stop : Z) : list A :=
  let a := clamp_index (len l) start in
  let b := clamp_index (len l) stop in
  firstn (Z.to_nat (b - a)) (skipn (Z.to_nat a) l).

Section Numbers.
Context {U : Unicode}.

(** The value of a run of decimal digits read after [acc]; [None] when a
    character is no digit. *)
Fixpoint digits_from (acc : N) (s : str) : option N :=
  match s with
  | [] => Some acc
  | c :: t =>
      match decimal_value c with
      | Some d => digits_from (10 * acc + d) t
      | None => None
      end
  end.

Definition signed (s : str) : bool * str :=
  match s with
  | 45 :: t => (true, t)     (* - *)
  | 43 :: t => (false, t)    (* + *)
  | _ => (false, s)
  end.

(** *** How CPython reads a numeral

    [int(s)] and [float(s)] first turn the string into ASCII
    ([_PyUnicode_TransformDecimalAndSpaceToASCII]): a character below 127
    stays, a whitespace character becomes a blank, a decimal digit becomes
    its ASCII digit, and any other character becomes a question mark, at
    which the string ends.  A string that is all ASCII is taken as it
    is. *)
Fixpoint transform_numeral (s : str) : str :=
  match s with
  | [] => []
  | c :: t =>
      if c <? 127 then c :: transform_numeral t
      else if isspace c then 32 :: transform_numeral t
      else match decimal_value c with
           | Some d => (48 + d) :: transform_numeral t
           | None => [63]
           end
  end.

Definition to_ascii_numeral (s : str) : str :=
  if forallb is_ascii s then s else transform_numeral s.

(** Then the underscores are checked and taken out
    ([_Py_string_to_number_with_underscores] for [float], the digit loop of
    [PyLong_FromString] for [int]): an underscore stands between two
    digits.  [prev] is the character before, 0 at the start. *)
Fixpoint drop_underscores (prev : char) (s : str) : option str :=
  match s with
  | [] => if N.eqb prev 95 then None else Some []
  | c :: t =>
      if N.eqb c 95 then
        if ascii_isdigit prev then drop_underscores c t else None
      else if N.eqb prev 95 && negb (ascii_isdigit c) then None
      else match drop_underscores c t with
           | Some t' => Some (c :: t')
           | None => None
           end
  end.

(** [Py_ISSPACE], the whitespace of C: what is skipped around the numeral.
    The separators 28 to 31, which [str.strip] removes, are not in it. *)
Definition c_isspace (c : char) : bool := in_range 9 13 c || N.eqb c 32.

Definition c_strip (s : str) : str :=
  rev (dropwhile c_isspace (rev (dropwhile c_isspace s))).

(** [int(s)]: surrounding whitespace, a sign, digits.  [None] stands for
    the [ValueError] Python raises.  (The limit that Python 3.11 puts on
    the number of digits, 4300 by default, is not modelled.) *)
Definition int_ (s : str) : option Z :=
  match drop_underscores 0 (to_ascii_numeral s) with
  | None => None
  | Some s =>
      let '(neg, body) := signed (c_strip s) in
      match body with
      | [] => None
      | _ =>
          match digits_from 0 body with
          | Some n => Some (if neg then - Z.of_N n else Z.of_N n)%Z
          | None => None
          end
      end
  end.

End Numbers.

(** *** [float(s)]

    A Python float is a binary64 number, an infinity or a NaN.  A finite
    float is given by its exact value; the sign of a zero is not kept (no
    comparison tells the two zeros apart). *)
Inductive pyfloat :=
| Finite (value : Q)
| Infinite (negative : bool)
| NaN.

Fixpoint takewhile (p : char -> bool) (s : str) : str :=
  match s with
  | [] => []
  | c :: t => if p c then c :: takewhile p t else []
  end.

(** The value of a run of ASCII digits read after [acc]. *)
Fixpoint decimal_digits (acc : Z) (digits : str) : Z :=
  match digits with
  | [] => acc
  | c :: t => decimal_digits (10 * acc + (Z.of_N c - 48))%Z t
  end.

(** [n / d] rounded to the nearest integer, a tie going to the even one
    ([d] positive). *)
Definition div_half_even (n d : Z) : Z :=
  let f := (n / d)%Z in
  match (2 * (n mod d) ?= d)%Z with
  | Lt => f
  | Gt => (f + 1)%Z
  | Eq => if Z.even f then f else (f + 1)%Z
  end.

(** The integer part of the binary logarithm of [n / d], both positive. *)
Definition floor_log2 (n d : Z) : Z :=
  let k := (Z.log2 n - Z.log2 d)%Z in
  if (if 0 <=? k then d * 2 ^ k <=? n else d <=? n * 2 ^ (- k))%Z
  then k else (k - 1)%Z.

(** The binary64 number nearest to [n / d], both positive, ties to even:
    a multiple [m * 2^e] with [m] of at most 53 bits, [e] not below
    -1074 (where the numbers are subnormal); infinity from [2^1024]
    on. *)
Definition binary64 (n d : Z) : pyfloat :=
  let e := Z.max (floor_log2 n d - 52) (-1074) in
  if (0 <=? e)%Z then
    let m := div_half_even n (d * 2 ^ e) in
    if (2 ^ 1024 <=? m * 2 ^ e)%Z then Infinite false else Finite (inject_Z (m * 2 ^ e))
  else
    let m := div_half_even (n * 2 ^ (- e)) d in
    Finite (Qmake m (Z.to_pos (2 ^ (- e)))).

(** The float nearest to [mantissa * 10^exp10], [mantissa] not negative. *)
Definition decimal_float (mantissa exp10 : Z) : pyfloat :=
  if (mantissa =? 0)%Z then Finite 0
  else if (0 <=? exp10)%Z then binary64 (mantissa * 10 ^ exp10) 1
  else binary64 mantissa (10 ^ (- exp10)).

Definition negate (x : pyfloat) : pyfloat :=
  match x with
  | Finite value => Finite (Qopp value)
  | Infinite negative => Infinite (negb negative)
  | NaN => NaN
  end.

(** The exponent of a numeral: [e] or [E], a sign, digits.  Without a
    digit nothing is read. *)
Definition exponent (s : str) : Z * str :=
  match s with
  | c :: t =>
      if N.eqb c 101 || N.eqb c 69 then
        let '(negative, t) := signed t in
        match takewhile ascii_isdigit t with
        | [] => (0%Z, s)
        | digits =>
            let value := decimal_digits 0 digits in
            ((if negative then - value else value)%Z, dropwhile ascii_isdigit t)
        end
      else (0%Z, s)
  | [] => (0%Z, s)
  end.

(** [_Py_parse_inf_or_nan]: a sign, then [inf], [infinity] or [nan] in
    any case of the letters. *)
Definition inf_or_nan (s : str) : option pyfloat :=
  let '(negative, body) := signed s in
  let body := map ascii_lower body in
  if str_eqb body (u "inf") || str_eqb body (u "infinity") then Some (Infinite negative)
  else if str_eqb body (u "nan") then Some NaN
  else None.

(** [float(s)] on a string.  [None] stands for the [ValueError] Python
    raises.  The numeral is read as [PyOS_string_to_double] reads it: a
    sign, digits with at most one point and at least one digit, an
    exponent; where no digit is found, an infinity or a NaN; and nothing
    may follow.  The value is rounded to the nearest binary64 number, as
    CPython rounds it.  (CPython refuses a numeral of more than 10^9
    digits and reads an exponent beyond 1.1 * 10^9 as that bound, which
    shows on strings of more than 10^9 characters only; this is not
    modelled.) *)
Definition float_ {U : Unicode} (s : str) : option pyfloat :=
  match drop_underscores 0 (to_ascii_numeral s) with
  | None => None
  | Some s =>
      let s := c_strip s in
      let '(negative, body) := signed s in
      let whole := takewhile ascii_isdigit body in
      let after_whole := dropwhile ascii_isdigit body in
      let '(frac, after_frac) :=
        match after_whole with
        | 46 :: t => (takewhile ascii_isdigit t, dropwhile ascii_isdigit t)
        | _ => ([], after_whole)
        end in
      match whole ++ frac with
      | [] => inf_or_nan s
      | digits =>
          let '(exp10, rest) := exponent after_frac in
          match rest with
          | [] =>
              let x := decimal_float (decimal_digits 0 digits) (exp10 - len frac) in
              Some (if negative then negate x else x)
          | _ => None
          end
      end
  end.

(** The tokenizer: [tiktoken.get_encoding("cl100k_base")], an external
    library.  Nothing is assumed of the tokens.  [encode text] is what
    [encode] returns for a text that it takes; the texts that it refuses
    with an exception are those of [Encoding.Refusals] below. *)
Class Tokenizer := {
  token : Type;
  encode : str -> list token;
  decode : list token -> str
}.

(** A tokenizer to evaluate the chunker with: one token per character. *)
Definition char_tokenizer : Tokenizer := {|
  token := char;
  encode := fun s => s;
  decode := fun ts => ts
|}.

End Py.

Import Py.

(** ** Regular expressions, as Python's [re] module runs them

    A backtracking matcher: [run r st] lists the states in which [r] can
    end when started in [st], in the order in which Python tries them, so
    the head of the list is the match Python reports.  The patterns of the
    source quantify only sub-patterns that consume a character; an
    iteration of a quantifier that consumes nothing ends the
    repetition. *)

Module Re.

Inductive regex :=
| Chr (p : char -> bool)                  (* one character of a class *)
| Eps                                     (* the empty pattern *)
| Seq (r1 r2 : regex)                     (* r1r2 *)
| Alt (r1 r2 : regex)                     (* r1|r2 *)
| Rep (r : regex) (lo : nat) (hi : option nat) (greedy : bool)
                                          (* r{lo,hi}, or r{lo,hi}? when lazy *)
| Bound (w : char -> bool)                (* \b, for the word class w *)
| Group (i : nat) (r : regex).            (* the capturing group number i *)

(** Where the matcher stands: the character before the position (for
    [\b]), the text from the position on, and the groups captured so far. *)
Record mstate := {
  prev : option char;
  rest : str;
  groups : list (nat * str)
}.

Definition opt_test (w : char -> bool) (c : option char) : bool :=
  match c with Some c => w c | None => false end.

Definition at_boundary (w : char -> bool) (st : mstate) : bool :=
  xorb (opt_test w (prev st)) (opt_test w (hd_error (rest st))).

Definition below (hi : option nat) (n : nat) : bool :=
  match hi with Some h => Nat.ltb n h | None => true end.

(** [n] iterations are done; try one more (the greedy order) or stop (the
    lazy order) first. *)
Fixpoint rep_from (step : mstate -> list mstate) (lo : nat) (hi : option nat)
  (greedy : bool) (fuel : nat) (n : nat) (st : mstate) : list mstate :=
  let stop := if Nat.leb lo n then [st] else [] in
  match fuel with
  | O => stop
  | S fuel' =>
      let again :=
        if below hi n
        then flat_map (fun st' =>
                         if Nat.ltb (length (rest st')) (length (rest st))
                         then rep_from step lo hi greedy fuel' (S n) st'
                         else [])
                      (step st)
        else [] in
      if greedy then again ++ stop else stop ++ again
  end.

Definition capture (i : nat) (st st' : mstate) : mstate :=
  {| prev := prev st';
     rest := rest st';
     groups := (i, firstn (length (rest st) - length (rest st')) (rest st)) :: groups st' |}.

Fixpoint run (r : regex) (st : mstate) : list mstate :=
  match r with
  | Chr p =>
      match rest st with
      | c :: t => if p c then [{| prev := Some c; rest := t; groups := groups st |}] else []
      | [] => []
      end
  | Eps => [st]
  | Seq r1 r2 => flat_map (run r2) (run r1 st)
  | Alt r1 r2 => run r1 st ++ run r2 st
  | Rep r0 lo hi greedy => rep_from (run r0) lo hi greedy (length (rest st)) 0 st
  | Bound w => if at_boundary w st then [st] else []
  | Group i r0 => map (capture i st) (run r0 st)
  end.

(** A text cut by the successive matches of a pattern. *)
Inductive segment :=
| Lit (c : char)                              (* a character outside every match *)
| Hit (text : str) (groups : list (nat * str)). (* a match, with its groups *)

(** The scan of [finditer], [findall] and [sub]: the leftmost match from
    the position, then on from its end; where nothing matches, one
    character further.  No pattern of the source matches the empty string;
    for one that did, the scan records the empty match and moves one
    character on.  The fuel is the length of the text plus one, which the
    scan cannot use up, since every step moves on. *)
Fixpoint scan (r : regex) (fuel : nat) (pv : option char) (s : str) : list segment :=
  match fuel with
  | O => []
  | S fuel' =>
      let skip := match s with
                  | [] => []
                  | c :: t => Lit c :: scan r fuel' (Some c) t
                  end in
      match run r {| prev := pv; rest := s; groups := [] |} with
      | st' :: _ =>
          match (length s - length (rest st'))%nat with
          | O => Hit [] (groups st') :: skip
          | n => Hit (firstn n s) (groups st') :: scan r fuel' (prev st') (rest st')
          end
      | [] => skip
      end
  end.

Definition segments (r : regex) (s : str) : list segment :=
  scan r (S (length s)) None s.

Fixpoint hits (segs : list segment) : list (str * list (nat * str)) :=
  match segs with
  | [] => []
  | Lit _ :: t => hits t
  | Hit text gs :: t => (text, gs) :: hits t
  end.

(** [m.group(i)], a group that took no part reading as the empty string
    (as [findall] reports it). *)
Fixpoint group (i : nat) (gs : list (nat * str)) : str :=
  match gs with
  | [] => []
  | (j, text) :: t => if Nat.eqb i j then text else group i t
  end.

(** [re.findall(r, s)] for a pattern without groups. *)
Definition findall (r : regex) (s : str) : list str :=
  map fst (hits (segments r s)).

(** [re.findall(r, s)] for a pattern with the one group 1. *)
Definition findall_group (r : regex) (s : str) : list str :=
  map (fun h => group 1 (snd h)) (hits (segments r s)).

(** [re.findall(r, s)] for a pattern with the groups 1 and 2. *)
Definition findall_pairs (r : regex) (s : str) : list (str * str) :=
  map (fun h => (group 1 (snd h), group 2 (snd h))) (hits (segments r s)).

(** [re.sub(r, f, s)] with a function [f] of the matched text. *)
Definition sub_with (r : regex) (f : str -> str) (s : str) : str :=
  flat_map (fun seg => match seg with Lit c => [c] | Hit text _ => f text end)
           (segments r s).

(** [re.sub(r, repl, s)] with a replacement string free of group
    references. *)
Definition sub (r : regex) (repl : str) (s : str) : str := sub_with r (fun _ => repl) s.

(** [re.split(r, s)] for a pattern without groups. *)
Fixpoint split_segments (cur : str) (segs : list segment) : list str :=
  match segs with
  | [] => [rev cur]
  | Lit c :: t => split_segments (c :: cur) t
  | Hit _ _ :: t => rev cur :: split_segments [] t
  end.

Definition split (r : regex) (s : str) : list str := split_segments [] (segments r s).

(** *** Pattern syntax *)

Fixpoint cat (rs : list regex) : regex :=
  match rs with
  | [] => Eps
  | [r] => r
  | r :: rs' => Seq r (cat rs')
  end.

Fixpoint alt (rs : list regex) : regex :=
  match rs with
  | [] => Rep Eps 1 (Some 0) true   (* matches nothing *)
  | [r] => r
  | r :: rs' => Alt r (alt rs')
  end.

Definition chr (c : string) : regex := Chr (fun x => existsb (char_eqb x) (u c)).
Definition one_of (cs : string) : regex := chr cs.
Definition lit (s : string) : regex := cat (map (fun c => Chr (char_eqb c)) (u s)).
Definition star (r : regex) : regex := Rep r 0 None true.
Definition lazy_star (r : regex) : regex := Rep r 0 None false.
Definition plus (r : regex) : regex := Rep r 1 None true.
Definition opt (r : regex) : regex := Rep r 0 (Some 1) true.
Definition times (n : nat) (r : regex) : regex := Rep r n (Some n) true.
Definition between (lo hi : nat) (r : regex) : regex := Rep r lo (Some hi) true.
Definition at_least (lo : nat) (r : regex) : regex := Rep r lo None true.
Definition space : regex := Chr isspace.                            (* \s *)
Definition newline : regex := Chr (char_eqb 10%N).                  (* \n *)

(** *** Direct readings of two patterns, for the proofs

    [squeeze false s] is what [re.sub(r'\s+', ' ', s)] returns (lemma
    [sub_plus_space]); [in_run] says that the character before was
    whitespace.  [tidy s] says that [s] neither starts nor ends with
    whitespace and that its whitespace is single blanks. *)
Fixpoint squeeze (in_run : bool) (s : str) : str :=
  match s with
  | [] => []
  | c :: t =>
      if isspace c then (if in_run then squeeze true t else 32%N :: squeeze true t)
      else c :: squeeze false t
  end.

Fixpoint tidy_from (after_space : bool) (s : str) : bool :=
  match s with
  | [] => negb after_space
  | c :: t =>
      if isspace c then char_eqb c 32%N && negb after_space && tidy_from true t
      else tidy_from false t
  end.

Definition tidy (s : str) : bool :=
  match s with
  | [] => true
  | _ => tidy_from true s
  end.

(** The length of the longest prefix in the class [p], and the character
    before the position once it is read. *)
Fixpoint run_length (p : char -> bool) (s : str) : nat :=
  match s with
  | [] => 0
  | c :: t => if p c then S (run_length p t) else 0
  end.

Fixpoint last_of (pv : option char) (p : char -> bool) (s : str) : option char :=
  match s with
  | [] => pv
  | c :: t => if p c then last_of (Some c) p t else pv
  end.

(** The states that a greedy [p*] offers from a position, the longest run
    first (lemma [star_backtracks]). *)
Fixpoint backtracks (pv : option char) (p : char -> bool) (s : str)
  (g : list (nat * str)) : list mstate :=
  let here := {| prev := pv; rest := s; groups := g |} in
  match s with
  | c :: t => if p c then backtracks (Some c) p t g ++ [here] else [here]
  | [] => [here]
  end.

(** The text at a position stands at the end of a word: it is empty or
    begins with a character that is no word character. *)
Definition ends_word (w : char -> bool) (s : str) : bool :=
  match s with
  | [] => true
  | c :: _ => negb (w c)
  end.

(** [reads d r]: by its shape, the pattern [r] cannot match without
    reading a character of the class [d] (lemma [run_reads]). *)
Fixpoint reads (d : char -> bool) (r : regex) : Prop :=
  match r with
  | Chr p => forall c, p c = true -> d c = true
  | Eps => False
  | Seq r1 r2 => reads d r1 \/ reads d r2
  | Alt r1 r2 => reads d r1 /\ reads d r2
  | Rep r0 lo _ _ => (1 <= lo)%nat /\ reads d r0
  | Bound _ => False
  | Group _ r0 => reads d r0
  end.

(** [consumes step]: every state that [step] reaches stands at a suffix of
    the text it started from. *)
Definition consumes (step : mstate -> list mstate) : Prop :=
  forall st st', In st' (step st) -> exists consumed, rest st = consumed ++ rest st'.

(** What a segment stands for in the text, and what [sub_with] writes for
    it. *)
Definition raw (seg : segment) : str :=
  match seg with Lit c => [c] | Hit text _ => text end.

Definition render (f : str -> str) (seg : segment) : str :=
  match seg with Lit c => [c] | Hit text _ => f text end.

Section Unicode.
Context {U : Unicode}.

Definition digit : regex := Chr is_decimal.                         (* \d *)
Definition word_or_space : regex := Chr (fun c => isspace c || is_word c).  (* [\s\w] *)
Definition b : regex := Bound is_word.                              (* \b *)
(** A literal under [re.IGNORECASE]. *)
Definition lit_i (s : string) : regex := cat (map (fun c => Chr (caseless_eqb c)) (u s)).

End Unicode.

End Re.

(** ** [document_processor.py] *)

Module DocumentProcessor.

Section Classifier.
Context {U : Unicode}.

Definition utility_indicators : list str :=
  map u ["pge"; "pg&e"; "pacific gas"; "electric";
         "bill"; "utility"; "energy"; "gas";
         "edison"; "sdge"; "peco"; "con ed"]%string.

(** [_is_utility_bill], lines 521-529. *)
Definition _is_utility_bill (filename : str) : bool :=
  let filename_lower := lower filename in
  existsb (fun indicator => contains indicator filename_lower) utility_indicators.

End Classifier.

(** The fields [__init__] (lines 16-20) stores from its arguments; the
    tokenizer it also stores is the [Tokenizer] parameter. *)
Record processor := {
  chunk_size : Z;
  chunk_overlap : Z;
  use_ocr : bool
}.

(** [DocumentProcessor(chunk_size, chunk_overlap, use_ocr)]: the arguments
    are stored as given, with no check. *)
Definition __init__ (chunk_size chunk_overlap : Z) (use_ocr : bool) : processor :=
  {| chunk_size := chunk_size; chunk_overlap := chunk_overlap; use_ocr := use_ocr |}.

(** The defaults of the signature: [DocumentProcessor()]. *)
Definition default_processor : processor := __init__ 500 50 true.

Section Chunker.
Context {T : Tokenizer}.
Variable self : processor.
Local Open Scope Z_scope.

(** The [while start < len(tokens)] loop of [_split_text], lines 508-517.
    One unit of fuel pays for one evaluation of the loop test. *)
Fixpoint split_loop (fuel : nat) (tokens : list token) (start : Z) (chunks : list str)
  : option (list str) :=
  match fuel with
  | O => None
  | S fuel' =>
      if start <? len tokens then
        let end_ := Z.min (start + chunk_size self) (len tokens) in
        let chunk_tokens := slice tokens start end_ in
        let chunk_text := decode chunk_tokens in
        let chunks := chunks ++ [chunk_text] in
        if end_ >=? len tokens then Some chunks
        else split_loop fuel' tokens (start + (chunk_size self - chunk_overlap self)) chunks
      else Some chunks
  end.

(** [_split_text], lines 497-519. *)
Definition _split_text (fuel : nat) (text : str) : option (list str) :=
  let tokens := encode text in
  if len tokens <=? chunk_size self then Some [text]
  else split_loop fuel tokens 0 [].

(** The same loop, collecting the token windows [chunk_tokens] before they
    are detokenized: what the chunks of [split_loop] are the decodings of
    (lemma [split_loop_windows]). *)
Fixpoint window_loop (fuel : nat) (tokens : list token) (start : Z)
  (windows : list (list token)) : option (list (list token)) :=
  match fuel with
  | O => None
  | S fuel' =>
      if start <? len tokens then
        let end_ := Z.min (start + chunk_size self) (len tokens) in
        let windows := windows ++ [slice tokens start end_] in
        if end_ >=? len tokens then Some windows
        else window_loop fuel' tokens (start + (chunk_size self - chunk_overlap self)) windows
      else Some windows
  end.

End Chunker.

Section Text.
Context {U : Unicode}.
Import Re.

Definition nl : str := [10%N].

(** [_clean_cell_text], lines 246-268.  The dictionary [replacements] of
    lines 255-259 is never read. *)
Definition _clean_cell_text (text : str) : str :=
  match text with
  | [] => []
  | _ =>
      let text := join (u " ") (Py.split text) in
      if existsb isdigit text then
        let text := sub_with (cat [b; star digit; chr "O"; star digit; b])
                             (fun m => replace 79%N (u "0") m) text in
        let text := sub_with (cat [b; star digit; chr "l"; star digit; b])
                             (fun m => replace 108%N (u "1") m) text in
        text
      else text
  end.

(** The two substitutions of lines 265-266, read word by word (module
    [CellFacts]).  A word is a maximal run of word characters
    (letters, digits, the underscore); [map_words f word s] applies [f] to
    every word of [s] and keeps the characters between the words, [word]
    being the word under way, last character first.

    [numeral_around c word]: the word is made of decimal digits around one
    character [c]. *)
Definition numeral_around (c : char) (word : str) : bool :=
  match dropwhile is_decimal word with
  | x :: t => char_eqb x c && forallb is_decimal t
  | [] => false
  end.

Definition fix_word (c new : char) (word : str) : str :=
  if numeral_around c word then replace c [new] word else word.

(** First [O] to [0] (line 265), then [l] to [1] (line 266). *)
Definition numeral_fix (word : str) : str :=
  fix_word 108%N 49%N (fix_word 79%N 48%N word).

Fixpoint map_words (f : str -> str) (word : str) (s : str) : str :=
  match s with
  | [] => f (rev word)
  | x :: t =>
      if is_word x then map_words f (x :: word) t
      else f (rev word) ++ x :: map_words f [] t
  end.

(** What the cleanup may write for a character of the cell: the
    character itself, [0] for [O], or [1] for [l]. *)
Definition rewritten (a b : char) : Prop :=
  b = a \/ (a = 79%N /\ b = 48%N) \/ (a = 108%N /\ b = 49%N).

(** The class of line 379 is negated: these are the characters it keeps. *)
Definition kept (c : char) : bool :=
  is_word c || isspace c || existsb (char_eqb c) (u ".,!?;:-()|$@#%&*+=/\")
  || char_eqb c 10%N.

(** The dictionary [replacements] of lines 388-397, in the order of its
    keys.  In the source file the quote, bullet and space entries map a
    character to itself (the double quote is listed twice, which a
    dictionary keeps once). *)
Definition replacements : list (char * str) :=
  [ (39, [39]);      (* apostrophe *)
    (34, [34]);      (* double quote *)
    (8226, [8226]);  (* bullet *)
    (32, [32]);      (* space *)
    (8722, [45]);    (* minus sign -> - *)
    (8211, [45]);    (* en dash -> - *)
    (8212, [45]) ]%N. (* em dash -> - *)

(** The loop of lines 399-400. *)
Definition apply_replacements (text : str) : str :=
  fold_left (fun text '(old, new) => replace old new text) replacements text.

(** What the loop does to one character (lemma [apply_replacements_map]). *)
Definition dash (c : char) : char :=
  if N.eqb c 8722 then 45%N
  else if N.eqb c 8211 then 45%N
  else if N.eqb c 8212 then 45%N
  else c.

(** [_clean_text], lines 373-406. *)
Definition _clean_text (text : str) : str :=
  let text := sub (plus space) (u " ") (strip text) in
  let text := sub (Chr (fun c => negb (kept c))) [] text in
  let text := apply_replacements text in
  let text := sub (cat [newline; star space; newline]) (nl ++ nl) text in
  let text := sub (at_least 3 (chr " ")) (u "   ") text in
  text.

(** One block of [_extract_bill_info]: the header, then each distinct
    match on a line of its own, when there is a match. *)
Definition listing (header : str) (found : list str) : list str :=
  match found with
  | [] => []
  | _ => header :: map (fun item => u "  " ++ item) (set_of found)
  end.

Definition date_shape : regex :=
  cat [between 1 2 digit; one_of "/.-"; between 1 2 digit; one_of "/.-"; times 4 digit].

Definition dollar_shape : regex :=
  cat [chr "$"; star space; plus digit; one_of ".,"; times 2 digit].

(** [_extract_bill_info], lines 444-495. *)
Definition _extract_bill_info (text : str) : str :=
  let dollar_amounts := findall dollar_shape text in
  let dates := findall (cat [b; date_shape; b]) text in
  let energy_usage :=
    findall (cat [plus digit; opt (one_of ".,"); star digit; star space;
                  alt [lit_i "kWh"; lit_i "kwh"; lit_i "KWH";
                       lit_i "therm"; lit_i "Therm"; lit_i "THERM"]]) text in
  let account_matches :=
    findall_group (cat [alt [lit "Account"; lit "account"; lit "ACCOUNT"];
                        lazy_star word_or_space; Group 1 (at_least 8 digit)]) text in
  let period_matches :=
    findall_group (cat [alt [lit "Service"; lit "service"; lit "SERVICE";
                             lit "Period"; lit "period"; lit "PERIOD"];
                        lazy_star word_or_space; Group 1 date_shape]) text in
  let total_matches :=
    findall (cat [alt [lit "Total"; lit "total"; lit "TOTAL";
                       lit "Amount"; lit "amount"; lit "AMOUNT"];
                  lazy_star word_or_space; dollar_shape]) text in
  let structured_info :=
    listing (u "AMOUNTS FOUND:") dollar_amounts
    ++ listing (nl ++ u "DATES FOUND:") dates
    ++ listing (nl ++ u "ENERGY USAGE:") energy_usage
    ++ listing (nl ++ u "ACCOUNT NUMBERS:") account_matches
    ++ listing (nl ++ u "SERVICE PERIODS:") period_matches
    ++ listing (nl ++ u "BILL TOTALS:") total_matches in
  match structured_info with
  | [] => []
  | _ => u "=== EXTRACTED UTILITY BILL INFORMATION ===" ++ nl ++ join nl structured_info
  end.

End Text.

(** A character as pdfplumber reports it: [char['text']], [char['top']]
    (the distance of the glyph from the top of the page) and [char['x0']].
    The coordinates are floats; a float is modelled by the rational it
    stands for. *)
Record pdf_char := {
  ch_text : str;
  top : Q;
  x0 : Q
}.

(** The integer nearest to [q], a tie going to the even one. *)
Definition round_half_even (q : Q) : Z :=
  let f := Qfloor q in
  match Qcompare (q - inject_Z f) (1 # 2) with
  | Lt => f
  | Gt => (f + 1)%Z
  | Eq => if Z.even f then f else (f + 1)%Z
  end.

(** [round(x, 1)], counted in tenths: Python rounds the exact value of the
    float to one decimal, ties to even. *)
Definition round1 (x : Q) : Z := round_half_even (x * 10).

(** [sorted(l, key=..)] is a stable sort; [before a b] says that [a] may
    stand before [b]. *)
Fixpoint insert_sorted {A : Type} (before : A -> A -> bool) (a : A) (l : list A) : list A :=
  match l with
  | [] => [a]
  | b :: t => if before a b then a :: b :: t else b :: insert_sorted before a t
  end.

Definition sorted {A : Type} (before : A -> A -> bool) (l : list A) : list A :=
  fold_right (insert_sorted before) [] l.

(** The dictionary [lines]: keys in the order of their first insertion. *)
Fixpoint lines_append (y : Z) (char : pdf_char) (lines : list (Z * list pdf_char))
  : list (Z * list pdf_char) :=
  match lines with
  | [] => [(y, [char])]
  | (y', chars) :: t =>
      if Z.eqb y y' then (y', chars ++ [char]) :: t
      else (y', chars) :: lines_append y char t
  end.

Fixpoint lines_get (y : Z) (lines : list (Z * list pdf_char)) : list pdf_char :=
  match lines with
  | [] => []
  | (y', chars) :: t => if Z.eqb y y' then chars else lines_get y t
  end.

(** Lines 309-314: the characters grouped by rounded [top]. *)
Definition group_lines (chars : list pdf_char) : list (Z * list pdf_char) :=
  fold_left (fun lines char => lines_append (round1 (top char)) char lines) chars [].

(** What the dictionary [lines] keeps true: its keys are distinct, no line
    is empty, and a character stands under its rounded [top]. *)
Definition well_grouped (lines : list (Z * list pdf_char)) : Prop :=
  NoDup (map fst lines) /\
  Forall (fun line => snd line <> [] /\
                      Forall (fun char => round1 (top char) = fst line) (snd line)) lines.

(** Lines 317-322: the text of the lines, in the order of
    [sorted(lines.keys(), reverse=True)]. *)
Definition text_lines (lines : list (Z * list pdf_char)) : list str :=
  flat_map (fun y =>
              let line_chars := sorted (fun a b => Qle_bool (x0 a) (x0 b)) (lines_get y lines) in
              let line_text := flat_map ch_text line_chars in
              match strip line_text with
              | [] => []
              | stripped => [stripped]
              end)
           (sorted Z.geb (map fst lines)).

(** [_extract_from_chars], lines 303-324. *)
Definition _extract_from_chars (chars : list pdf_char) : str :=
  match chars with
  | [] => []
  | _ => join [10%N] (text_lines (group_lines chars))
  end.

(** The records [load_documents] builds and [chunk_documents] returns. *)
Record document := {
  doc_content : str;
  doc_source : str;
  doc_filename : str
}.

Inductive chunk_type := structured_bill_info | text_chunk.

Record chunk := {
  content : str;
  source : str;
  filename : str;
  chunk_id : Z;
  total_chunks : Z;
  type : chunk_type
}.

(** [enumerate(l)], counting from [i]. *)
Fixpoint enumerate_from {A : Type} (i : Z) (l : list A) : list (Z * A) :=
  match l with
  | [] => []
  | x :: t => (i, x) :: enumerate_from (i + 1)%Z t
  end.

Section Chunks.
Context {U : Unicode} {T : Tokenizer}.
Variable self : processor.
Local Open Scope Z_scope.

(** The body of the [for doc in documents] loop of [chunk_documents],
    lines 413-440: the chunks it appends for one document. *)
Definition chunk_document (fuel : nat) (doc : document) : option (list chunk) :=
  let text := doc_content doc in
  let has_pge := contains (u "pge") (lower (doc_filename doc)) in
  let has_bill := contains (u "bill") (lower (doc_filename doc)) in
  let structured :=
    if has_pge || has_bill then
      match _extract_bill_info text with
      | [] => []
      | structured_info =>
          [ {| content := structured_info;
               source := doc_source doc;
               filename := doc_filename doc;
               chunk_id := 0;
               total_chunks := 1;
               type := structured_bill_info |} ]
      end
    else [] in
  match _split_text self fuel text with
  | None => None
  | Some doc_chunks =>
      Some (structured ++
            map (fun '(i, chunk) =>
                   {| content := chunk;
                      source := doc_source doc;
                      filename := doc_filename doc;
                      chunk_id := i + (if has_pge then 1 else 0);
                      total_chunks := len doc_chunks + (if has_pge then 1 else 0);
                      type := text_chunk |})
                (enumerate_from 0 doc_chunks))
  end.

(** [chunk_documents], lines 408-442. *)
Fixpoint chunk_documents (fuel : nat) (documents : list document) : option (list chunk) :=
  match documents with
  | [] => Some []
  | doc :: rest =>
      match chunk_document fuel doc, chunk_documents fuel rest with
      | Some here, Some there => Some (here ++ there)
      | _, _ => None
      end
  end.

End Chunks.

(** *** The extraction orchestrator *)

(** An exception of class [Exception], which is what [except Exception]
    catches. *)
Inductive exn := Exception (message : str).

Inductive result (A : Type) :=
| Ok (a : A)
| Raise (e : exn).
Arguments Ok {A} a.
Arguments Raise {A} e.

(** The extractors [_extract_pdf] calls. *)
Inductive strategy := OCR | PdfPlumber | PyMuPDF.

(** A computation that may raise, and that logs the extractors it calls. *)
Definition M (A : Type) : Type := list strategy -> list strategy * result A.

Definition ret {A : Type} (a : A) : M A := fun log => (log, Ok a).

Definition bind {A B : Type} (m : M A) (k : A -> M B) : M B :=
  fun log =>
    match m log with
    | (log', Ok a) => k a log'
    | (log', Raise e) => (log', Raise e)
    end.

(** [try: body  except Exception as e: handler(e)]. *)
Definition try_except {A : Type} (body : M A) (handler : exn -> M A) : M A :=
  fun log =>
    match body log with
    | (log', Ok a) => (log', Ok a)
    | (log', Raise e) => handler e log'
    end.

Notation "x <- m ;; k" := (bind m (fun x => k))
  (at level 61, m at next level, right associativity).

(** A file as [pathlib] presents it: [str(file_path)], [file_path.name]
    and [file_path.suffix]. *)
Record Path := {
  path_str : str;
  name : str;
  suffix : str
}.

(** What the PDF and OCR libraries (PyMuPDF, pdfplumber, Tesseract,
    python-docx) and the file system answer for a file: the outcome of
    [_extract_pdf_ocr], [_extract_pdf_pdfplumber] and [_extract_pdf_pymupdf]
    (lines 116-153, 178-244, 326-359), of reading a .docx file's paragraphs
    and of reading a text file. *)
Class Backends := {
  ocr_outcome : Path -> result str;
  pdfplumber_outcome : Path -> result str;
  pymupdf_outcome : Path -> result str;
  docx_outcome : Path -> result str;
  read_outcome : Path -> result str
}.

Section Orchestrator.
Context {U : Unicode} {B : Backends}.
Variable self : processor.
Local Open Scope Z_scope.

Definition call (s : strategy) (outcome : result str) : M str :=
  fun log => (log ++ [s], outcome).

Definition _extract_pdf_ocr (file_path : Path) : M str := call OCR (ocr_outcome file_path).
Definition _extract_pdf_pdfplumber (file_path : Path) : M str :=
  call PdfPlumber (pdfplumber_outcome file_path).
Definition _extract_pdf_pymupdf (file_path : Path) : M str :=
  call PyMuPDF (pymupdf_outcome file_path).

(** Lines 66-83: the OCR-first step for utility bills.  [Some text] is the
    [return cleaned_text] of line 77; [None] falls through to line 85. *)
Definition bill_ocr_step (file_path : Path) : M (option str) :=
  if _is_utility_bill (name file_path) then
    if use_ocr self then
      ocr_text <- _extract_pdf_ocr file_path ;;
      if len (strip ocr_text) >? 50 then
        let cleaned_text := _clean_text ocr_text in
        ret (Some cleaned_text)
      else ret None
    else ret None
  else ret None.

(** Lines 85-110: the standard methods. *)
Definition standard_methods (file_path : Path) : M str :=
  text <- _extract_pdf_pdfplumber file_path ;;
  if len (strip text) >? 200 then ret (_clean_text text)
  else
    pymupdf_text <- _extract_pdf_pymupdf file_path ;;
    let text := if len (strip pymupdf_text) >? len (strip text) then pymupdf_text else text in
    text <- (if (len (strip text) <? 100) && use_ocr self
                && negb (_is_utility_bill (name file_path))
             then
               ocr_text <- _extract_pdf_ocr file_path ;;
               ret (if len (strip ocr_text) >? len (strip text) then ocr_text else text)
             else ret text) ;;
    ret (_clean_text text).

(** The [try] block of [_extract_pdf], lines 64-110. *)
Definition _extract_pdf_try (file_path : Path) : M str :=
  accepted <- bill_ocr_step file_path ;;
  match accepted with
  | Some cleaned_text => ret cleaned_text
  | None => standard_methods file_path
  end.

(** [_extract_pdf], lines 61-114, without its messages: the handler is
    [return ""].  With the message of line 113, which can raise, the
    function is [Console._extract_pdf]. *)
Definition _extract_pdf (file_path : Path) : M str :=
  try_except (_extract_pdf_try file_path) (fun e => ret []).

(** [_extract_docx], lines 361-365, and [_extract_text], lines 367-371. *)
Definition _extract_docx (file_path : Path) : M str :=
  fun log => match docx_outcome file_path with
             | Ok text => (log, Ok (_clean_text text))
             | Raise e => (log, Raise e)
             end.

Definition _extract_text (file_path : Path) : M str :=
  fun log => match read_outcome file_path with
             | Ok text => (log, Ok (_clean_text text))
             | Raise e => (log, Raise e)
             end.

(** The body of the loop of [load_documents], lines 33-57, for one file,
    without its messages: the document it appends, if any.  With the
    messages, of which that of line 52 comes after the [append] and that
    of line 57 can raise, the body is [Console.load_document]. *)
Definition load_document (file_path : Path) : M (option document) :=
  try_except
    (let suffix_lower := lower (suffix file_path) in
     extracted <-
       (if str_eqb suffix_lower (u ".pdf") then
          content <- _extract_pdf file_path ;; ret (Some content)
        else if str_eqb suffix_lower (u ".docx") || str_eqb suffix_lower (u ".doc") then
          content <- _extract_docx file_path ;; ret (Some content)
        else if str_eqb suffix_lower (u ".txt") then
          content <- _extract_text file_path ;; ret (Some content)
        else ret None) ;;
     match extracted with
     | None => ret None                       (* continue *)
     | Some content =>
         match content with
         | [] => ret None
         | _ =>
             if len (strip content) >? 0 then
               ret (Some {| doc_content := content;
                            doc_source := path_str file_path;
                            doc_filename := name file_path |})
             else ret None
         end
     end)
    (fun e => ret None).

(** [load_documents], lines 26-59, without its messages, over the files
    of the directory tree in the order of [glob]: the entries for which
    [is_file()] answers [True].  The listing itself, which can raise, is
    in [Console.load_documents]. *)
Fixpoint load_documents (files : list Path) : M (list document) :=
  match files with
  | [] => ret []
  | file_path :: rest =>
      loaded <- load_document file_path ;;
      documents <- load_documents rest ;;
      ret (match loaded with Some doc => doc :: documents | None => documents end)
  end.

End Orchestrator.

(** Back ends to evaluate the orchestrator with: a scanned bill with no
    text layer, whose only OCR page reads [Total], forty blanks and
    [$12.34]. *)
Definition sparse_scan_text : str :=
  u "--- OCR Page 1 ---" ++ [10%N] ++ u "Total" ++ repeat 32%N 40 ++ u "$12.34" ++ [10%N].

Definition sparse_scan : Backends := {|
  ocr_outcome := fun _ => Ok sparse_scan_text;
  pdfplumber_outcome := fun _ => Ok (u "--- Page 1 ---" ++ [10%N; 10%N]);
  pymupdf_outcome := fun _ => Ok (u "--- Page 1 ---" ++ [10%N; 10%N; 10%N]);
  docx_outcome := fun _ => Raise (Exception (u "not a docx file"));
  read_outcome := fun _ => Raise (Exception (u "not a text file"))
|}.

Definition pge_may_2025 : Path :=
  {| path_str := u "documents/pge-may-2025.pdf";
     name := u "pge-may-2025.pdf";
     suffix := u ".pdf" |}.

(** The specification's reconstruction: the first window, followed by every
    later window without its first [overlap] tokens. *)
Definition stitch {A : Type} (overlap : Z) (windows : list (list A)) : list A :=
  match windows with
  | [] => []
  | w :: rest => w ++ flat_map (skipn (Z.to_nat overlap)) rest
  end.

(** Two loaded documents to evaluate the chunker with: a bill and a note. *)
Definition sample_documents : list document :=
  [ {| doc_content := u "Account 12345678 Total $150.00 due 03/01/2025, usage 450 kWh";
       doc_source := u "docs/pge-bill.txt";
       doc_filename := u "pge-bill.txt" |};
    {| doc_content := u "Remember to read the meter on Friday.";
       doc_source := u "docs/note.txt";
       doc_filename := u "note.txt" |} ].

(** A character that is no whitespace, or the blank. *)
Definition blank_or_ink (c : char) : bool := negb (isspace c) || char_eqb c 32%N.

(** Back ends for a PDF with a text layer: pdfplumber reads a long
    paragraph, the other extractors fail. *)
Definition native_text : str :=
  u "--- Page 1 ---" ++ [10%N] ++ flat_map (fun _ => u "All work and no play. ") (seq 0 12).

Definition native_pdf : Backends := {|
  ocr_outcome := fun _ => Raise (Exception (u "tesseract is not installed"));
  pdfplumber_outcome := fun _ => Ok native_text;
  pymupdf_outcome := fun _ => Raise (Exception (u "cannot open"));
  docx_outcome := fun _ => Raise (Exception (u "not a docx file"));
  read_outcome := fun _ => Raise (Exception (u "not a text file"))
|}.

Definition report_pdf : Path :=
  {| path_str := u "documents/report.pdf";
     name := u "report.pdf";
     suffix := u ".pdf" |}.

End DocumentProcessor.

(** ** [utility_bill_processor.py] *)

Module UtilityBillProcessor.
Import Re.

Section Extractor.
Context {U : Unicode}.

Definition date_shape : regex :=
  cat [between 1 2 digit; one_of "/.-"; between 1 2 digit; one_of "/.-"; times 4 digit].

(** [self.patterns], lines 19-26. *)
Definition pattern_amounts : regex :=
  cat [chr "$"; star space; between 1 3 digit; star (cat [chr ","; times 3 digit]);
       chr "."; times 2 digit].

Definition pattern_dates : regex := cat [b; date_shape; b].

(** The next four are run with [re.IGNORECASE]. *)
Definition pattern_kwh : regex :=
  cat [plus digit; opt (one_of ".,"); star digit; star space;
       alt [lit_i "kWh"; lit_i "kwh"; lit_i "KWH"]].

Definition pattern_therms : regex :=
  cat [plus digit; opt (one_of ".,"); star digit; star space;
       alt [lit_i "therm"; lit_i "Therm"; lit_i "THERM"]].

Definition pattern_account : regex :=
  cat [alt [lit_i "Account"; lit_i "Acct"];
       star (Chr (fun c => isspace c || char_eqb c 35%N));
       Group 1 (at_least 8 digit)].

Definition pattern_service_period : regex :=
  cat [alt [lit_i "Service"; lit_i "Bill"]; plus space;
       alt [lit_i "Period"; lit_i "Date"];
       star (Chr (fun c => isspace c || char_eqb c 58%N));
       Group 1 date_shape; star space; opt (alt [lit_i "to"; chr "-"]); star space;
       opt (Group 2 date_shape)].

(** [_is_reasonable_bill_amount], lines 201-209.  The bare [except] turns
    a failure of [float] into [False]; an infinity or a NaN fails one of
    the two comparisons. *)
Definition _is_reasonable_bill_amount (amount_str : str) : bool :=
  match float_ (replace 44%N [] (replace 36%N [] amount_str)) with
  | Some (Finite amount) => Qle_bool 10 amount && Qle_bool amount 2000
  | _ => false
  end.

(** [_is_valid_date], lines 211-221. *)
Definition _is_valid_date (date_str : str) : bool :=
  match Re.split (one_of "/.-") date_str with
  | [p1; p2; p3] =>
      match int_ p1, int_ p2, int_ p3 with
      | Some month, Some day, Some year =>
          ((1 <=? month) && (month <=? 12) && (1 <=? day) && (day <=? 31)
           && (2020 <=? year) && (year <=? 2030))%Z
      | _, _, _ => false
      end
  | _ => false
  end.

(** Lines 160-164: the amounts [_extract_bill_info] keeps. *)
Definition reasonable_amounts (text : str) : list str :=
  let amounts := findall pattern_amounts text in
  let unique_amounts := set_of amounts in
  filter _is_reasonable_bill_amount unique_amounts.

(** Lines 169-172. *)
Definition valid_dates (text : str) : list str :=
  let dates := findall pattern_dates text in
  let unique_dates := set_of dates in
  filter _is_valid_date unique_dates.

(** One line of the report: the label and the items, when there are any. *)
Definition line (label : str) (items : list str) : list str :=
  match items with
  | [] => []
  | _ => [label ++ join (u ", ") items]
  end.

(** [_extract_bill_info], lines 152-199. *)
Definition _extract_bill_info (text source : str) : str :=
  if match text with [] => true | _ => (len (strip text) <? 10)%Z end then []
  else
    let kwh_usage := findall pattern_kwh text in
    let therm_usage := findall pattern_therms text in
    let accounts := findall_group pattern_account text in
    let service_periods := findall_pairs pattern_service_period text in
    let periods :=
      map (fun '(start, end_) =>
             match end_ with [] => start | _ => start ++ u " to " ++ end_ end)
          service_periods in
    let info_found :=
      line (u "AMOUNTS: ") (reasonable_amounts text)
      ++ line (u "DATES: ") (valid_dates text)
      ++ line (u "ELECTRICITY USAGE: ") (set_of kwh_usage)
      ++ line (u "GAS USAGE: ") (set_of therm_usage)
      ++ line (u "ACCOUNT: ") (set_of accounts)
      ++ line (u "SERVICE PERIOD: ") periods in
    match info_found with
    | [] => []
    | _ => u "=== " ++ source ++ u " ===" ++ [10%N] ++ join [10%N] info_found
    end.

End Extractor.

End UtilityBillProcessor.

(** ** The page loops and the line filter of [document_processor.py] *)

Module Pages.
Import DocumentProcessor.

Fixpoint uint_str (d : Decimal.uint) : str :=
  match d with
  | Decimal.Nil => []
  | Decimal.D0 d => 48%N :: uint_str d
  | Decimal.D1 d => 49%N :: uint_str d
  | Decimal.D2 d => 50%N :: uint_str d
  | Decimal.D3 d => 51%N :: uint_str d
  | Decimal.D4 d => 52%N :: uint_str d
  | Decimal.D5 d => 53%N :: uint_str d
  | Decimal.D6 d => 54%N :: uint_str d
  | Decimal.D7 d => 55%N :: uint_str d
  | Decimal.D8 d => 56%N :: uint_str d
  | Decimal.D9 d => 57%N :: uint_str d
  end.

(** [str(n)] for an integer, as an f-string writes it. *)
Definition str_of_int (n : Z) : str :=
  match Z.to_int n with
  | Decimal.Pos d => uint_str d
  | Decimal.Neg d => 45%N :: uint_str d
  end.

(** A page of a PDF as [_extract_pdf_ocr] meets it: rendering the page to
    a PNG (lines 335-336, outside the [try]) and recognizing its text
    (lines 340-349, inside it) each succeed or raise. *)
Record ocr_page := {
  rendered : result unit;
  recognized : result str
}.

(** The loop of lines 331-356 from page index [page_num] on. *)
Fixpoint ocr_pages (page_num : Z) (pages : list ocr_page) (text : str) : result str :=
  match pages with
  | [] => Ok text
  | page :: rest =>
      match rendered page with
      | Raise e => Raise e
      | Ok _ =>
          let text :=
            match recognized page with
            | Ok page_text =>
                match strip page_text with
                | [] => text
                | _ => text ++ u "--- OCR Page " ++ str_of_int (page_num + 1) ++ u " ---"
                            ++ nl ++ page_text ++ nl
                end
            | Raise _ => text            (* except Exception: continue *)
            end in
          ocr_pages (page_num + 1) rest text
      end
  end.

(** A page that adds nothing to the text: its recognition raised, or gave
    only whitespace (line 351). *)
Definition unread (page : ocr_page) : Prop :=
  match recognized page with
  | Ok page_text => strip page_text = []
  | Raise _ => True
  end.

(** [_extract_pdf_ocr], lines 326-359, on the outcome of [fitz.open]. *)
Definition _extract_pdf_ocr (doc : result (list ocr_page)) : result str :=
  match doc with
  | Raise e => Raise e
  | Ok pages => ocr_pages 0 (firstn 5 pages) []
  end.

(** [s.split(sep)] for a one-character separator: the pieces between the
    separators, empty ones included. *)
Fixpoint split_on (sep : char) (s : str) : list str :=
  match s with
  | [] => [[]]
  | c :: t =>
      if char_eqb c sep then [] :: split_on sep t
      else match split_on sep t with
           | piece :: pieces => (c :: piece) :: pieces
           | [] => [[c]]
           end
  end.

Section LineFilter.
Context {U : Unicode}.

(** [str.isalpha] above ASCII: one more table of the Unicode database. *)
Variable uni_isalpha : char -> bool.

Definition isalpha (c : char) : bool :=
  if is_ascii c then ascii_isalpha c else uni_isalpha c.

(** Line 284: the characters counted as special. *)
Definition special (c : char) : bool :=
  negb (isalnum c) && negb (existsb (char_eqb c) (u " .,/$-():")).

(** The tests of lines 280-299 on one line of the text: is it kept? *)
Definition keeps_line (line : str) : bool :=
  if (len (strip line) <? 3)%Z then false
  else
    let special_chars := len (filter special line) in
    (* special_chars > len(line) * 0.5, on integers *)
    if (2 * special_chars >? len line)%Z then false
    else
      let cleaned_line := strip line in
      if existsb (fun c => existsb (char_eqb c) (u "$/.-") || is_decimal c) cleaned_line
      then true
      else if existsb (fun word => contains word (lower cleaned_line))
                      (map u ["pge"; "pg&e"; "account"; "total"; "kwh"; "therm"]%string)
      then true
      else (len cleaned_line >? 10)%Z && existsb isalpha cleaned_line.

(** The list [cleaned_lines] of lines 276-299. *)
Definition cleaned_lines (text : str) : list str :=
  map strip (filter keeps_line (split_on 10%N text)).

(** [_clean_extracted_text], lines 270-301. *)
Definition _clean_extracted_text (text : str) : str :=
  match text with
  | [] => []
  | _ => join nl (cleaned_lines text)
  end.

End LineFilter.

(** The dictionary that [page.get_text("dict")] returns, as
    [_extract_from_layout] reads it: every key may be missing. *)
Record span := { span_text : option str }.
Record layout_line := { spans : option (list span) }.
Record block := { block_type : option Z; block_lines : option (list layout_line) }.
Record layout := { blocks : option (list block) }.

Definition get {A : Type} (field : option A) (default : A) : A :=
  match field with Some a => a | None => default end.

(** Lines 164-170: the text of one line of a block, with its newline, or
    nothing when the line is blank. *)
Definition layout_line_text (line : layout_line) : str :=
  let line_text :=
    flat_map (fun s =>
                let span_text := get (span_text s) [] in
                match strip span_text with
                | [] => []
                | _ => span_text ++ u " "
                end)
             (get (spans line) []) in
  match strip line_text with
  | [] => []
  | stripped => stripped ++ nl
  end.

(** [extract_blocks], lines 159-171. *)
Definition extract_blocks (blocks : list block) : str :=
  flat_map (fun b =>
              match block_type b with
              | Some 0%Z => flat_map layout_line_text (get (block_lines b) [])
              | _ => []
              end)
           blocks.

(** [_extract_from_layout], lines 155-176. *)
Definition _extract_from_layout (layout_dict : layout) : str :=
  match blocks layout_dict with
  | Some blocks => extract_blocks blocks
  | None => []
  end.

(** A page as [_extract_pdf_pdfplumber] meets it: the tables of
    [page.extract_tables] (line 187, outside the [try]; a cell is a string
    or [None]), the outcome of [page.extract_text] (line 218, inside it;
    the text or [None]) and [page.chars] (line 236). *)
Record plumber_page := {
  extracted_tables : result (list (list (list (option str))));
  extracted_text : result (option str);
  page_chars : result (list pdf_char)
}.

Section Plumber.
Context {U : Unicode}.
Variable uni_isalpha : char -> bool.

(** Lines 204-214: what one row of a table adds to [page_text]. *)
Definition table_row (row : list (option str)) : str :=
  if existsb (fun cell =>
                match cell with
                | Some ((_ :: _) as cell) =>
                    match strip cell with [] => false | _ => true end
                | _ => false
                end) row
  then
    let clean_row :=
      flat_map (fun cell =>
                  match cell with
                  | Some ((_ :: _) as cell) =>
                      match _clean_cell_text (strip cell) with
                      | [] => []
                      | clean_cell => [clean_cell]
                      end
                  | _ => []
                  end) row in
    match clean_row with
    | [] => []
    | _ => join (u " | ") clean_row ++ nl
    end
  else [].

(** Lines 200-214: what the tables of a page add to [page_text]. *)
Definition page_tables (tables : list (list (list (option str)))) : str :=
  flat_map (fun '(i, table) =>
              match table with
              | [] => []
              | _ => nl ++ u "=== TABLE " ++ str_of_int (i + 1) ++ u " ===" ++ nl
                     ++ flat_map table_row table
              end)
           (enumerate_from 0 tables).

(** The body of the page loop, lines 184-240.  The local variable
    [extracted_text] is assigned at line 218 only: [bound] is [None] while
    it is unbound, and it keeps the value of an earlier page when
    [page.extract_text] raises.  Reading it unbound at line 239 raises
    [UnboundLocalError]. *)
Definition plumber_page_text (page_num : Z) (page : plumber_page)
  (bound : option (option str)) : result (str * option (option str)) :=
  match extracted_tables page with
  | Raise e => Raise e
  | Ok tables =>
      let page_text :=
        u "--- Page " ++ str_of_int (page_num + 1) ++ u " ---" ++ nl ++ page_tables tables in
      let '(page_text, bound) :=
        match extracted_text page with
        | Ok extracted =>
            (match extracted with
             | Some ((_ :: _) as extracted) =>
                 let cleaned_text := _clean_extracted_text uni_isalpha extracted in
                 if (len (strip cleaned_text) >? 50)%Z
                 then page_text ++ nl ++ u "=== TEXT CONTENT ===" ++ nl ++ cleaned_text ++ nl
                 else page_text
             | _ => page_text
             end, Some extracted)
        | Raise _ => (page_text, bound)
        end in
      match page_chars page with
      | Raise e => Raise e
      | Ok [] => Ok (page_text, bound)
      | Ok chars =>
          let char_text := _extract_from_chars chars in
          match bound with
          | None => Raise (Exception (u "UnboundLocalError: extracted_text"))
          | Some extracted =>
              Ok (if (len (strip char_text) >? len (get extracted []))%Z
                  then page_text ++ nl ++ u "=== CHAR EXTRACTION ===" ++ nl ++ char_text ++ nl
                  else page_text,
                  bound)
          end
      end
  end.

(** The loop of lines 183-242 from page index [page_num] on. *)
Fixpoint plumber_pages (page_num : Z) (pages : list plumber_page)
  (bound : option (option str)) (text : str) : result str :=
  match pages with
  | [] => Ok text
  | page :: rest =>
      match plumber_page_text page_num page bound with
      | Raise e => Raise e
      | Ok (page_text, bound) =>
          plumber_pages (page_num + 1) rest bound (text ++ page_text ++ nl)
      end
  end.

(** [_extract_pdf_pdfplumber], lines 178-244, on the outcome of
    [pdfplumber.open]. *)
Definition _extract_pdf_pdfplumber (pdf : result (list plumber_page)) : result str :=
  match pdf with
  | Raise e => Raise e
  | Ok pages => plumber_pages 0 pages None []
  end.

End Plumber.

(** A page without text layer, as a scanner produces it. *)
Definition scanned_page : plumber_page :=
  {| extracted_tables := Ok []; extracted_text := Ok None; page_chars := Ok [] |}.


(** Back ends for a PDF with the pages [pages]: pdfplumber answers what
    [_extract_pdf_pdfplumber] computes on them, the other extractors find
    nothing. *)
Definition scan_of (pages : list plumber_page) : Backends := {|
  ocr_outcome := fun _ => Ok [];
  pdfplumber_outcome := fun _ =>
    @_extract_pdf_pdfplumber ascii_only (fun _ => false) (Ok pages);
  pymupdf_outcome := fun _ => Ok [];
  docx_outcome := fun _ => Raise (Exception (u "not a docx file"));
  read_outcome := fun _ => Raise (Exception (u "not a text file"))
|}.

End Pages.

(** ** The page loop of [utility_bill_processor.py] *)

Module BillPages.
Import DocumentProcessor Pages.



Section Processor.
Context {U : Unicode}.







End Processor.


End BillPages.

(** ** [vector_store.py]: what [add_documents] hands to the store *)

Module VectorStore.
Import DocumentProcessor Pages.
Local Open Scope Z_scope.

(** [range(start, stop, step)] for a positive [step]. *)
Definition range_step (start stop step : Z) : list Z :=
  map (fun k => start + step * Z.of_nat k)
      (seq 0 (Z.to_nat ((stop - start + step - 1) / step))).

(** Line 53: the id of the chunk at index [i]. *)
Definition chunk_ident (i : Z) (c : chunk) : str :=
  u "chunk_" ++ str_of_int i ++ u "_" ++ filename c ++ u "_" ++ str_of_int (chunk_id c).

(** Lines 47-52. *)
Record metadata := {
  meta_source : str;
  meta_filename : str;
  meta_chunk_id : Z;
  meta_total_chunks : Z
}.

Definition batch_size : Z := 32.

(** Lines 60-61: the lists [batch_docs] handed to the embedding model. *)
Definition batches (documents : list str) : list (list str) :=
  map (fun i => slice documents i (i + batch_size))
      (range_step 0 (len documents) batch_size).

(** What [add_documents] passes to [collection.add], lines 67-72. *)
Record added (embedding : Type) := {
  embeddings : list embedding;
  documents : list str;
  metadatas : list metadata;
  ids : list str
}.
Arguments embeddings {embedding} a.
Arguments documents {embedding} a.
Arguments metadatas {embedding} a.
Arguments ids {embedding} a.

Section Store.
Variable embedding : Type.

(** [self.embedding_model.encode] on a batch: an external model. *)
Variable encode_batch : list str -> list embedding.

(** [add_documents], lines 31-74: [None] when it returns without adding. *)
Definition add_documents (chunks : list chunk) : option (added embedding) :=
  match chunks with
  | [] => None
  | _ =>
      let documents := map content chunks in
      let metadatas :=
        map (fun c => {| meta_source := source c;
                         meta_filename := filename c;
                         meta_chunk_id := chunk_id c;
                         meta_total_chunks := total_chunks c |}) chunks in
      let ids := map (fun '(i, c) => chunk_ident i c) (enumerate_from 0 chunks) in
      let all_embeddings := flat_map encode_batch (batches documents) in
      Some {| embeddings := all_embeddings;
              documents := documents;
              metadatas := metadatas;
              ids := ids |}
  end.

End Store.

End VectorStore.

(** ** The messages of [document_processor.py], and the file system

    [_extract_pdf] and [load_documents] report their progress with
    [print], and [load_documents] walks the directory itself.  Here the
    two functions are written with these steps, each of which can raise:
    [DocumentProcessor._extract_pdf] and [DocumentProcessor.load_documents]
    above are what they come to on a standard output that takes every
    message and a directory that can be listed (modules [ConsoleFacts]
    and [ListingFacts]). *)

Module Console.
Import DocumentProcessor.
Local Open Scope Z_scope.

(** [print(msg)] writes to [sys.stdout].  It raises when the stream
    refuses the text: a [UnicodeEncodeError] for a character that the
    encoding of the stream does not have. *)
Class Stdout := {
  write : str -> result unit
}.

(** A stream that takes every message. *)
Definition quiet : Stdout := {| write := fun _ => Ok tt |}.

(** A strict UTF-8 stream.  It refuses the surrogate code points, by
    which Python stands for the bytes of a file name that are no UTF-8. *)
Definition strict_utf8 : Stdout := {|
  write := fun msg =>
    if existsb (in_range 55296%N 57343%N) msg
    then Raise (Exception (u "UnicodeEncodeError: surrogates not allowed"))
    else Ok tt
|}.

(** [str(e)]. *)
Definition exn_text (e : exn) : str :=
  match e with Exception message => message end.

(** What a call can change: the extractors called so far, and the list
    [documents] of [load_documents]. *)
Record world := {
  calls : list strategy;
  documents : list document
}.

(** A computation that may raise. *)
Definition IO (A : Type) : Type := world -> world * result A.

Definition ret {A : Type} (a : A) : IO A := fun w => (w, Ok a).

Definition raise {A : Type} (e : exn) : IO A := fun w => (w, Raise e).

Definition bind {A B : Type} (m : IO A) (k : A -> IO B) : IO B :=
  fun w =>
    match m w with
    | (w', Ok a) => k a w'
    | (w', Raise e) => (w', Raise e)
    end.

(** [try: body  except Exception as e: handler(e)]: what the body did
    before it raised stays done. *)
Definition try_except {A : Type} (body : IO A) (handler : exn -> IO A) : IO A :=
  fun w =>
    match body w with
    | (w', Ok a) => (w', Ok a)
    | (w', Raise e) => handler e w'
    end.

Notation "x <-- m ;; k" := (bind m (fun x => k))
  (at level 61, m at next level, right associativity).
Notation "m ;;; k" := (bind m (fun _ => k))
  (at level 61, right associativity).

(** A call of an extractor, which logs itself. *)
Definition lift {A : Type} (m : M A) : IO A :=
  fun w =>
    let '(log, r) := m (calls w) in
    ({| calls := log; documents := documents w |}, r).

(** An answer of the file system or of a library. *)
Definition outcome {A : Type} (r : result A) : IO A := fun w => (w, r).

Definition print {C : Stdout} (msg : str) : IO unit := outcome (write msg).

(** [documents.append(doc)]. *)
Definition append (doc : document) : IO unit :=
  fun w => ({| calls := calls w; documents := documents w ++ [doc] |}, Ok tt).

(** The check mark and the ballot cross of the messages. *)
Definition check_mark : str := [10003%N].
Definition ballot_x : str := [10007%N].

Section Orchestrator.
Context {U : Unicode} {B : Backends} {C : Stdout}.
Variable self : processor.

(** Lines 66-83. *)
Definition bill_ocr_step (file_path : Path) : IO (option str) :=
  if _is_utility_bill (name file_path) then
    print (u "  Utility bill detected - using OCR extraction") ;;;
    if use_ocr self then
      print (u "  Running OCR...") ;;;
      ocr_text <-- lift (_extract_pdf_ocr file_path) ;;
      print (u "  OCR extracted " ++ Pages.str_of_int (len ocr_text) ++ u " characters") ;;;
      if len (strip ocr_text) >? 50 then
        print (u "  " ++ check_mark ++ u " OCR successful, using OCR results") ;;;
        let cleaned_text := _clean_text ocr_text in
        print (u "  " ++ check_mark ++ u " After cleaning: "
               ++ Pages.str_of_int (len cleaned_text) ++ u " characters") ;;;
        ret (Some cleaned_text)
      else
        print (u "  " ++ ballot_x ++ u " OCR produced minimal text ("
               ++ Pages.str_of_int (len ocr_text) ++ u " chars), trying other methods") ;;;
        ret None
    else
      print (u "  OCR disabled, trying other methods") ;;;
      ret None
  else
    print (u "  Regular PDF - trying standard methods") ;;;
    ret None.

(** Lines 85-110. *)
Definition standard_methods (file_path : Path) : IO str :=
  print (u "  Trying pdfplumber extraction...") ;;;
  text <-- lift (_extract_pdf_pdfplumber file_path) ;;
  if len (strip text) >? 200 then
    print (u "  " ++ check_mark ++ u " pdfplumber extracted "
           ++ Pages.str_of_int (len text) ++ u " characters") ;;;
    ret (_clean_text text)
  else
    print (u "  Trying PyMuPDF extraction...") ;;;
    pymupdf_text <-- lift (_extract_pdf_pymupdf file_path) ;;
    text <-- (if len (strip pymupdf_text) >? len (strip text) then
                let text := pymupdf_text in
                print (u "  " ++ check_mark ++ u " PyMuPDF extracted "
                       ++ Pages.str_of_int (len text) ++ u " characters") ;;;
                ret text
              else ret text) ;;
    text <-- (if (len (strip text) <? 100) && use_ocr self
                 && negb (_is_utility_bill (name file_path))
              then
                print (u "  Poor extraction results, trying OCR as last resort...") ;;;
                ocr_text <-- lift (_extract_pdf_ocr file_path) ;;
                if len (strip ocr_text) >? len (strip text) then
                  let text := ocr_text in
                  print (u "  " ++ check_mark ++ u " OCR extracted "
                         ++ Pages.str_of_int (len text) ++ u " characters") ;;;
                  ret text
                else ret text
              else ret text) ;;
    ret (_clean_text text).

(** The [try] block of [_extract_pdf], lines 64-110. *)
Definition _extract_pdf_try (file_path : Path) : IO str :=
  accepted <-- bill_ocr_step file_path ;;
  match accepted with
  | Some cleaned_text => ret cleaned_text
  | None => standard_methods file_path
  end.

(** The message of line 113. *)
Definition extraction_report (file_path : Path) (e : exn) : str :=
  u "  Error extracting from " ++ path_str file_path ++ u ": " ++ exn_text e.

(** [_extract_pdf], lines 61-114. *)
Definition _extract_pdf (file_path : Path) : IO str :=
  try_except (_extract_pdf_try file_path)
             (fun e => print (extraction_report file_path e) ;;; ret []).

(** The message of line 57. *)
Definition processing_report (file_path : Path) (e : exn) : str :=
  ballot_x ++ u " Error processing " ++ path_str file_path ++ u ": " ++ exn_text e.

(** The body of the loop of [load_documents] for a file, lines 33-57. *)
Definition load_document (file_path : Path) : IO unit :=
  try_except
    (let suffix_lower := lower (suffix file_path) in
     extracted <--
       (if str_eqb suffix_lower (u ".pdf") then
          print (u "Processing PDF: " ++ name file_path) ;;;
          content <-- _extract_pdf file_path ;;
          ret (Some content)
        else if str_eqb suffix_lower (u ".docx") || str_eqb suffix_lower (u ".doc") then
          print (u "Processing DOCX: " ++ name file_path) ;;;
          content <-- lift (_extract_docx file_path) ;;
          ret (Some content)
        else if str_eqb suffix_lower (u ".txt") then
          print (u "Processing TXT: " ++ name file_path) ;;;
          content <-- lift (_extract_text file_path) ;;
          ret (Some content)
        else ret None) ;;
     match extracted with
     | None => ret tt                         (* continue *)
     | Some content =>
         if match content with [] => false | _ => len (strip content) >? 0 end then
           append {| doc_content := content;
                     doc_source := path_str file_path;
                     doc_filename := name file_path |} ;;;
           print (check_mark ++ u " Extracted " ++ Pages.str_of_int (len content)
                  ++ u " characters from " ++ name file_path)
         else
           print (ballot_x ++ u " No content extracted from " ++ name file_path)
     end)
    (fun e => print (processing_report file_path e)).

(** What [directory_path.glob] yields: a path, and the answer of
    [file_path.is_file()] for it (line 32, outside the [try]). *)
Record entry := {
  entry_path : Path;
  is_file : result bool
}.

(** The loop of lines 31-57 over the entries that [glob] yields;
    [glob_end] is what ends the listing: an exception, or nothing. *)
Fixpoint load_entries (entries : list entry) (glob_end : option exn) : IO unit :=
  match entries with
  | [] =>
      match glob_end with
      | Some e => raise e
      | None => ret tt
      end
  | file :: rest =>
      found <-- outcome (is_file file) ;;
      (if found then load_document (entry_path file) else ret tt) ;;;
      load_entries rest glob_end
  end.

(** [load_documents], lines 26-59. *)
Definition load_documents (entries : list entry) (glob_end : option exn)
  : IO (list document) :=
  (fun w => ({| calls := calls w; documents := [] |}, Ok tt)) ;;;
  load_entries entries glob_end ;;;
  (fun w => (w, Ok (documents w))).

End Orchestrator.

(** What a computation appends to [documents], however it ends: at most
    [n] documents, each of them [good]. *)
Definition appends {A : Type} (good : document -> Prop) (n : nat) (m : IO A) : Prop :=
  forall w w' r, m w = (w', r) ->
    exists added : list document,
      documents w' = (documents w ++ added)%list /\
      (length added <= n)%nat /\ Forall good added.

(** What a computation returns, when it returns. *)
Definition returns {A : Type} (P : A -> Prop) (m : IO A) : Prop :=
  forall w w' a, m w = (w', Ok a) -> P a.

(** A document that the loop builds for the file [file_path]: its text is
    not blank, and it is normalized: kept characters only, and no
    whitespace but blanks. *)
Definition loaded_from {U : Unicode} (file_path : Path) (doc : document) : Prop :=
  doc_source doc = path_str file_path /\
  doc_filename doc = name file_path /\
  strip (doc_content doc) <> [] /\
  forallb kept (doc_content doc) = true /\
  forallb blank_or_ink (doc_content doc) = true.

(** An entry that the loop reads: [is_file()] answers [True]. *)
Definition listed_file (file : entry) : bool :=
  match is_file file with
  | Ok true => true
  | _ => false
  end.

(** A PDF file in a folder whose name holds a byte that is no UTF-8,
    which Python reads as the surrogate U+DCE9. *)
Definition mangled_pdf : Path :=
  {| path_str := u "documents/r" ++ [56553%N] ++ u "sum" ++ [56553%N] ++ u "/report.pdf";
     name := u "report.pdf";
     suffix := u ".pdf" |}.

(** Back ends that can open no file. *)
Definition failing : Backends := {|
  ocr_outcome := fun _ => Raise (Exception (u "cannot open"));
  pdfplumber_outcome := fun _ => Raise (Exception (u "cannot open"));
  pymupdf_outcome := fun _ => Raise (Exception (u "cannot open"));
  docx_outcome := fun _ => Raise (Exception (u "cannot open"));
  read_outcome := fun _ => Raise (Exception (u "cannot open"))
|}.

Definition nothing_yet : world := {| calls := []; documents := [] |}.

(** A folder to evaluate the loop with: a sub-folder and a note in it.
    The note can be read, nothing else can. *)
Definition notes : Backends := {|
  ocr_outcome := fun _ => Raise (Exception (u "cannot open"));
  pdfplumber_outcome := fun _ => Raise (Exception (u "cannot open"));
  pymupdf_outcome := fun _ => Raise (Exception (u "cannot open"));
  docx_outcome := fun _ => Raise (Exception (u "cannot open"));
  read_outcome := fun _ => Ok (u "  Read the   meter on Friday. ")
|}.

Definition notes_folder : list entry :=
  [ {| entry_path := {| path_str := u "docs/2025"; name := u "2025"; suffix := [] |};
       is_file := Ok false |};
    {| entry_path := {| path_str := u "docs/2025/note.txt"; name := u "note.txt";
                        suffix := u ".txt" |};
       is_file := Ok true |} ].

(** The same folder, with an entry in a folder that cannot be searched:
    [is_file()] raises for it. *)
Definition locked_folder : list entry :=
  notes_folder ++
  [ {| entry_path := {| path_str := u "docs/private/plan.txt"; name := u "plan.txt";
                        suffix := u ".txt" |};
       is_file := Raise (Exception (u "PermissionError: Permission denied")) |} ].

End Console.

(** ** The texts that the tokenizer refuses

    [self.encoding.encode(text)] raises a [ValueError] for a text that
    holds one of the special tokens of the encoding: [_split_text] leaves
    [disallowed_special] at its default.  Neither [_split_text] nor
    [chunk_documents] has a [try], so the exception ends them.
    [DocumentProcessor._split_text] and [DocumentProcessor.chunk_documents]
    above are these functions on texts that are not refused (module
    [EncodingFacts]). *)

Module Encoding.
Import DocumentProcessor.
Local Open Scope Z_scope.

(** [refused text] is the exception [encode(text)] raises, if it raises. *)
Class Refusals := {
  refused : str -> option exn
}.

(** The special tokens of [cl100k_base]. *)
Definition special_tokens : list str :=
  [ u "<|endoftext|>"; u "<|fim_prefix|>"; u "<|fim_middle|>"; u "<|fim_suffix|>";
    u "<|endofprompt|>" ].

(** The refusals of [cl100k_base]: a text that holds a special token. *)
Definition cl100k_base : Refusals := {|
  refused := fun text =>
    if existsb (fun special => contains special text) special_tokens
    then Some (Exception (u "Encountered text corresponding to disallowed special token"))
    else None
|}.

Section Chunker.
Context {U : Unicode} {T : Tokenizer} {R : Refusals}.
Variable self : processor.

(** [self.encoding.encode(text)]. *)
Definition encode_outcome (text : str) : result (list token) :=
  match refused text with
  | Some e => Raise e
  | None => Ok (encode text)
  end.

(** [_split_text], lines 497-519.  [None]: the fuel of the loop ran out. *)
Definition _split_text (fuel : nat) (text : str) : option (result (list str)) :=
  match encode_outcome text with
  | Raise e => Some (Raise e)
  | Ok tokens =>
      if len tokens <=? chunk_size self then Some (Ok [text])
      else
        match split_loop self fuel tokens 0 [] with
        | None => None
        | Some chunks => Some (Ok chunks)
        end
  end.

(** The body of the loop of [chunk_documents], lines 413-440. *)
Definition chunk_document (fuel : nat) (doc : document) : option (result (list chunk)) :=
  let text := doc_content doc in
  let has_pge := contains (u "pge") (lower (doc_filename doc)) in
  let has_bill := contains (u "bill") (lower (doc_filename doc)) in
  let structured :=
    if has_pge || has_bill then
      match _extract_bill_info text with
      | [] => []
      | structured_info =>
          [ {| content := structured_info;
               source := doc_source doc;
               filename := doc_filename doc;
               chunk_id := 0;
               total_chunks := 1;
               type := structured_bill_info |} ]
      end
    else [] in
  match _split_text fuel text with
  | None => None
  | Some (Raise e) => Some (Raise e)
  | Some (Ok doc_chunks) =>
      Some (Ok (structured ++
                map (fun '(i, chunk) =>
                       {| content := chunk;
                          source := doc_source doc;
                          filename := doc_filename doc;
                          chunk_id := i + (if has_pge then 1 else 0);
                          total_chunks := len doc_chunks + (if has_pge then 1 else 0);
                          type := text_chunk |})
                    (enumerate_from 0 doc_chunks)))
  end.

(** [chunk_documents], lines 408-442: the documents in turn, up to the
    first that is refused. *)
Fixpoint chunk_documents (fuel : nat) (documents : list document)
  : option (result (list chunk)) :=
  match documents with
  | [] => Some (Ok [])
  | doc :: rest =>
      match chunk_document fuel doc with
      | None => None
      | Some (Raise e) => Some (Raise e)
      | Some (Ok here) =>
          match chunk_documents fuel rest with
          | None => None
          | Some (Raise e) => Some (Raise e)
          | Some (Ok there) => Some (Ok (here ++ there))
          end
      end
  end.

End Chunker.

(** A document to evaluate the chunker with: a note that quotes a special
    token. *)
Definition quoting_note : document :=
  {| doc_content := u "The model stops at <|endoftext|> and nowhere else.";
     doc_source := u "docs/tokens.txt";
     doc_filename := u "tokens.txt" |}.

End Encoding.

(** ** [vector_store.py] and [rag_pipeline.py]: ingestion

    [add_documents] and [ingest_documents] with their messages and their
    calls of the embedding model and of the collection, each of which can
    raise: neither function has a [try]. *)

Module Collection.
Import DocumentProcessor Pages VectorStore Console.
Local Open Scope Z_scope.

(** [self.embedding_model.encode] on a batch and [self.collection.add]:
    external libraries, of which nothing is assumed. *)
Class Store (embedding : Type) := {
  embed : list str -> result (list embedding);
  collection_add : added embedding -> result unit
}.

Section Store.
Context {C : Stdout} {embedding : Type} {S : Store embedding}.

(** What ingestion can change: what [load_documents] changes, and the
    records that [collection.add] took. *)
Record state := {
  console : world;
  collection : list (added embedding)
}.

Definition Step (A : Type) : Type := state -> state * result A.

Definition andthen {A B : Type} (m : Step A) (k : A -> Step B) : Step B :=
  fun s =>
    match m s with
    | (s', Ok a) => k a s'
    | (s', Raise e) => (s', Raise e)
    end.

(** A step of [document_processor.py]. *)
Definition on_console {A : Type} (m : IO A) : Step A :=
  fun s =>
    let '(w, r) := m (console s) in
    ({| console := w; collection := collection s |}, r).

Definition say (msg : str) : Step unit := on_console (print msg).

(** The loop of lines 60-63. *)
Fixpoint encode_all (batches : list (list str)) : result (list embedding) :=
  match batches with
  | [] => Ok []
  | batch_docs :: rest =>
      match embed batch_docs with
      | Raise e => Raise e
      | Ok batch_embeddings =>
          match encode_all rest with
          | Raise e => Raise e
          | Ok all_embeddings => Ok (batch_embeddings ++ all_embeddings)
          end
      end
  end.

(** [self.collection.add(...)], lines 67-72. *)
Definition add (record : added embedding) : Step unit :=
  fun s =>
    match collection_add record with
    | Ok _ => ({| console := console s; collection := collection s ++ [record] |}, Ok tt)
    | Raise e => (s, Raise e)
    end.

(** What [add_documents] passes to [collection.add] for [chunks], once
    the embeddings are there. *)
Definition record_of (chunks : list chunk) (all_embeddings : list embedding)
  : added embedding :=
  {| embeddings := all_embeddings;
     VectorStore.documents := map content chunks;
     metadatas :=
       map (fun c => {| meta_source := source c;
                        meta_filename := filename c;
                        meta_chunk_id := chunk_id c;
                        meta_total_chunks := total_chunks c |}) chunks;
     ids := map (fun '(i, c) => chunk_ident i c) (enumerate_from 0 chunks) |}.

(** [add_documents], lines 31-74. *)
Definition add_documents (chunks : list chunk) : Step unit :=
  andthen (say (u "Processing " ++ str_of_int (len chunks) ++ u " chunks...")) (fun _ =>
  match chunks with
  | [] => say (u "No chunks to process")
  | _ =>
      andthen (say (u "Generating embeddings...")) (fun _ =>
      andthen (fun s => (s, encode_all (batches (map content chunks)))) (fun all_embeddings =>
      andthen (say (u "Adding to vector store...")) (fun _ =>
      andthen (add (record_of chunks all_embeddings)) (fun _ =>
      say (check_mark ++ u " Added " ++ str_of_int (len chunks)
           ++ u " chunks to vector store")))))
  end).

End Store.

Arguments state embedding : clear implicits.

End Collection.

Module RAGPipeline.
Import DocumentProcessor Pages VectorStore Console Collection.
Local Open Scope Z_scope.

Section Pipeline.
Context {U : Unicode} {T : Tokenizer} {R : Encoding.Refusals} {B : Backends} {C : Stdout}.
Context {embedding : Type} {S : Store embedding}.

(** [self.doc_processor]. *)
Variable doc_processor : processor.

(** [ingest_documents], lines 34-57; [entries] and [glob_end] are what
    the listing of [documents_path] yields.  [None]: the fuel of the
    chunker ran out. *)
Definition ingest_documents (fuel : nat) (documents_path : str)
  (entries : list entry) (glob_end : option exn)
  : state embedding -> option (state embedding * result unit) :=
  fun s =>
    match andthen (say (u "Loading documents from " ++ documents_path ++ u "..."))
                  (fun _ => on_console (Console.load_documents doc_processor entries glob_end))
                  s with
    | (s, Raise e) => Some (s, Raise e)
    | (s, Ok []) => Some (say (u "No documents found or processed successfully.") s)
    | (s, Ok documents) =>
        match say (u "Loaded " ++ str_of_int (len documents) ++ u " documents") s with
        | (s, Raise e) => Some (s, Raise e)
        | (s, Ok _) =>
            match Encoding.chunk_documents doc_processor fuel documents with
            | None => None
            | Some (Raise e) => Some (s, Raise e)
            | Some (Ok []) => Some (say (u "No chunks created from documents.") s)
            | Some (Ok chunks) =>
                Some (andthen (say (u "Created " ++ str_of_int (len chunks) ++ u " chunks"))
                        (fun _ =>
                         andthen (add_documents chunks)
                           (fun _ => say (u "Document ingestion completed!"))) s)
            end
        end
    end.

End Pipeline.

(** An embedding model and a collection to evaluate ingestion with: one
    number for each text, and a collection that takes every record. *)
Definition text_lengths : Store Z := {|
  embed := fun batch_docs => Ok (map len batch_docs);
  collection_add := fun _ => Ok tt
|}.

(** A collection that takes at most [n] chunks in one call, as ChromaDB
    limits the size of a batch. *)
Definition limited (n : Z) : Store Z := {|
  embed := fun batch_docs => Ok (map len batch_docs);
  collection_add := fun record =>
    if len (ids record) >? n
    then Raise (Exception (u "Batch size exceeds maximum batch size"))
    else Ok tt
|}.

Definition empty_store : state Z :=
  {| console := nothing_yet; collection := [] |}.

End RAGPipeline.

(* ================================================================== *)
(** * Part II: theorems                                                *)
(* ================================================================== *)

Module PyFacts.

Lemma char_eqb_eq (a b : char) : char_eqb a b = true <-> a = b.
Proof. apply N.eqb_eq. Qed.

Lemma startswith_app (p s : str) :
  startswith p s = true <-> exists post, s = p ++ post.
Proof.
  revert s; induction p as [|c p IH]; intros s; simpl.
  - split; [intros _; now exists s | reflexivity].
  - destruct s as [|d s]; simpl.
    + split; [discriminate | intros [post E]; discriminate].
    + rewrite andb_true_iff, char_eqb_eq, IH. split.
      * intros [-> [post ->]]. now exists post.
      * intros [post E]. injection E as -> ->. split; [reflexivity | now exists post].
Qed.

(** [contains] decides the substring relation. *)
Lemma contains_substring (needle hay : str) :
  contains needle hay = true <-> exists pre post, hay = pre ++ needle ++ post.
Proof.
  induction hay as [|c hay IH].
  - simpl. rewrite orb_false_r, startswith_app. split.
    + intros [post E]. now exists [], post.
    + intros [pre [post E]]. destruct pre; simpl in E.
      * now exists post.
      * discriminate.
  - cbn [contains]. rewrite orb_true_iff, startswith_app, IH. split.
    + intros [[post E] | [pre [post E]]].
      * now exists [], post.
      * exists (c :: pre), post. now rewrite E.
    + intros [pre [post E]]. destruct pre as [|d pre]; simpl in E.
      * left. now exists post.
      * right. injection E as -> ->. now exists pre, post.
Qed.

End PyFacts.

Module ClassifierFacts.
Import DocumentProcessor PyFacts.

(** C5 (amended). [_is_utility_bill] answers true exactly when the
    lowercased filename has one of the twelve indicators as a substring;
    so ["pge-may-2025.pdf"] is a bill, ["normal-document.pdf"] is not, and
    ["Con_Ed_Statement.pdf"] is not either (its lowercase form holds
    ["con_ed"], with an underscore, and not ["con ed"]), while
    ["Con Ed Statement.pdf"] is. *)
Theorem is_utility_bill_substring (U : Unicode) :
  (forall filename : str,
      _is_utility_bill filename = true <->
      exists indicator,
        In indicator (map u ["pge"; "pg&e"; "pacific gas"; "electric";
                             "bill"; "utility"; "energy"; "gas";
                             "edison"; "sdge"; "peco"; "con ed"]%string)
        /\ exists pre post, lower filename = pre ++ indicator ++ post)
  /\ _is_utility_bill (u "pge-may-2025.pdf") = true
  /\ _is_utility_bill (u "normal-document.pdf") = false
  /\ _is_utility_bill (u "Con_Ed_Statement.pdf") = false
  /\ _is_utility_bill (u "Con Ed Statement.pdf") = true.
Proof.
  split; [|repeat split; reflexivity].
  intros filename. unfold _is_utility_bill. rewrite existsb_exists.
  fold utility_indicators.
  split; intros [ind [Hin H]]; exists ind; (split; [exact Hin|]);
    now apply contains_substring.
Qed.

(** C5 as stated fails on its third example: the classifier rejects
    ["Con_Ed_Statement.pdf"]. *)
Lemma is_utility_bill_con_ed_underscore :
  @_is_utility_bill ascii_only (u "Con_Ed_Statement.pdf") = false.
Proof. reflexivity. Qed.

End ClassifierFacts.

Module ChunkerFacts.
Import DocumentProcessor.
Local Open Scope Z_scope.

Lemma slice_inner {A : Type} (l : list A) (a b : Z) :
  0 <= a <= b -> b <= len l ->
  slice l a b = firstn (Z.to_nat (b - a)) (skipn (Z.to_nat a) l).
Proof.
  intros Hab Hb. unfold slice, clamp_index.
  destruct (Z.ltb_spec a 0); [lia|]. destruct (Z.ltb_spec b 0); [lia|].
  now rewrite !Z.min_l by lia.
Qed.

Lemma len_slice {A : Type} (l : list A) (a b : Z) :
  0 <= a <= b -> b <= len l -> len (slice l a b) = b - a.
Proof.
  intros Hab Hb. rewrite slice_inner by assumption. unfold len in *.
  rewrite length_firstn, length_skipn. lia.
Qed.

Lemma slice_to_end {A : Type} (l : list A) (a : Z) :
  0 <= a <= len l -> slice l a (len l) = skipn (Z.to_nat a) l.
Proof.
  intros Ha. rewrite slice_inner by lia. apply firstn_all2.
  rewrite length_skipn. unfold len. lia.
Qed.

Section Loop.
Context {T : Tokenizer}.
Variable self : processor.

Let cs := chunk_size self.
Let co := chunk_overlap self.

(** The chunks are the decoded windows. *)
Lemma split_loop_windows fuel : forall tokens start windows,
  split_loop self fuel tokens start (map decode windows)
  = option_map (map decode) (window_loop self fuel tokens start windows).
Proof.
  induction fuel as [|fuel IH]; intros tokens start windows; simpl; [reflexivity|].
  destruct (start <? len tokens); [|reflexivity].
  replace (map decode windows ++ [decode (slice tokens start (Z.min (start + chunk_size self) (len tokens)))])
    with (map decode (windows ++ [slice tokens start (Z.min (start + chunk_size self) (len tokens))]))
    by (now rewrite map_app).
  destruct (Z.min (start + chunk_size self) (len tokens) >=? len tokens); [reflexivity|].
  apply IH.
Qed.

(** More fuel does not change a result. *)
Lemma window_loop_mono fuel : forall fuel' tokens start windows r,
  window_loop self fuel tokens start windows = Some r ->
  (fuel <= fuel')%nat ->
  window_loop self fuel' tokens start windows = Some r.
Proof.
  induction fuel as [|fuel IH]; intros fuel' tokens start windows r H Hle; [discriminate|].
  destruct fuel' as [|fuel']; [lia|]. simpl in *.
  destruct (start <? len tokens); [|exact H].
  destruct (Z.min (start + chunk_size self) (len tokens) >=? len tokens); [exact H|].
  apply IH; [exact H | lia].
Qed.

(** With a positive step the loop ends: the distance from [start] to the
    end of the tokens bounds the number of tests. *)
Lemma window_loop_terminates fuel : forall tokens start windows,
  co < cs ->
  (Z.to_nat (len tokens - start) < fuel)%nat ->
  exists r, window_loop self fuel tokens start windows = Some r.
Proof.
  induction fuel as [|fuel IH]; intros tokens start windows Hstep Hfuel; [lia|].
  simpl. destruct (Z.ltb_spec start (len tokens)); [|eauto].
  destruct (Z.min (start + chunk_size self) (len tokens) >=? len tokens); [eauto|].
  apply IH; [exact Hstep|]. subst cs co. lia.
Qed.

(** With a step that is not positive, a loop that starts at or before
    index 0 on a non-empty token list longer than [chunk_size] never
    ends. *)
Lemma window_loop_diverges fuel : forall tokens start windows,
  cs <= co -> cs < len tokens -> 0 < len tokens -> start <= 0 ->
  window_loop self fuel tokens start windows = None.
Proof.
  induction fuel as [|fuel IH]; intros tokens start windows Hstep Hlen Hne Hstart; [reflexivity|].
  simpl. destruct (Z.ltb_spec start (len tokens)); [|lia].
  destruct (Z.geb_spec (Z.min (start + chunk_size self) (len tokens)) (len tokens)).
  - subst cs co. lia.
  - apply IH; subst cs co; lia.
Qed.

(** The invariant of the sliding window, from any start inside the
    tokens: the windows produced from [start] on begin at [start + k * step],
    each is the slice of [chunk_size] tokens (or of what remains), they
    stitch back to the tokens from [start] on, and they cover every index
    from [start] on. *)
Lemma window_loop_spec fuel : forall tokens start acc,
  0 <= co < cs -> 0 <= start < len tokens ->
  (Z.to_nat (len tokens - start) < fuel)%nat ->
  exists w ws,
    window_loop self fuel tokens start acc = Some (acc ++ w :: ws) /\
    (forall k, (k < length (w :: ws))%nat ->
       start + Z.of_nat k * (cs - co) < len tokens /\
       nth k (w :: ws) [] =
         slice tokens (start + Z.of_nat k * (cs - co))
               (Z.min (start + Z.of_nat k * (cs - co) + cs) (len tokens))) /\
    stitch co (w :: ws) = skipn (Z.to_nat start) tokens /\
    (forall i, start <= i < len tokens ->
       exists k, (k < length (w :: ws))%nat /\
         start + Z.of_nat k * (cs - co) <= i
           < start + Z.of_nat k * (cs - co) + len (nth k (w :: ws) [])).
Proof.
  induction fuel as [|fuel IH]; intros tokens start acc Hc Hs Hfuel; [lia|].
  simpl. destruct (Z.ltb_spec start (len tokens)) as [_|]; [|lia].
  fold cs co.
  destruct (Z.geb_spec (Z.min (start + cs) (len tokens)) (len tokens)) as [Hend|Hend].
  - (* the last window *)
    assert (He : Z.min (start + cs) (len tokens) = len tokens) by lia.
    rewrite He.
    exists (slice tokens start (len tokens)), []. split; [reflexivity|].
    split; [|split].
    + intros k Hk. simpl in Hk. assert (k = 0%nat) by lia. subst k.
      replace (start + Z.of_nat 0 * (cs - co)) with start by lia.
      split; [lia|]. simpl. now rewrite He.
    + simpl. rewrite app_nil_r. apply slice_to_end. lia.
    + intros i Hi. exists 0%nat. split; [simpl; lia|].
      simpl nth. rewrite len_slice by lia. lia.
  - (* a full window, and the loop goes on *)
    assert (He : Z.min (start + cs) (len tokens) = start + cs) by lia.
    rewrite He.
    set (w0 := slice tokens start (start + cs)).
    destruct (IH tokens (start + (cs - co)) (acc ++ [w0]) Hc) as (w1 & ws & Hrun & Hnth & Hst & Hcov);
      [lia | lia |].
    exists w0, (w1 :: ws). split; [|split; [|split]].
    + rewrite Hrun, <- app_assoc. reflexivity.
    + intros [|k] Hk.
      * replace (start + Z.of_nat 0 * (cs - co)) with start by lia.
        split; [lia|]. simpl. now rewrite He.
      * destruct (Hnth k) as [Hlt Hk']; [simpl in *; lia|].
        replace (start + Z.of_nat (S k) * (cs - co))
          with (start + (cs - co) + Z.of_nat k * (cs - co)) by lia.
        split; [exact Hlt|]. exact Hk'.
    + (* stitching: the window [w1] starts [co] tokens before [w0] ends *)
      destruct (Hnth 0%nat) as [_ Hw1]; [simpl; lia|].
      simpl nth in Hw1.
      replace (start + (cs - co) + Z.of_nat 0 * (cs - co)) with (start + (cs - co)) in Hw1 by lia.
      assert (Hl1 : co < len w1).
      { rewrite Hw1, len_slice by lia. lia. }
      unfold stitch in *. cbn [flat_map].
      assert (Hsk : skipn (Z.to_nat co) w1 ++ flat_map (skipn (Z.to_nat co)) ws
                    = skipn (Z.to_nat co) (skipn (Z.to_nat (start + (cs - co))) tokens)).
      { rewrite <- Hst, skipn_app.
        replace (Z.to_nat co - length w1)%nat with 0%nat by (unfold len in Hl1; lia).
        reflexivity. }
      rewrite Hsk, skipn_skipn.
      replace (Z.to_nat co + Z.to_nat (start + (cs - co)))%nat
        with (Z.to_nat cs + Z.to_nat start)%nat by lia.
      rewrite <- skipn_skipn. subst w0. rewrite slice_inner by lia.
      replace (start + cs - start) with cs by lia.
      apply firstn_skipn.
    + intros i Hi. destruct (Z.lt_ge_cases i (start + cs)) as [Hin|Hout].
      * exists 0%nat. split; [simpl; lia|]. simpl nth. subst w0.
        rewrite len_slice by lia. lia.
      * destruct (Hcov i) as (k & Hk & Hik); [lia|].
        exists (S k). split; [simpl in *; lia|].
        replace (start + Z.of_nat (S k) * (cs - co))
          with (start + (cs - co) + Z.of_nat k * (cs - co)) by lia.
        exact Hik.
Qed.

End Loop.

Lemma split_text_long (T : Tokenizer) (self : processor) (fuel : nat) (text : str) :
  chunk_size self < len (encode text) ->
  _split_text self fuel text
  = option_map (map decode) (window_loop self fuel (encode text) 0 []).
Proof.
  intros Hlen. unfold _split_text.
  destruct (Z.leb_spec (len (encode text)) (chunk_size self)); [lia|].
  apply (split_loop_windows self fuel (encode text) 0 []).
Qed.

(** C2. A text of more than [chunk_size] tokens, under
    [0 <= chunk_overlap < chunk_size]: [_split_text] returns the decodings
    of windows of which the [k]-th starts at [k * (chunk_size -
    chunk_overlap)] and holds [min(chunk_size, tokens remaining)] tokens;
    every token index lies in a window; the first window followed by the
    later ones without their first [chunk_overlap] tokens is the token
    sequence.  A text of at most [chunk_size] tokens comes back as the one
    chunk [text]. *)
Theorem split_text_windows (T : Tokenizer) (self : processor) (text : str) :
  let tokens := encode text in
  let step := chunk_size self - chunk_overlap self in
  (len tokens <= chunk_size self ->
     forall fuel, _split_text self fuel text = Some [text]) /\
  (0 <= chunk_overlap self < chunk_size self -> chunk_size self < len tokens ->
     exists fuel windows,
       (forall fuel', (fuel <= fuel')%nat ->
          _split_text self fuel' text = Some (map decode windows)) /\
       (forall k, (k < length windows)%nat ->
          nth k windows [] =
            slice tokens (Z.of_nat k * step)
                  (Z.min (Z.of_nat k * step + chunk_size self) (len tokens)) /\
          len (nth k windows []) =
            Z.min (chunk_size self) (len tokens - Z.of_nat k * step)) /\
       (forall i, 0 <= i < len tokens ->
          exists k, (k < length windows)%nat /\
            Z.of_nat k * step <= i < Z.of_nat k * step + len (nth k windows [])) /\
       stitch (chunk_overlap self) windows = tokens).
Proof.
  intros tokens step. split.
  - intros Hle fuel. unfold _split_text. fold tokens.
    destruct (Z.leb_spec (len tokens) (chunk_size self)); [reflexivity | lia].
  - intros Hc Hlen.
    assert (H0 : 0 <= 0 < len tokens) by lia.
    destruct (window_loop_spec self (S (Z.to_nat (len tokens))) tokens 0 [] Hc H0)
      as (w & ws & Hrun & Hnth & Hst & Hcov); [lia|].
    exists (S (Z.to_nat (len tokens))), (w :: ws). split; [|split; [|split]].
    + intros fuel' Hf. rewrite split_text_long by exact Hlen. fold tokens.
      now rewrite (window_loop_mono self _ _ _ _ _ _ Hrun Hf).
    + intros k Hk. destruct (Hnth k Hk) as [Hlt Hk']. fold step in Hlt, Hk'.
      rewrite Z.add_0_l in Hk', Hlt. split; [exact Hk'|].
      assert (0 <= Z.of_nat k * step) by (apply Z.mul_nonneg_nonneg; subst step; lia).
      rewrite Hk', len_slice by lia. lia.
    + intros i Hi. destruct (Hcov i Hi) as (k & Hk & Hik). exists k.
      fold step in Hik. split; [exact Hk | lia].
    + exact Hst.
Qed.

(** C2 at a text of ten tokens, with windows of four overlapping by one. *)
Lemma split_text_windows_witness :
  let self := __init__ 4 1 true in
  let text := u "abcdefghij" in
  (0 <= chunk_overlap self < chunk_size self) /\
  chunk_size self < len (@encode char_tokenizer text) /\
  exists fuel windows,
    @_split_text char_tokenizer self fuel text = Some (map (@decode char_tokenizer) windows) /\
    stitch (chunk_overlap self) windows = @encode char_tokenizer text.
Proof.
  intros self text.
  assert (Hc : 0 <= chunk_overlap self < chunk_size self) by (simpl; lia).
  assert (Hl : chunk_size self < len (@encode char_tokenizer text)) by (vm_compute; reflexivity).
  split; [exact Hc|]. split; [exact Hl|].
  destruct (proj2 (split_text_windows char_tokenizer self text) Hc Hl)
    as (fuel & windows & Hrun & _ & _ & Hst).
  exists fuel, windows. split; [apply Hrun; lia | exact Hst].
Defined.

(** C10 (amended). [_split_text] ends on every text when [chunk_overlap <
    chunk_size]; [__init__] stores any two integers, so nothing enforces
    this; and for a text with at least one token and more than
    [chunk_size] tokens, [_split_text] ends only if [chunk_overlap <
    chunk_size]. *)
Theorem split_text_termination (T : Tokenizer) (self : processor) (text : str) :
  (chunk_overlap self < chunk_size self ->
     exists fuel chunks, forall fuel', (fuel <= fuel')%nat ->
       _split_text self fuel' text = Some chunks) /\
  (forall cs co ocr,
     chunk_size (__init__ cs co ocr) = cs /\ chunk_overlap (__init__ cs co ocr) = co) /\
  (chunk_size self < len (encode text) -> encode text <> [] ->
     (exists fuel, _split_text self fuel text <> None) ->
     chunk_overlap self < chunk_size self).
Proof.
  split; [|split].
  - intros Hstep.
    destruct (Z.leb_spec (len (encode text)) (chunk_size self)) as [Hle|Hgt].
    + exists 0%nat, [text]. intros fuel' _. unfold _split_text.
      destruct (Z.leb_spec (len (encode text)) (chunk_size self)); [reflexivity | lia].
    + destruct (window_loop_terminates self (S (Z.to_nat (len (encode text))))
                  (encode text) 0 [] Hstep) as [r Hr]; [lia|].
      exists (S (Z.to_nat (len (encode text)))), (map decode r). intros fuel' Hf.
      rewrite split_text_long by exact Hgt.
      now rewrite (window_loop_mono self _ _ _ _ _ _ Hr Hf).
  - intros cs co ocr. split; reflexivity.
  - intros Hlen Hne [fuel Hrun].
    destruct (Z.lt_ge_cases (chunk_overlap self) (chunk_size self)) as [Hlt|Hge]; [exact Hlt|].
    exfalso. apply Hrun. rewrite split_text_long by exact Hlen.
    rewrite window_loop_diverges; [reflexivity | lia | exact Hlen | | lia].
    destruct (encode text); [congruence | unfold len; simpl; lia].
Qed.

(** C10 at the default sizes and at equal sizes: the default processor
    ends on a text of 600 tokens, and there a terminating run shows the
    overlap to be below the size. *)
Lemma split_text_termination_witness :
  let self := default_processor in
  let text := repeat 97%N 600 in
  (exists fuel chunks, forall fuel', (fuel <= fuel')%nat ->
     @_split_text char_tokenizer self fuel' text = Some chunks) /\
  chunk_overlap self < chunk_size self.
Proof.
  intros self text.
  pose proof (split_text_termination char_tokenizer self text) as (Hterm & _ & Hnec).
  assert (Hstep : chunk_overlap self < chunk_size self) by (simpl; lia).
  split; [exact (Hterm Hstep)|].
  apply Hnec.
  - vm_compute. reflexivity.
  - discriminate.
  - destruct (Hterm Hstep) as (fuel & chunks & Hrun). exists fuel.
    rewrite (Hrun fuel) by lia. discriminate.
Defined.

(** C10 as stated fails where [chunk_size] is negative: the empty text has
    more tokens (none) than [chunk_size = -1], the loop body never runs and
    [_split_text] returns the empty list, although [chunk_overlap = 0] is
    not below [chunk_size]. *)
Lemma split_text_negative_size_terminates :
  let self := __init__ (-1) 0 true in
  chunk_size self < len (@encode char_tokenizer []) /\
  @_split_text char_tokenizer self 1 [] = Some [] /\
  ~ chunk_overlap self < chunk_size self.
Proof.
  intros self. split; [|split].
  - vm_compute. reflexivity.
  - reflexivity.
  - simpl. lia.
Qed.

End ChunkerFacts.

Module ExtractorFacts.
Import DocumentProcessor.

Lemma set_of_In (xs : list str) (x : str) : In x (set_of xs) -> In x xs.
Proof.
  induction xs as [|y xs IH]; simpl; [tauto|].
  intros [->|H]; [now left|]. apply filter_In in H. right. apply IH, H.
Qed.

Lemma set_of_complete (xs : list str) (x : str) : In x xs -> In x (set_of xs).
Proof.
  induction xs as [|y xs IH]; [intros []|]. cbn [set_of]. intros [->|H]; [now left|].
  destruct (str_eqb y x) eqn:E.
  - left. revert E. clear. revert x. induction y as [|a y IHy]; intros [|c x] E;
      try discriminate; [reflexivity|]. cbn [str_eqb] in E.
    apply andb_true_iff in E. destruct E as [E1 E2]. apply N.eqb_eq in E1. subst.
    f_equal. now apply IHy.
  - right. apply filter_In. split; [now apply IH | now rewrite E].
Qed.

Lemma str_eqb_refl (x : str) : str_eqb x x = true.
Proof.
  induction x as [|c x IH]; [reflexivity|]. cbn [str_eqb]. unfold char_eqb.
  now rewrite N.eqb_refl, IH.
Qed.

Lemma set_of_NoDup (xs : list str) : NoDup (set_of xs).
Proof.
  induction xs as [|y xs IH]; [constructor|]. cbn [set_of]. constructor.
  - intros H. apply filter_In in H. destruct H as [_ H]. now rewrite str_eqb_refl in H.
  - now apply NoDup_filter.
Qed.

(** C4 (amended). Whatever the text, the [AMOUNTS] line of the report of
    [UtilityBillProcessor._extract_bill_info] lists exactly the distinct
    matches of the amounts pattern that [float] reads, without their [$]
    and commas, as a number between 10 and 2000; no other line of the
    report begins with [AMOUNTS: ].  [_is_reasonable_bill_amount] accepts
    ["$123.45"] and rejects ["$5.00"] and ["$9999.99"].  The summary of the
    chunker, [DocumentProcessor._extract_bill_info], filters nothing: where
    its pattern matches, the block [AMOUNTS FOUND:] lists every distinct
    match. *)
Theorem listed_amounts_in_range (U : Unicode) :
  (forall text source,
     exists amounts others,
       (UtilityBillProcessor._extract_bill_info text source = [] \/
        UtilityBillProcessor._extract_bill_info text source
        = u "=== " ++ source ++ u " ===" ++ nl
          ++ join nl (match amounts with
                      | [] => others
                      | _ => (u "AMOUNTS: " ++ join (u ", ") amounts) :: others
                      end)) /\
       Forall (fun line => startswith (u "AMOUNTS: ") line = false) others /\
       NoDup amounts /\
       forall amount,
         In amount amounts <->
         In amount (Re.findall UtilityBillProcessor.pattern_amounts text) /\
         exists value,
           float_ (replace 44%N [] (replace 36%N [] amount)) = Some (Finite value) /\
           (10 <= value)%Q /\ (value <= 2000)%Q) /\
  (forall text,
     Re.findall dollar_shape text <> [] ->
     exists listed others,
       DocumentProcessor._extract_bill_info text
       = u "=== EXTRACTED UTILITY BILL INFORMATION ===" ++ nl
         ++ join nl ((u "AMOUNTS FOUND:" :: map (fun amount => u "  " ++ amount) listed)
                     ++ others) /\
       NoDup listed /\
       forall amount, In amount listed <-> In amount (Re.findall dollar_shape text)) /\
  UtilityBillProcessor._is_reasonable_bill_amount (u "$123.45") = true /\
  UtilityBillProcessor._is_reasonable_bill_amount (u "$5.00") = false /\
  UtilityBillProcessor._is_reasonable_bill_amount (u "$9999.99") = false.
Proof.
  split; [|split; [|repeat split; vm_compute; reflexivity]].
  - intros text source.
    exists (UtilityBillProcessor.reasonable_amounts text).
    set (others :=
           UtilityBillProcessor.line (u "DATES: ") (UtilityBillProcessor.valid_dates text)
           ++ UtilityBillProcessor.line (u "ELECTRICITY USAGE: ")
                (set_of (Re.findall UtilityBillProcessor.pattern_kwh text))
           ++ UtilityBillProcessor.line (u "GAS USAGE: ")
                (set_of (Re.findall UtilityBillProcessor.pattern_therms text))
           ++ UtilityBillProcessor.line (u "ACCOUNT: ")
                (set_of (Re.findall_group UtilityBillProcessor.pattern_account text))
           ++ UtilityBillProcessor.line (u "SERVICE PERIOD: ")
                (map (fun '(start, end_) =>
                        match end_ with [] => start | _ => start ++ u " to " ++ end_ end)
                     (Re.findall_pairs UtilityBillProcessor.pattern_service_period text))).
    exists others. split; [|split; [|split]].
    + unfold UtilityBillProcessor._extract_bill_info.
      destruct (match text with [] => true | _ => (len (strip text) <? 10)%Z end);
        [now left|].
      fold others. unfold UtilityBillProcessor.line at 1.
      destruct (UtilityBillProcessor.reasonable_amounts text) as [|a rest] eqn:E.
      * cbn [app]. destruct others; [now left | right; reflexivity].
      * right. reflexivity.
    + subst others. unfold UtilityBillProcessor.line.
      repeat (apply Forall_app; split);
        match goal with
        | |- Forall _ (match ?items with [] => _ | _ => _ end) =>
            destruct items; constructor; [reflexivity | constructor]
        end.
    + unfold UtilityBillProcessor.reasonable_amounts. apply NoDup_filter, set_of_NoDup.
    + intros amount. unfold UtilityBillProcessor.reasonable_amounts.
      rewrite filter_In. unfold UtilityBillProcessor._is_reasonable_bill_amount. split.
      * intros [Hin Hok]. split; [now apply set_of_In|].
        destruct (float_ _) as [[value| |]|]; try discriminate.
        apply andb_true_iff in Hok. destruct Hok as [H1 H2].
        exists value. split; [reflexivity|]. split; now apply Qle_bool_iff.
      * intros (Hin & value & -> & H1 & H2). split; [now apply set_of_complete|].
        apply andb_true_iff. split; now apply Qle_bool_iff.
  - intros text Hfound. exists (set_of (Re.findall dollar_shape text)).
    unfold DocumentProcessor._extract_bill_info. unfold listing at 1.
    destruct (Re.findall dollar_shape text) as [|a rest] eqn:E; [congruence|].
    eexists. split; [|split].
    + cbn [app]. reflexivity.
    + apply set_of_NoDup.
    + intros amount. split; [apply set_of_In | apply set_of_complete].
Qed.

(** C4 as stated fails for the chunker's summary: on the text ["$5.00"]
    it lists [$5.00] under [AMOUNTS FOUND], an amount below 10. *)
Lemma chunker_summary_lists_small_amount :
  @_extract_bill_info ascii_only (u "$5.00")
  = u "=== EXTRACTED UTILITY BILL INFORMATION ===" ++ nl
    ++ u "AMOUNTS FOUND:" ++ nl ++ u "  $5.00"
  /\ exists value,
       @float_ ascii_only (replace 44%N [] (replace 36%N [] (u "$5.00"))) = Some (Finite value)
       /\ (value == 5)%Q /\ ~ (10 <= value)%Q.
Proof.
  split; [vm_compute; reflexivity|]. eexists. split; [vm_compute; reflexivity|].
  split; [reflexivity|]. intros H. apply Qle_bool_iff in H. vm_compute in H. discriminate.
Qed.

End ExtractorFacts.

Module ChunkFacts.
Import DocumentProcessor.
Local Open Scope Z_scope.

(** C1, where the code departs from it.  A document named [bill.txt]
    whose text holds an amount gets a structured-info chunk and one text
    chunk, and both carry [chunk_id = 0] and [total_chunks = 1]: the offset
    of lines 437-438 looks for ["pge"] alone, not for ["bill"].  Named
    [pge-bill.txt], the same text gets the text chunk [chunk_id = 1] and
    [total_chunks = 2], but the structured-info chunk keeps the
    [total_chunks = 1] of line 425. *)
Theorem chunk_documents_bill_numbering :
  let text := u "Account 12345678 Total $150.00 due 03/01/2025, usage 450 kWh" in
  let info := @_extract_bill_info ascii_only text in
  let doc name := {| doc_content := text; doc_source := u "docs/" ++ name; doc_filename := name |} in
  let chunk_of name id total kind body :=
    {| content := body; source := u "docs/" ++ name; filename := name;
       chunk_id := id; total_chunks := total; type := kind |} in
  info <> [] /\
  @chunk_documents ascii_only char_tokenizer default_processor 0 [doc (u "bill.txt")]
  = Some [ chunk_of (u "bill.txt") 0 1 structured_bill_info info;
           chunk_of (u "bill.txt") 0 1 text_chunk text ] /\
  @chunk_documents ascii_only char_tokenizer default_processor 0 [doc (u "pge-bill.txt")]
  = Some [ chunk_of (u "pge-bill.txt") 0 1 structured_bill_info info;
           chunk_of (u "pge-bill.txt") 1 2 text_chunk text ].
Proof.
  split; [|split].
  - vm_compute. discriminate.
  - vm_compute. reflexivity.
  - vm_compute. reflexivity.
Qed.

End ChunkFacts.

Module OrchestratorFacts.
Import DocumentProcessor.
Local Open Scope Z_scope.

Section Facts.
Context {U : Unicode} {B : Backends}.
Variable self : processor.

Lemma extract_pdf_bill_ocr (file_path : Path) (ocr_text : str) :
  _is_utility_bill (name file_path) = true -> use_ocr self = true ->
  ocr_outcome file_path = Ok ocr_text ->
  _extract_pdf self file_path []
  = if len (strip ocr_text) >? 50 then ([OCR], Ok (_clean_text ocr_text))
    else try_except (standard_methods self file_path) (fun _ => ret []) [OCR].
Proof.
  intros Hbill Hocr Hout.
  unfold _extract_pdf, _extract_pdf_try, bill_ocr_step, try_except, bind.
  rewrite Hbill, Hocr. unfold _extract_pdf_ocr, call. rewrite Hout. cbn [app].
  destruct (len (strip ocr_text) >? 50); reflexivity.
Qed.

(** The standard methods start with pdfplumber. *)
Lemma standard_methods_log (file_path : Path) (log : list strategy) :
  exists log', fst (try_except (standard_methods self file_path) (fun _ => ret []) log)
               = log ++ PdfPlumber :: log'.
Proof.
  unfold try_except, standard_methods, bind, _extract_pdf_pdfplumber, call.
  destruct (pdfplumber_outcome file_path) as [text|e]; [|now exists []].
  destruct (len (strip text) >? 200); [now exists []|].
  unfold _extract_pdf_pymupdf, _extract_pdf_ocr, call.
  destruct (pymupdf_outcome file_path) as [pymupdf_text|e].
  - match goal with
    | |- context [if ?c then _ else ret _] => destruct c
    end.
    + destruct (ocr_outcome file_path) as [ocr_text|e]; unfold ret; cbn;
        rewrite <- !app_assoc; eexists; reflexivity.
    + unfold ret; cbn. rewrite <- !app_assoc. eexists; reflexivity.
  - cbn. rewrite <- !app_assoc. eexists; reflexivity.
Qed.

End Facts.

(** C3 (amended). For a file classified as a utility bill, with OCR
    enabled and an OCR run that returns [ocr_text]: [_extract_pdf] runs the
    OCR extractor first, and returns the normalized OCR text without
    calling another extractor exactly when [ocr_text], stripped of leading
    and trailing whitespace and not yet normalized, has more than 50
    characters; otherwise it goes on with the standard methods, pdfplumber
    first. *)
Theorem bill_ocr_accepted_by_stripped_length
  (U : Unicode) (B : Backends) (self : processor) (file_path : Path) (ocr_text : str) :
  _is_utility_bill (name file_path) = true -> use_ocr self = true ->
  ocr_outcome file_path = Ok ocr_text ->
  (50 < len (strip ocr_text) ->
     _extract_pdf self file_path [] = ([OCR], Ok (_clean_text ocr_text))) /\
  (len (strip ocr_text) <= 50 ->
     _extract_pdf self file_path []
       = try_except (standard_methods self file_path) (fun _ => ret []) [OCR] /\
     exists log, fst (_extract_pdf self file_path []) = OCR :: PdfPlumber :: log).
Proof.
  intros Hbill Hocr Hout.
  pose proof (extract_pdf_bill_ocr self file_path ocr_text Hbill Hocr Hout) as E.
  split; intros Hlen.
  - rewrite E. destruct (Z.gtb_spec (len (strip ocr_text)) 50); [reflexivity | lia].
  - destruct (Z.gtb_spec (len (strip ocr_text)) 50); [lia|]. split; [exact E|].
    rewrite E. destruct (standard_methods_log self file_path [OCR]) as [log' Hlog].
    exists log'. exact Hlog.
Qed.

(** C3 at a scanned bill: its OCR text has 70 characters once stripped,
    and is accepted. *)
Lemma bill_ocr_accepted_witness :
  @_extract_pdf ascii_only sparse_scan default_processor pge_may_2025 []
  = ([OCR], Ok (@_clean_text ascii_only sparse_scan_text)).
Proof.
  assert (H1 : @_is_utility_bill ascii_only (name pge_may_2025) = true)
    by (vm_compute; reflexivity).
  assert (H2 : use_ocr default_processor = true) by reflexivity.
  assert (H3 : @ocr_outcome sparse_scan pge_may_2025 = Ok sparse_scan_text) by reflexivity.
  assert (H4 : 50 < len (strip sparse_scan_text)) by (vm_compute; reflexivity).
  exact (proj1 (bill_ocr_accepted_by_stripped_length ascii_only sparse_scan
                  default_processor pge_may_2025 sparse_scan_text H1 H2 H3) H4).
Defined.

(** C3 as stated fails: the OCR text of this scanned bill has 31
    characters after normalization, not more than 50, and [_extract_pdf]
    accepts it all the same, calling no other extractor. *)
Lemma bill_ocr_accepted_though_normalized_short :
  len (@_clean_text ascii_only sparse_scan_text) = 31 /\
  @_extract_pdf ascii_only sparse_scan default_processor pge_may_2025 []
  = ([OCR], Ok (@_clean_text ascii_only sparse_scan_text)).
Proof. split; vm_compute; reflexivity. Qed.

End OrchestratorFacts.

(** ** The messages of the orchestrator *)

Module ConsoleFacts.
Import DocumentProcessor Console.
Local Open Scope Z_scope.

(** *** What a computation appends, and what it returns *)

Section Rules.
Variable good : document -> Prop.

Lemma appends_weaken {A : Type} (n k : nat) (m : IO A) :
  (n <= k)%nat -> appends good n m -> appends good k m.
Proof.
  intros Hn Hm w w' r E. destruct (Hm w w' r E) as (added & Hd & Hl & Hg).
  exists added. split; [exact Hd|]. split; [lia | exact Hg].
Qed.

Lemma appends_ret {A : Type} (a : A) : appends good 0 (ret a).
Proof.
  intros w w' r E. injection E as <- _. exists []. rewrite app_nil_r. auto.
Qed.

Lemma appends_raise {A : Type} (e : exn) : appends good 0 (@raise A e).
Proof.
  intros w w' r E. injection E as <- _. exists []. rewrite app_nil_r. auto.
Qed.

Lemma appends_outcome {A : Type} (r0 : result A) : appends good 0 (outcome r0).
Proof.
  intros w w' r E. injection E as <- _. exists []. rewrite app_nil_r. auto.
Qed.

Lemma appends_print (C : Stdout) (msg : str) : appends good 0 (print msg).
Proof. apply appends_outcome. Qed.

Lemma appends_lift {A : Type} (m : M A) : appends good 0 (lift m).
Proof.
  intros w w' r E. unfold lift in E. destruct (m (calls w)) as [log r0].
  injection E as <- _. exists []. cbn [documents]. rewrite app_nil_r. auto.
Qed.

Lemma appends_append (doc : document) : good doc -> appends good 1 (append doc).
Proof.
  intros Hdoc w w' r E. injection E as <- _. exists [doc]. cbn [documents]. auto.
Qed.

Lemma appends_bind_post {A B : Type} (Q : A -> Prop) (n k : nat) (m : IO A) (f : A -> IO B) :
  returns Q m -> appends good n m -> (forall a, Q a -> appends good k (f a)) ->
  appends good (n + k) (bind m f).
Proof.
  intros HQ Hm Hf w w' r E. unfold bind in E.
  destruct (m w) as [w1 [a|e]] eqn:Em.
  - destruct (Hm _ _ _ Em) as (added1 & Hd1 & Hl1 & Hg1).
    destruct (Hf a (HQ _ _ _ Em) _ _ _ E) as (added2 & Hd2 & Hl2 & Hg2).
    exists (added1 ++ added2). rewrite Hd2, Hd1, app_assoc. split; [reflexivity|].
    split; [rewrite length_app; lia | now apply Forall_app].
  - injection E as <- _. destruct (Hm _ _ _ Em) as (added1 & Hd1 & Hl1 & Hg1).
    exists added1. split; [exact Hd1|]. split; [lia | exact Hg1].
Qed.

Lemma appends_bind {A B : Type} (n k : nat) (m : IO A) (f : A -> IO B) :
  appends good n m -> (forall a, appends good k (f a)) ->
  appends good (n + k) (bind m f).
Proof.
  intros Hm Hf. apply (appends_bind_post (fun _ => True)); [now intros ? ? ? _ | exact Hm|].
  intros a _. apply Hf.
Qed.

Lemma appends_try {A : Type} (n k : nat) (body : IO A) (handler : exn -> IO A) :
  appends good n body -> (forall e, appends good k (handler e)) ->
  appends good (n + k) (try_except body handler).
Proof.
  intros Hb Hh w w' r E. unfold try_except in E.
  destruct (body w) as [w1 [a|e]] eqn:Eb.
  - injection E as <- _. destruct (Hb _ _ _ Eb) as (added1 & Hd1 & Hl1 & Hg1).
    exists added1. split; [exact Hd1|]. split; [lia | exact Hg1].
  - destruct (Hb _ _ _ Eb) as (added1 & Hd1 & Hl1 & Hg1).
    destruct (Hh e _ _ _ E) as (added2 & Hd2 & Hl2 & Hg2).
    exists (added1 ++ added2). rewrite Hd2, Hd1, app_assoc. split; [reflexivity|].
    split; [rewrite length_app; lia | now apply Forall_app].
Qed.

End Rules.

Lemma returns_ret {A : Type} (P : A -> Prop) (a : A) : P a -> returns P (ret a).
Proof. intros Ha w w' a' E. now injection E as _ <-. Qed.

Lemma returns_bind {A B : Type} (P : B -> Prop) (m : IO A) (f : A -> IO B) :
  (forall a, returns P (f a)) -> returns P (bind m f).
Proof.
  intros Hf w w' b E. unfold bind in E. destruct (m w) as [w1 [a|e]]; [|discriminate].
  exact (Hf a _ _ _ E).
Qed.

Lemma returns_try {A : Type} (P : A -> Prop) (body : IO A) (handler : exn -> IO A) :
  returns P body -> (forall e, returns P (handler e)) -> returns P (try_except body handler).
Proof.
  intros Hb Hh w w' a E. unfold try_except in E.
  destruct (body w) as [w1 [a1|e]] eqn:Eb.
  - injection E as _ <-. exact (Hb _ _ _ Eb).
  - exact (Hh e _ _ _ E).
Qed.

(** Building the goals of the rules: a sequence of steps none of which
    appends, and what a sequence returns at its end. *)
Ltac appends_nothing :=
  repeat first
    [ apply appends_ret | apply appends_raise | apply appends_print
    | apply appends_lift | apply appends_outcome
    | apply (appends_bind _ 0 0); [|intros ?]
    | apply (appends_try _ 0 0); [|intros ?]
    | match goal with
      | |- appends _ _ (if ?c then _ else _) => destruct c
      | |- appends _ _ (match ?x with Some _ => _ | None => _ end) => destruct x
      | |- appends _ _ (let _ := _ in _) => cbv zeta
      end ].

Ltac returns_at_end :=
  repeat first
    [ apply returns_bind; intros ?
    | match goal with
      | |- returns _ (if ?c then _ else _) => destruct c
      | |- returns _ (match ?x with Some _ => _ | None => _ end) => destruct x
      | |- returns _ (let _ := _ in _) => cbv zeta
      end ].

Section Orchestrator.
Context {U : Unicode} {B : Backends} {C : Stdout}.
Variable self : processor.
Variable good : document -> Prop.

Lemma extract_pdf_appends (file_path : Path) :
  appends good 0 (Console._extract_pdf self file_path).
Proof.
  unfold Console._extract_pdf, Console._extract_pdf_try, Console.bill_ocr_step,
    Console.standard_methods.
  appends_nothing.
Qed.

End Orchestrator.

Section Quiet.
Context {U : Unicode} {B : Backends} {C : Stdout}.
Variable self : processor.
Hypothesis takes_all : forall msg, write msg = Ok tt.

(** On a stream that takes every message, [_extract_pdf] is the function
    without its messages. *)
Lemma extract_pdf_quiet (file_path : Path) (w : world) :
  Console._extract_pdf self file_path w
  = ({| calls := fst (DocumentProcessor._extract_pdf self file_path (calls w));
        documents := documents w |},
     snd (DocumentProcessor._extract_pdf self file_path (calls w))).
Proof.
  unfold Console._extract_pdf, Console._extract_pdf_try, Console.bill_ocr_step,
    Console.standard_methods, Console.try_except, Console.bind, Console.ret,
    print, outcome, lift.
  unfold DocumentProcessor._extract_pdf, DocumentProcessor._extract_pdf_try,
    DocumentProcessor.bill_ocr_step, DocumentProcessor.standard_methods,
    DocumentProcessor.try_except, DocumentProcessor.bind, DocumentProcessor.ret,
    _extract_pdf_ocr, _extract_pdf_pdfplumber, _extract_pdf_pymupdf, call.
  rewrite !takes_all. destruct w as [log docs]. cbn [calls documents].
  destruct (_is_utility_bill (name file_path)); destruct (use_ocr self);
    rewrite ?takes_all; cbn [calls documents];
    destruct (ocr_outcome file_path) as [ocr_text|e1];
    destruct (pdfplumber_outcome file_path) as [text|e2];
    destruct (pymupdf_outcome file_path) as [pymupdf_text|e3];
    repeat first
      [ progress (rewrite ?takes_all, ?andb_false_r, ?andb_true_r;
                  cbn [calls documents negb andb fst snd])
      | match goal with
        | |- context [if ?c then _ else _] =>
            lazymatch c with
            | true => fail
            | false => fail
            | _ => destruct c
            end
        end ];
    reflexivity.
Qed.

End Quiet.

(** [_extract_pdf] catches every exception of its [try] block, raised
    by an extractor or by a progress message: it then writes
    its error report (line 113) and returns the empty string, and what the
    block returns it returns.  It raises only when writing that report
    raises.  For a PDF file whose extraction is empty, [load_documents]
    appends no document.  On a standard output that takes every message,
    [_extract_pdf] is [DocumentProcessor._extract_pdf], which always
    returns a string. *)
Theorem extract_pdf_reports
  (U : Unicode) (B : Backends) (C : Stdout) (self : processor) (file_path : Path)
  (w : world) :
  (forall w' text,
     Console._extract_pdf_try self file_path w = (w', Ok text) ->
     Console._extract_pdf self file_path w = (w', Ok text)) /\
  (forall w' e,
     Console._extract_pdf_try self file_path w = (w', Raise e) ->
     Console._extract_pdf self file_path w
     = (w', match write (extraction_report file_path e) with
            | Ok _ => Ok []
            | Raise e' => Raise e'
            end)) /\
  (forall e',
     snd (Console._extract_pdf self file_path w) = Raise e' ->
     exists e,
       snd (Console._extract_pdf_try self file_path w) = Raise e /\
       write (extraction_report file_path e) = Raise e') /\
  (lower (suffix file_path) = u ".pdf" ->
   snd (Console._extract_pdf self file_path w) = Ok [] ->
   documents (fst (Console.load_document self file_path w)) = documents w) /\
  ((forall msg, write msg = Ok tt) ->
   Console._extract_pdf self file_path w
   = ({| calls := fst (DocumentProcessor._extract_pdf self file_path (calls w));
         documents := documents w |},
      snd (DocumentProcessor._extract_pdf self file_path (calls w))) /\
   exists text, snd (Console._extract_pdf self file_path w) = Ok text).
Proof.
  assert (Hok : forall w' text,
            Console._extract_pdf_try self file_path w = (w', Ok text) ->
            Console._extract_pdf self file_path w = (w', Ok text)).
  { intros w' text E. unfold Console._extract_pdf, Console.try_except. now rewrite E. }
  assert (Hraise : forall w' e,
            Console._extract_pdf_try self file_path w = (w', Raise e) ->
            Console._extract_pdf self file_path w
            = (w', match write (extraction_report file_path e) with
                   | Ok _ => Ok []
                   | Raise e' => Raise e'
                   end)).
  { intros w' e E. unfold Console._extract_pdf, Console.try_except. rewrite E.
    unfold Console.bind, print, outcome, Console.ret.
    destruct (write (extraction_report file_path e)); reflexivity. }
  split; [exact Hok|]. split; [exact Hraise|]. split; [|split].
  - intros e' He'.
    destruct (Console._extract_pdf_try self file_path w) as [w' [text|e]] eqn:E.
    + rewrite (Hok _ _ eq_refl) in He'. discriminate.
    + rewrite (Hraise _ _ eq_refl) in He'. cbn [snd] in *. exists e. split; [reflexivity|].
      destruct (write (extraction_report file_path e)); [discriminate|].
      injection He' as ->. reflexivity.
  - intros Hpdf Hempty. unfold Console.load_document. rewrite Hpdf.
    replace (str_eqb (u ".pdf") (u ".pdf")) with true by reflexivity.
    unfold Console.try_except, Console.bind, Console.ret, print, outcome.
    destruct (write (u "Processing PDF: " ++ name file_path)).
    + pose proof (extract_pdf_appends self (fun _ => True) file_path w) as Hsame.
      destruct (Console._extract_pdf self file_path w) as [w1 r] eqn:E.
      destruct (Hsame _ _ eq_refl) as (added & Hd & Hl & _).
      destruct added; [|simpl in Hl; lia]. rewrite app_nil_r in Hd.
      cbn [snd] in Hempty. subst r.
      destruct (write (ballot_x ++ _)); [exact Hd|].
      destruct (write (processing_report file_path e)); exact Hd.
    + destruct (write (processing_report file_path e)); reflexivity.
  - intros Hquiet. pose proof (extract_pdf_quiet self Hquiet file_path w) as E.
    split; [exact E|]. rewrite E. cbn [snd].
    unfold DocumentProcessor._extract_pdf, DocumentProcessor.try_except.
    destruct (DocumentProcessor._extract_pdf_try self file_path (calls w)) as [log [text|e]];
      cbn; eauto.
Qed.

(** On a strict UTF-8 output, at a PDF file with a plain path on which
    every extractor raises: the error is reported and the empty string
    returned. *)
Lemma extract_pdf_reports_witness :
  @Console._extract_pdf ascii_only failing strict_utf8 default_processor pge_may_2025
    nothing_yet
  = ({| calls := [OCR]; documents := [] |}, Ok []).
Proof.
  assert (H : @Console._extract_pdf_try ascii_only failing strict_utf8 default_processor
                pge_may_2025 nothing_yet
              = ({| calls := [OCR]; documents := [] |}, Raise (Exception (u "cannot open"))))
    by (vm_compute; reflexivity).
  exact (proj1 (proj2 (extract_pdf_reports ascii_only failing strict_utf8 default_processor
                         pge_may_2025 nothing_yet)) _ _ H).
Defined.

(** C6, where the code departs from it.  A PDF file that no extractor can
    open, in a folder whose name holds a byte that is no UTF-8, on a strict
    UTF-8 output.  The file is no utility bill, so pdfplumber is called
    first; it raises inside the [try] block; the handler writes its report
    (line 113), which names the path, and the [UnicodeEncodeError] of that
    [print] leaves [_extract_pdf].  The caller does not take the document
    as empty: the handler of [load_documents] reports the path too (line
    57), and [load_documents] raises.  On an output that takes the report,
    the same call returns the empty string. *)
Theorem extract_pdf_raises_reporting :
  @_is_utility_bill ascii_only (name mangled_pdf) = false /\
  @Console._extract_pdf_try ascii_only failing strict_utf8 default_processor mangled_pdf
    nothing_yet
  = ({| calls := [PdfPlumber]; documents := [] |}, Raise (Exception (u "cannot open"))) /\
  @write strict_utf8 (extraction_report mangled_pdf (Exception (u "cannot open")))
  = Raise (Exception (u "UnicodeEncodeError: surrogates not allowed")) /\
  @Console._extract_pdf ascii_only failing strict_utf8 default_processor mangled_pdf
    nothing_yet
  = ({| calls := [PdfPlumber]; documents := [] |},
     Raise (Exception (u "UnicodeEncodeError: surrogates not allowed"))) /\
  snd (@Console.load_documents ascii_only failing strict_utf8 default_processor
         [ {| entry_path := mangled_pdf; is_file := Ok true |} ] None nothing_yet)
  = Raise (Exception (u "UnicodeEncodeError: surrogates not allowed")) /\
  @Console._extract_pdf ascii_only failing quiet default_processor mangled_pdf nothing_yet
  = ({| calls := [PdfPlumber]; documents := [] |}, Ok []).
Proof.
  split; [vm_compute; reflexivity|].
  split; [vm_compute; reflexivity|].
  split; [vm_compute; reflexivity|].
  split; [vm_compute; reflexivity|].
  split; vm_compute; reflexivity.
Qed.

End ConsoleFacts.


(** ** The matcher *)

Module ReFacts.
Import Re.

(** Every state the matcher reaches stands at a suffix of the text it
    started from. *)
Lemma rep_from_consumes step lo hi greedy :
  consumes step -> forall fuel n, consumes (rep_from step lo hi greedy fuel n).
Proof.
  intros Hstep fuel. induction fuel as [|fuel IH]; intros n st st' Hin.
  - simpl in Hin. destruct (Nat.leb lo n); [|contradiction].
    destruct Hin as [<-|[]]. now exists [].
  - cbn [rep_from] in Hin.
    assert (Hstop : In st' (if Nat.leb lo n then [st] else []) ->
                    exists consumed, rest st = consumed ++ rest st').
    { destruct (Nat.leb lo n); [|contradiction]. intros [<-|[]]. now exists []. }
    assert (Hagain : In st'
              (if below hi n
               then flat_map (fun st1 =>
                       if Nat.ltb (length (rest st1)) (length (rest st))
                       then rep_from step lo hi greedy fuel (S n) st1 else []) (step st)
               else []) ->
              exists consumed, rest st = consumed ++ rest st').
    { destruct (below hi n); [|contradiction]. intros H.
      apply in_flat_map in H. destruct H as (st1 & H1 & H2).
      destruct (Nat.ltb (length (rest st1)) (length (rest st))); [|contradiction].
      destruct (Hstep _ _ H1) as [c1 E1]. destruct (IH _ _ _ H2) as [c2 E2].
      exists (c1 ++ c2). now rewrite E1, E2, app_assoc. }
    destruct greedy; apply in_app_or in Hin; destruct Hin; auto.
Qed.

Lemma run_consumes (r : regex) : consumes (run r).
Proof.
  induction r as [p| |r1 IH1 r2 IH2|r1 IH1 r2 IH2|r0 IH lo hi greedy|w|i r0 IH];
    intros st st' Hin; cbn [run] in Hin.
  - destruct (rest st) as [|c t] eqn:E; [contradiction|].
    destruct (p c); [|contradiction]. destruct Hin as [<-|[]]. now exists [c].
  - destruct Hin as [<-|[]]. now exists [].
  - apply in_flat_map in Hin. destruct Hin as (st1 & H1 & H2).
    destruct (IH1 _ _ H1) as [c1 E1]. destruct (IH2 _ _ H2) as [c2 E2].
    exists (c1 ++ c2). now rewrite E1, E2, app_assoc.
  - apply in_app_or in Hin. destruct Hin as [H|H]; [apply (IH1 _ _ H) | apply (IH2 _ _ H)].
  - exact (rep_from_consumes (run r0) lo hi greedy IH _ _ _ _ Hin).
  - destruct (at_boundary w st); [|contradiction]. destruct Hin as [<-|[]]. now exists [].
  - apply in_map_iff in Hin. destruct Hin as (st1 & <- & H1).
    destruct (IH _ _ H1) as [c1 E1]. exists c1. exact E1.
Qed.

(** One step of the scan, by cases on the first match. *)
Lemma scan_step (r : regex) (fuel : nat) (pv : option char) (s : str) :
  (run r {| prev := pv; rest := s; groups := [] |} = [] /\
   scan r (S fuel) pv s
   = match s with [] => [] | c :: t => Lit c :: scan r fuel (Some c) t end)
  \/ (exists st' tl, run r {| prev := pv; rest := s; groups := [] |} = st' :: tl /\
        rest st' = s /\
        scan r (S fuel) pv s
        = Hit [] (groups st')
            :: match s with [] => [] | c :: t => Lit c :: scan r fuel (Some c) t end)
  \/ (exists st' tl c consumed,
        run r {| prev := pv; rest := s; groups := [] |} = st' :: tl /\
        s = (c :: consumed) ++ rest st' /\
        scan r (S fuel) pv s
        = Hit (c :: consumed) (groups st') :: scan r fuel (prev st') (rest st')).
Proof.
  cbn [scan].
  destruct (run r {| prev := pv; rest := s; groups := [] |}) as [|st' tl] eqn:E.
  - left. split; reflexivity.
  - right.
    destruct (run_consumes r {| prev := pv; rest := s; groups := [] |} st') as [consumed Hc].
    { rewrite E. now left. }
    cbn [rest] in Hc. destruct consumed as [|c consumed].
    + left. exists st', tl. simpl in Hc. split; [reflexivity|]. split; [now symmetry|].
      rewrite <- Hc, Nat.sub_diag. reflexivity.
    + right. exists st', tl, c, consumed. split; [reflexivity|]. split; [exact Hc|].
      assert (Hn : (length s - length (rest st'))%nat = S (length consumed)).
      { pose proof (f_equal (@length _) Hc) as Hl.
        rewrite length_app in Hl. cbn [length] in Hl. lia. }
      rewrite Hn. f_equal. f_equal.
      rewrite Hc at 1. change (S (length consumed)) with (length (c :: consumed)).
      rewrite firstn_app, firstn_all, Nat.sub_diag. simpl. now rewrite app_nil_r.
Qed.

(** The segments of a scan with fuel to spare spell the text. *)
Lemma scan_raw (r : regex) fuel : forall pv s,
  (length s < fuel)%nat -> flat_map raw (scan r fuel pv s) = s.
Proof.
  induction fuel as [|fuel IH]; intros pv s Hf; [lia|].
  destruct (scan_step r fuel pv s)
    as [[_ ->] | [(st' & tl & _ & _ & ->) | (st' & tl & c & consumed & _ & Hs & ->)]].
  - destruct s as [|c t]; [reflexivity|]. simpl. f_equal. apply IH. simpl in Hf. lia.
  - destruct s as [|c t]; [reflexivity|]. simpl. f_equal. apply IH. simpl in Hf. lia.
  - cbn [flat_map raw]. rewrite IH.
    + now symmetry.
    + rewrite Hs in Hf. rewrite length_app in Hf. simpl in Hf. lia.
Qed.

(** [sub_with] changes a text character by character when its function
    does: [R] relates each character of the text to the character written
    for it. *)
Lemma scan_pointwise (R : char -> char -> Prop) (f : str -> str) (r : regex) :
  (forall c, R c c) -> (forall text, Forall2 R text (f text)) ->
  forall fuel pv s, (length s < fuel)%nat ->
    Forall2 R s (flat_map (render f) (scan r fuel pv s)).
Proof.
  intros Hrefl Hf fuel. induction fuel as [|fuel IH]; intros pv s Hlen; [lia|].
  assert (Hskip : Forall2 R s
            (flat_map (render f)
               match s with [] => [] | c :: t => Lit c :: scan r fuel (Some c) t end)).
  { destruct s as [|c t]; [constructor|]. simpl. constructor; [apply Hrefl|].
    apply IH. simpl in Hlen. lia. }
  destruct (scan_step r fuel pv s)
    as [[_ ->] | [(st' & tl & _ & _ & ->) | (st' & tl & c & consumed & _ & Hs & ->)]].
  - exact Hskip.
  - cbn [flat_map render]. pose proof (Hf []) as H0. inversion H0. exact Hskip.
  - cbn [flat_map render]. rewrite Hs at 1. apply Forall2_app; [apply Hf|].
    apply IH. rewrite Hs in Hlen. rewrite length_app in Hlen. simpl in Hlen. lia.
Qed.

Lemma sub_with_pointwise (R : char -> char -> Prop) (f : str -> str) (r : regex) (s : str) :
  (forall c, R c c) -> (forall text, Forall2 R text (f text)) ->
  Forall2 R s (sub_with r f s).
Proof. intros Hrefl Hf. apply scan_pointwise; [assumption | assumption | lia]. Qed.

(** Where the pattern matches at no position of the text, [sub_with]
    returns the text. *)
Lemma scan_no_match (f : str -> str) (r : regex) fuel : forall pv s,
  (forall pre post pv', s = pre ++ post ->
     run r {| prev := pv'; rest := post; groups := [] |} = []) ->
  (length s < fuel)%nat ->
  flat_map (render f) (scan r fuel pv s) = s.
Proof.
  induction fuel as [|fuel IH]; intros pv s Hno Hlen; [lia|].
  cbn [scan]. rewrite (Hno [] s pv eq_refl).
  destruct s as [|c t]; [reflexivity|]. simpl. f_equal. apply IH.
  - intros pre post pv' E. apply (Hno (c :: pre) post pv'). now rewrite E.
  - simpl in Hlen. lia.
Qed.

Lemma sub_no_match (repl : str) (r : regex) (s : str) :
  (forall pre post pv', s = pre ++ post ->
     run r {| prev := pv'; rest := post; groups := [] |} = []) ->
  sub r repl s = s.
Proof. intros Hno. apply scan_no_match; [exact Hno | lia]. Qed.

(** A greedy repetition of a character class reads the longest run first. *)
Lemma rep_chr_greedy (p : char -> bool) (lo : nat) : forall s fuel n pv g,
  (length s <= fuel)%nat ->
  ((lo <= n + run_length p s)%nat ->
     exists tl,
       rep_from (run (Chr p)) lo None true fuel n {| prev := pv; rest := s; groups := g |}
       = {| prev := last_of pv p s; rest := dropwhile p s; groups := g |} :: tl) /\
  ((n + run_length p s < lo)%nat ->
     rep_from (run (Chr p)) lo None true fuel n {| prev := pv; rest := s; groups := g |} = []).
Proof.
  induction s as [|c t IH]; intros fuel n pv g Hfuel.
  - assert (E : rep_from (run (Chr p)) lo None true fuel n
                  {| prev := pv; rest := []; groups := g |}
                = if Nat.leb lo n then [{| prev := pv; rest := []; groups := g |}] else [])
      by (destruct fuel; reflexivity).
    rewrite E. simpl. rewrite Nat.add_0_r. split; intros H.
    + destruct (Nat.leb_spec lo n); [eauto | lia].
    + destruct (Nat.leb_spec lo n); [lia | reflexivity].
  - destruct fuel as [|fuel]; [simpl in Hfuel; lia|].
    cbn [rep_from below].
    change (run (Chr p) {| prev := pv; rest := c :: t; groups := g |})
      with (if p c then [{| prev := Some c; rest := t; groups := g |}] else []).
    cbn [rest run_length last_of dropwhile].
    destruct (p c) eqn:Hp.
    + cbn [flat_map rest length]. rewrite (proj2 (Nat.ltb_lt _ _) (Nat.lt_succ_diag_r _)).
      rewrite app_nil_r.
      destruct (IH fuel (S n) (Some c) g) as [Hsome Hnone]; [simpl in Hfuel; lia|].
      split; intros H.
      * destruct Hsome as [tl ->]; [lia|]. simpl. eauto.
      * rewrite Hnone by lia. destruct (Nat.leb_spec lo n); [lia | reflexivity].
    + cbn [flat_map app]. rewrite Nat.add_0_r. split; intros H.
      * destruct (Nat.leb_spec lo n); [eauto | lia].
      * destruct (Nat.leb_spec lo n); [lia | reflexivity].
Qed.

Lemma dropwhile_length (p : char -> bool) (s : str) :
  (length (dropwhile p s) <= length s)%nat.
Proof.
  induction s as [|c t IH]; simpl; [lia|]. destruct (p c); simpl; lia.
Qed.

(** [p{lo,}] against a text whose first [lo] characters are not all in
    [p]: no match. *)
Lemma run_at_least_short (p : char -> bool) (lo : nat) pv s g :
  (run_length p s < lo)%nat ->
  run (Rep (Chr p) lo None true) {| prev := pv; rest := s; groups := g |} = [].
Proof.
  intros H. cbn [run rest].
  apply (rep_chr_greedy p lo s (length s) 0 pv g (le_n _)). simpl. exact H.
Qed.

(** The scan of [p+] where a run of [p] starts: one match, and on from the
    end of the run. *)
Lemma scan_plus_run (p : char -> bool) fuel pv c t :
  p c = true ->
  exists text gs,
    scan (Rep (Chr p) 1 None true) (S fuel) pv (c :: t)
    = Hit text gs :: scan (Rep (Chr p) 1 None true) fuel (last_of (Some c) p t) (dropwhile p t).
Proof.
  intros Hp.
  destruct (proj1 (rep_chr_greedy p 1 (c :: t) (length (c :: t)) 0 pv [] (le_n _)))
    as [tl0 Hrun].
  { simpl. rewrite Hp. lia. }
  cbn [last_of dropwhile] in Hrun. rewrite Hp in Hrun.
  change (rep_from (run (Chr p)) 1 None true (length (c :: t)) 0
            {| prev := pv; rest := c :: t; groups := [] |})
    with (run (Rep (Chr p) 1 None true) {| prev := pv; rest := c :: t; groups := [] |}) in Hrun.
  destruct (scan_step (Rep (Chr p) 1 None true) fuel pv (c :: t))
    as [[E _] | [(st' & tl & E & Hrest & _) | (st' & tl & c' & consumed & E & _ & ->)]].
  - rewrite Hrun in E. discriminate.
  - rewrite Hrun in E. injection E as <- _. simpl in Hrest.
    pose proof (dropwhile_length p t) as Hl. rewrite Hrest in Hl. simpl in Hl. lia.
  - rewrite Hrun in E. injection E as <- _. simpl. eauto.
Qed.

Lemma scan_plus_other (p : char -> bool) fuel pv c t :
  p c = false ->
  scan (Rep (Chr p) 1 None true) (S fuel) pv (c :: t)
  = Lit c :: scan (Rep (Chr p) 1 None true) fuel (Some c) t.
Proof.
  intros Hp. cbn [scan]. rewrite run_at_least_short; [reflexivity|].
  simpl. rewrite Hp. lia.
Qed.

Lemma squeeze_in_run (s : str) : squeeze true s = squeeze false (dropwhile isspace s).
Proof.
  induction s as [|c t IH]; [reflexivity|]. simpl.
  destruct (isspace c) eqn:E; [exact IH|]. simpl. now rewrite E.
Qed.

Lemma scan_plus_space fuel : forall pv s,
  (length s < fuel)%nat ->
  flat_map (render (fun _ => [32%N])) (scan (plus space) fuel pv s) = squeeze false s.
Proof.
  unfold plus, space.
  induction fuel as [|fuel IH]; intros pv s Hlen; [lia|].
  destruct s as [|c t].
  - cbn [scan]. rewrite run_at_least_short by (simpl; lia). reflexivity.
  - cbn [squeeze]. destruct (isspace c) eqn:Hc.
    + destruct (scan_plus_run isspace fuel pv c t Hc) as (text & gs & ->).
      cbn [flat_map render app]. rewrite IH, squeeze_in_run; [reflexivity|].
      pose proof (dropwhile_length isspace t). simpl in Hlen. lia.
    + rewrite scan_plus_other by exact Hc. cbn [flat_map render app].
      rewrite IH; [reflexivity | simpl in Hlen; lia].
Qed.

(** [re.sub(r'\s+', ' ', s)]. *)
Lemma sub_plus_space (s : str) : sub (plus space) (u " ") s = squeeze false s.
Proof. apply scan_plus_space. lia. Qed.

Lemma scan_chr_delete (p : char -> bool) fuel : forall pv s,
  (length s < fuel)%nat ->
  flat_map (render (fun _ => [])) (scan (Chr p) fuel pv s) = filter (fun c => negb (p c)) s.
Proof.
  induction fuel as [|fuel IH]; intros pv s Hlen; [lia|].
  destruct s as [|c t]; [reflexivity|].
  cbn [scan run rest filter]. destruct (p c) eqn:Hc; cbn [negb].
  - cbn [rest length]. replace (S (length t) - length t)%nat with 1%nat by lia.
    cbn [flat_map render app prev]. apply IH. simpl in Hlen. lia.
  - cbn [flat_map render app]. f_equal. apply IH. simpl in Hlen. lia.
Qed.

(** [re.sub(r'[class]', '', s)]: the characters of the class are deleted. *)
Lemma sub_chr_delete (p : char -> bool) (s : str) :
  sub (Chr p) [] s = filter (fun c => negb (p c)) s.
Proof. apply scan_chr_delete. lia. Qed.

End ReFacts.

(** ** The text normalizer *)

Module NormalizerFacts.
Import Re ReFacts DocumentProcessor.

(** *** Stripping and squeezing *)

Lemma lstrip_head (s : str) :
  lstrip s = [] \/ exists c t, lstrip s = c :: t /\ isspace c = false.
Proof.
  unfold lstrip. induction s as [|c t IH]; [now left|]. simpl.
  destruct (isspace c) eqn:E; [exact IH|]. right. now exists c, t.
Qed.

Lemma rstrip_head (c : char) (t : str) :
  isspace c = false -> exists t', rstrip (c :: t) = c :: t'.
Proof.
  intros Hc. simpl. destruct (rstrip t) as [|d t'].
  - rewrite Hc. now exists [].
  - now exists (d :: t').
Qed.

Lemma rstrip_rstrip (s : str) : rstrip (rstrip s) = rstrip s.
Proof.
  induction s as [|c t IH]; [reflexivity|]. simpl.
  destruct (rstrip t) as [|d t'] eqn:E.
  - destruct (isspace c) eqn:Hc; [reflexivity|]. simpl. now rewrite Hc.
  - cbn [rstrip]. cbn [rstrip] in IH. rewrite IH. reflexivity.
Qed.

(** A text that [rstrip] leaves alone: so does it leave its tail, unless
    the tail is empty. *)
Lemma rstrip_fixed_tail (c : char) (t : str) :
  rstrip (c :: t) = c :: t ->
  (t = [] /\ isspace c = false) \/ (t <> [] /\ rstrip t = t).
Proof.
  simpl. destruct (rstrip t) as [|d t'] eqn:E.
  - destruct (isspace c); [discriminate|]. intros H. injection H as <-. now left.
  - intros H. injection H as <-. right. split; [discriminate | reflexivity].
Qed.

Lemma squeeze_tidy (z : str) : forall in_run,
  z <> [] -> rstrip z = z -> tidy_from in_run (squeeze in_run z) = true.
Proof.
  induction z as [|c t IH]; intros in_run Hne Hfix; [congruence|].
  destruct (rstrip_fixed_tail c t Hfix) as [[-> Hc] | [Ht Hfix']].
  - simpl. rewrite Hc. simpl. now rewrite Hc.
  - specialize (fun b => IH b Ht Hfix'). cbn [squeeze].
    destruct (isspace c) eqn:Hc.
    + destruct in_run; [apply IH|].
      cbn [tidy_from]. replace (isspace 32%N) with true by reflexivity.
      rewrite IH. reflexivity.
    + cbn [tidy_from]. rewrite Hc. apply IH.
Qed.

(** The first step of [_clean_text] leaves a tidy text. *)
Lemma squeeze_strip_tidy (s : str) : tidy (squeeze false (strip s)) = true.
Proof.
  unfold strip. destruct (lstrip_head s) as [-> | (c & t & -> & Hc)]; [reflexivity|].
  destruct (rstrip_head c t Hc) as [t' E].
  pose proof (squeeze_tidy (rstrip (c :: t)) false) as H.
  rewrite E in *. cbn [squeeze] in *. rewrite Hc in *.
  cbn [tidy tidy_from] in *. rewrite Hc in *.
  apply H; [discriminate|]. rewrite <- E. apply rstrip_rstrip.
Qed.

Lemma tidy_from_rstrip (s : str) : forall b, tidy_from b s = true -> rstrip s = s.
Proof.
  induction s as [|c t IH]; intros b H; [reflexivity|].
  cbn [tidy_from] in H. cbn [rstrip].
  destruct (isspace c) eqn:Hc.
  - apply andb_true_iff in H. destruct H as [_ Ht]. rewrite (IH _ Ht).
    destruct t; [discriminate | reflexivity].
  - rewrite (IH _ H). destruct t; reflexivity.
Qed.

Lemma tidy_from_squeeze (s : str) : forall b, tidy_from b s = true -> squeeze b s = s.
Proof.
  induction s as [|c t IH]; intros b H; [reflexivity|].
  cbn [tidy_from] in H. cbn [squeeze].
  destruct (isspace c) eqn:Hc.
  - apply andb_true_iff in H. destruct H as [H Ht].
    apply andb_true_iff in H. destruct H as [H32 Hb].
    apply N.eqb_eq in H32. subst c. destruct b; [discriminate|].
    now rewrite (IH _ Ht).
  - now rewrite (IH _ H).
Qed.

Lemma tidy_head (c : char) (t : str) : tidy (c :: t) = true -> isspace c = false.
Proof.
  cbn [tidy tidy_from]. destruct (isspace c); [|reflexivity].
  rewrite andb_false_r. discriminate.
Qed.

Lemma tidy_strip (s : str) : tidy s = true -> strip s = s.
Proof.
  intros H. destruct s as [|c t]; [reflexivity|].
  pose proof (tidy_head c t H) as Hc.
  unfold strip, lstrip. cbn [dropwhile]. rewrite Hc.
  exact (tidy_from_rstrip (c :: t) true H).
Qed.

Lemma tidy_squeeze (s : str) : tidy s = true -> squeeze false s = s.
Proof.
  intros H. destruct s as [|c t]; [reflexivity|].
  pose proof (tidy_head c t H) as Hc.
  cbn [tidy tidy_from] in H. rewrite Hc in H.
  cbn [squeeze]. rewrite Hc. now rewrite (tidy_from_squeeze t false H).
Qed.

(** In a tidy text a run of whitespace is one character long, and no
    character is a newline. *)
Lemma tidy_from_suffix (pre post : str) : forall b,
  tidy_from b (pre ++ post) = true -> exists b', tidy_from b' post = true.
Proof.
  induction pre as [|c pre IH]; intros b H; [now exists b|].
  cbn [app tidy_from] in H. destruct (isspace c).
  - apply andb_true_iff in H. destruct H as [_ H]. exact (IH _ H).
  - exact (IH _ H).
Qed.

Lemma tidy_from_run_length (s : str) : forall b,
  tidy_from b s = true -> (run_length isspace s <= 1)%nat.
Proof.
  intros b H. destruct s as [|c t]; [simpl; lia|].
  cbn [tidy_from] in H. cbn [run_length].
  destruct (isspace c); [|lia].
  apply andb_true_iff in H. destruct H as [_ H].
  destruct t as [|d t]; [discriminate|].
  cbn [tidy_from] in H. cbn [run_length].
  destruct (isspace d); [|lia]. rewrite andb_false_r in H. discriminate.
Qed.

Lemma tidy_from_no_newline (s : str) : forall b,
  tidy_from b s = true -> forallb (fun c => negb (char_eqb 10%N c)) s = true.
Proof.
  induction s as [|c t IH]; intros b H; [reflexivity|].
  cbn [tidy_from] in H. cbn [forallb].
  destruct (isspace c) eqn:Hc.
  - apply andb_true_iff in H. destruct H as [H Ht].
    apply andb_true_iff in H. destruct H as [H32 _].
    apply N.eqb_eq in H32. subst c. rewrite (IH _ Ht). reflexivity.
  - rewrite (IH _ H), andb_true_r. unfold char_eqb.
    destruct (N.eqb_spec 10%N c) as [<-|]; [vm_compute in Hc; discriminate | reflexivity].
Qed.

(** *** The replacements *)

Lemma replace_map (old new : char) (s : str) :
  replace old [new] s = map (fun c => if char_eqb c old then new else c) s.
Proof.
  unfold replace. induction s as [|c t IH]; [reflexivity|]. simpl.
  rewrite IH. now destruct (char_eqb c old).
Qed.

Lemma replace_self (c : char) (s : str) : replace c [c] s = s.
Proof.
  rewrite replace_map. rewrite <- (map_id s) at 2. apply map_ext.
  intros x. unfold char_eqb. destruct (N.eqb_spec x c); congruence.
Qed.

Lemma apply_replacements_map (s : str) : apply_replacements s = map dash s.
Proof.
  unfold apply_replacements, replacements. cbn [fold_left].
  rewrite !replace_self, !replace_map, !map_map. apply map_ext.
  intros c. unfold dash, char_eqb.
  destruct (N.eqb_spec c 8722) as [->|]; [reflexivity|].
  destruct (N.eqb_spec c 8211) as [->|]; [reflexivity|].
  reflexivity.
Qed.

Lemma dash_cases (c : char) : dash c = c \/ (dash c = 45%N /\ isspace c = false).
Proof.
  unfold dash.
  destruct (N.eqb_spec c 8722) as [->|]; [now right|].
  destruct (N.eqb_spec c 8211) as [->|]; [now right|].
  destruct (N.eqb_spec c 8212) as [->|]; [now right|].
  now left.
Qed.

Lemma dash_dash (c : char) : dash (dash c) = dash c.
Proof.
  destruct (dash_cases c) as [H | [H _]]; rewrite !H; reflexivity.
Qed.

Lemma tidy_from_dash (s : str) : forall b, tidy_from b (map dash s) = tidy_from b s.
Proof.
  induction s as [|c t IH]; intros b; [reflexivity|].
  cbn [map tidy_from]. rewrite !IH.
  destruct (dash_cases c) as [H | [H Hc]]; rewrite H; [reflexivity|]. now rewrite Hc.
Qed.

Lemma tidy_dash (s : str) : tidy (map dash s) = tidy s.
Proof. destruct s as [|c t]; [reflexivity|]. apply (tidy_from_dash (c :: t)). Qed.

(** *** Texts that the patterns of lines 403-404 do not match *)

Lemma run_length_le (p q : char -> bool) (s : str) :
  (forall c, q c = true -> p c = true) -> (run_length q s <= run_length p s)%nat.
Proof.
  intros Hpq. induction s as [|c t IH]; [simpl; lia|]. simpl.
  destruct (q c) eqn:Hq; [|lia]. rewrite (Hpq c Hq). lia.
Qed.

Lemma run_seq_chr_fail (p : char -> bool) (r2 : regex) (pv : option char) (s : str) g :
  match s with [] => True | c :: _ => p c = false end ->
  run (Seq (Chr p) r2) {| prev := pv; rest := s; groups := g |} = [].
Proof.
  intros H. cbn [run rest]. destruct s as [|c t]; [reflexivity|]. now rewrite H.
Qed.

Lemma sub_blank_lines_tidy (s : str) :
  tidy s = true -> sub (cat [newline; star space; newline]) (nl ++ nl) s = s.
Proof.
  intros H. destruct s as [|c0 t0]; [reflexivity|]. cbn [tidy] in H.
  apply sub_no_match. intros pre post pv' E. rewrite E in H.
  destruct (tidy_from_suffix pre post true H) as [b' Hpost].
  pose proof (tidy_from_no_newline post b' Hpost) as Hnl.
  change (cat [newline; star space; newline])
    with (Seq (Chr (char_eqb 10%N)) (Seq (star space) newline)).
  apply run_seq_chr_fail. destruct post as [|c t]; [exact I|].
  cbn [forallb] in Hnl. apply andb_true_iff in Hnl. destruct Hnl as [Hc _].
  now apply negb_true_iff in Hc.
Qed.

Lemma sub_long_gaps_tidy (s : str) :
  tidy s = true -> sub (at_least 3 (chr " ")) (u "   ") s = s.
Proof.
  intros H. destruct s as [|c0 t0]; [reflexivity|]. cbn [tidy] in H.
  apply sub_no_match. intros pre post pv' E. rewrite E in H.
  destruct (tidy_from_suffix pre post true H) as [b' Hpost].
  pose proof (tidy_from_run_length post b' Hpost) as Hrun.
  unfold at_least, chr. apply run_at_least_short.
  eapply Nat.le_lt_trans; [apply (run_length_le isspace)|]; [|lia].
  intros c Hc. cbn [u list_ascii_of_string map existsb] in Hc.
  rewrite orb_false_r in Hc. apply N.eqb_eq in Hc. subst c. reflexivity.
Qed.

(** *** What a substitution writes *)

Lemma scan_forallb (P : char -> bool) (f : str -> str) (r : regex) :
  (forall text, forallb P (f text) = true) ->
  forall fuel pv s, (length s < fuel)%nat -> forallb P s = true ->
    forallb P (flat_map (render f) (scan r fuel pv s)) = true.
Proof.
  intros Hf fuel. induction fuel as [|fuel IH]; intros pv s Hlen Hs; [lia|].
  assert (Hskip : forallb P
            (flat_map (render f)
               match s with [] => [] | c :: t => Lit c :: scan r fuel (Some c) t end) = true).
  { destruct s as [|c t]; [reflexivity|]. cbn [flat_map render app forallb] in *.
    apply andb_true_iff in Hs. destruct Hs as [-> Ht]. apply IH; [simpl in Hlen; lia | exact Ht]. }
  destruct (scan_step r fuel pv s)
    as [[_ ->] | [(st' & tl & _ & _ & ->) | (st' & tl & c & consumed & _ & E & ->)]].
  - exact Hskip.
  - cbn [flat_map render]. rewrite forallb_app, Hf. exact Hskip.
  - cbn [flat_map render]. rewrite forallb_app, Hf. rewrite E in Hs, Hlen.
    rewrite forallb_app in Hs. apply andb_true_iff in Hs. destruct Hs as [_ Hs].
    apply IH; [|exact Hs]. rewrite length_app in Hlen. simpl in Hlen. lia.
Qed.

Lemma sub_forallb (P : char -> bool) (r : regex) (repl s : str) :
  forallb P repl = true -> forallb P s = true -> forallb P (sub r repl s) = true.
Proof. intros Hr Hs. apply scan_forallb; [intros _; exact Hr | lia | exact Hs]. Qed.

Lemma forallb_dropwhile (P p : char -> bool) (s : str) :
  forallb P s = true -> forallb P (dropwhile p s) = true.
Proof.
  induction s as [|c t IH]; [reflexivity|]. intros H. cbn [dropwhile].
  destruct (p c); [|exact H]. cbn [forallb] in H. apply andb_true_iff in H. apply IH, H.
Qed.

Lemma forallb_rstrip (P : char -> bool) (s : str) :
  forallb P s = true -> forallb P (rstrip s) = true.
Proof.
  induction s as [|c t IH]; [reflexivity|]. intros H. cbn [forallb] in H.
  apply andb_true_iff in H. destruct H as [Hc Ht]. specialize (IH Ht). cbn [rstrip].
  destruct (rstrip t) as [|d t'].
  - destruct (isspace c); [reflexivity|]. cbn [forallb]. now rewrite Hc.
  - cbn [forallb] in *. now rewrite Hc.
Qed.

Lemma forallb_squeeze (P : char -> bool) (s : str) : forall b,
  P 32%N = true -> forallb P s = true -> forallb P (squeeze b s) = true.
Proof.
  induction s as [|c t IH]; intros b H32 H; [reflexivity|]. cbn [forallb] in H.
  apply andb_true_iff in H. destruct H as [Hc Ht]. cbn [squeeze].
  destruct (isspace c); [destruct b|]; cbn [forallb];
    rewrite ?H32, ?Hc; apply IH; assumption.
Qed.

Lemma filter_all (P : char -> bool) (s : str) :
  forallb P s = true -> filter (fun c => negb (negb (P c))) s = s.
Proof.
  induction s as [|c t IH]; [reflexivity|]. intros H. cbn [forallb] in H.
  apply andb_true_iff in H. destruct H as [Hc Ht]. cbn [filter].
  rewrite Hc. cbn [negb]. now rewrite IH.
Qed.

Section Normalizer.
Context {U : Unicode}.

Lemma kept_dash (s : str) : forallb kept s = true -> forallb kept (map dash s) = true.
Proof.
  induction s as [|c t IH]; [reflexivity|]. intros H. cbn [map forallb] in *.
  apply andb_true_iff in H. destruct H as [Hc Ht]. rewrite (IH Ht), andb_true_r.
  destruct (dash_cases c) as [E | [E _]]; rewrite E; [exact Hc | reflexivity].
Qed.

Lemma kept_squeeze_strip (s : str) :
  forallb kept s = true -> forallb kept (squeeze false (strip s)) = true.
Proof.
  intros H. apply forallb_squeeze; [reflexivity|].
  apply forallb_rstrip, forallb_dropwhile, H.
Qed.

(** On a text of kept characters, [_clean_text] strips, squeezes the
    whitespace and maps the dashes; the result is tidy and kept. *)
Lemma clean_text_kept (s : str) :
  forallb kept s = true -> _clean_text s = map dash (squeeze false (strip s)).
Proof.
  intros H. unfold _clean_text.
  rewrite sub_plus_space, sub_chr_delete, filter_all by now apply kept_squeeze_strip.
  rewrite apply_replacements_map.
  assert (Ht : tidy (map dash (squeeze false (strip s))) = true)
    by (rewrite tidy_dash; apply squeeze_strip_tidy).
  now rewrite sub_blank_lines_tidy, sub_long_gaps_tidy.
Qed.

Lemma clean_text_all_kept (s : str) : forallb kept (_clean_text s) = true.
Proof.
  unfold _clean_text. apply sub_forallb; [reflexivity|]. apply sub_forallb; [reflexivity|].
  rewrite apply_replacements_map. apply kept_dash. rewrite sub_chr_delete.
  apply forallb_forall. intros c Hc. apply filter_In in Hc.
  destruct Hc as [_ Hc]. now apply negb_true_iff, negb_false_iff in Hc.
Qed.

Lemma clean_text_twice_kept (s : str) :
  forallb kept s = true -> _clean_text (_clean_text s) = _clean_text s.
Proof.
  intros H. rewrite (clean_text_kept s H).
  set (t := squeeze false (strip s)).
  assert (Ht : tidy (map dash t) = true) by (rewrite tidy_dash; apply squeeze_strip_tidy).
  rewrite clean_text_kept by (apply kept_dash, kept_squeeze_strip, H).
  rewrite (tidy_strip _ Ht), (tidy_squeeze _ Ht), map_map.
  apply map_ext. intros c. apply dash_dash.
Qed.

End Normalizer.

(** C7 (amended). [_clean_text] is idempotent on every text whose
    characters are all kept by the filter of line 379 (word characters,
    whitespace and the listed punctuation); on any text, it is idempotent
    from its second application on. *)
Theorem clean_text_idempotent_on_kept (U : Unicode) :
  (forall s, forallb kept s = true -> _clean_text (_clean_text s) = _clean_text s) /\
  (forall s, _clean_text (_clean_text (_clean_text s)) = _clean_text (_clean_text s)).
Proof.
  split.
  - intros s H. now apply clean_text_twice_kept.
  - intros s. apply clean_text_twice_kept, clean_text_all_kept.
Qed.

(** C7 at a line of a bill with irregular spacing. *)
Lemma clean_text_idempotent_witness :
  let s := u "  Total   due:  $12.34 (01/15/2025) " in
  @_clean_text ascii_only (@_clean_text ascii_only s) = @_clean_text ascii_only s.
Proof.
  intros s.
  assert (H : forallb (@kept ascii_only) s = true) by (vm_compute; reflexivity).
  exact (proj1 (clean_text_idempotent_on_kept ascii_only) s H).
Defined.

(** C7 as stated fails: the apostrophe of [a ' b] is deleted after the
    whitespace was squeezed, which leaves two blanks, and a second
    application squeezes them. *)
Lemma clean_text_not_idempotent :
  @_clean_text ascii_only (u "a ' b") = u "a  b" /\
  @_clean_text ascii_only (@_clean_text ascii_only (u "a ' b")) = u "a b" /\
  @_clean_text ascii_only (@_clean_text ascii_only (u "a ' b"))
    <> @_clean_text ascii_only (u "a ' b").
Proof.
  assert (H1 : @_clean_text ascii_only (u "a ' b") = u "a  b") by (vm_compute; reflexivity).
  assert (H2 : @_clean_text ascii_only (@_clean_text ascii_only (u "a ' b")) = u "a b")
    by (vm_compute; reflexivity).
  split; [exact H1|]. split; [exact H2|]. rewrite H2, H1. discriminate.
Qed.

End NormalizerFacts.

(** ** The table-cell cleanup *)

Module CellFacts.
Import Re ReFacts NormalizerFacts DocumentProcessor.

Lemma join_In (sep : str) (parts : list str) (c : char) :
  In c (join sep parts) -> In c sep \/ exists part, In part parts /\ In c part.
Proof.
  induction parts as [|p rest IH]; [intros []|].
  destruct rest as [|q rest].
  - intros H. right. exists p. split; [now left | exact H].
  - cbn [join]. intros H. apply in_app_or in H. destruct H as [H|H].
    + right. exists p. split; [now left | exact H].
    + apply in_app_or in H. destruct H as [H|H]; [now left|].
      destruct (IH H) as [Hs | (part & Hp & Hc)]; [now left|].
      right. exists part. split; [now right | exact Hc].
Qed.

Lemma split_from_In (s : str) : forall cur part c,
  In part (split_from cur s) -> In c part -> In c cur \/ In c s.
Proof.
  induction s as [|x t IH]; intros cur part c Hp Hc.
  - simpl in Hp. destruct cur as [|y cur]; [contradiction|].
    destruct Hp as [<-|[]]. left. now apply in_rev.
  - cbn [split_from] in Hp. destruct (isspace x).
    + destruct cur as [|y cur].
      * destruct (IH _ _ _ Hp Hc) as [[]|H]. right. now right.
      * destruct Hp as [<-|Hp]; [left; now apply in_rev|].
        destruct (IH _ _ _ Hp Hc) as [[]|H]. right. now right.
    + destruct (IH _ _ _ Hp Hc) as [[<-|H]|H].
      * right. now left.
      * now left.
      * right. now right.
Qed.

Lemma replace_rewritten (old new : char) (text : str) :
  Forall2 (fun a b => b = a \/ (a = old /\ b = new)) text (replace old [new] text).
Proof.
  rewrite replace_map. induction text as [|c t IH]; [constructor|].
  cbn [map]. constructor; [|exact IH].
  unfold char_eqb. destruct (N.eqb_spec c old); [now right | now left].
Qed.

Lemma Forall2_compose {A : Type} (R1 R2 R : A -> A -> Prop) (a : list A) : forall b c,
  (forall x y z, R1 x y -> R2 y z -> R x z) ->
  Forall2 R1 a b -> Forall2 R2 b c -> Forall2 R a c.
Proof.
  induction a as [|x a IH]; intros b c HR H1 H2.
  - inversion H1; subst. inversion H2; subst. constructor.
  - inversion H1; subst. inversion H2; subst. constructor; eauto.
Qed.

Section Cell.
Context {U : Unicode}.

(** The blanks that [join] writes are no digits, and the rest comes from
    the cell. *)
Lemma collapsed_no_digit (text : str) :
  existsb isdigit text = false ->
  existsb isdigit (join (u " ") (Py.split text)) = false.
Proof.
  intros H. destruct (existsb isdigit (join (u " ") (Py.split text))) eqn:E; [|reflexivity].
  apply existsb_exists in E. destruct E as (c & Hin & Hd).
  destruct (join_In _ _ _ Hin) as [Hs | (part & Hp & Hc)].
  - destruct Hs as [<-|[]]. discriminate.
  - destruct (split_from_In text [] part c Hp Hc) as [[]|Ht].
    assert (existsb isdigit text = true) by (apply existsb_exists; eauto). congruence.
Qed.

Lemma clean_cell_text_no_digit (text : str) :
  existsb isdigit text = false -> _clean_cell_text text = join (u " ") (Py.split text).
Proof.
  intros H. unfold _clean_cell_text. destruct text as [|c t]; [reflexivity|].
  now rewrite (collapsed_no_digit _ H).
Qed.

Lemma clean_cell_text_pointwise (text : str) :
  Forall2 rewritten (join (u " ") (Py.split text)) (_clean_cell_text text).
Proof.
  assert (Hrefl : forall l, Forall2 rewritten l l).
  { induction l; constructor; [now left | assumption]. }
  unfold _clean_cell_text. destruct text as [|c t]; [constructor|].
  destruct (existsb isdigit _); [|apply Hrefl].
  eapply Forall2_compose;
    [| apply (sub_with_pointwise (fun a b => b = a \/ (a = 79%N /\ b = 48%N)))
     | apply (sub_with_pointwise (fun a b => b = a \/ (a = 108%N /\ b = 49%N)))].
  - intros x y z [->|[-> ->]] [->|[E ->]]; unfold rewritten; auto. discriminate.
  - now left.
  - intros m. apply replace_rewritten.
  - now left.
  - intros m. apply replace_rewritten.
Qed.

End Cell.

(** *** The two substitutions, word by word *)

(** A greedy star of a character class offers the longest run first,
    then each shorter one. *)
Lemma rep_star_backtracks (p : char -> bool) : forall s fuel n pv g,
  (length s <= fuel)%nat ->
  rep_from (run (Chr p)) 0 None true fuel n {| prev := pv; rest := s; groups := g |}
  = backtracks pv p s g.
Proof.
  induction s as [|c t IH]; intros fuel n pv g Hfuel.
  - destruct fuel; reflexivity.
  - destruct fuel as [|fuel]; [simpl in Hfuel; lia|].
    cbn [rep_from below backtracks Nat.leb].
    change (run (Chr p) {| prev := pv; rest := c :: t; groups := g |})
      with (if p c then [{| prev := Some c; rest := t; groups := g |}] else []).
    destruct (p c); [|reflexivity].
    cbn [flat_map rest length]. rewrite (proj2 (Nat.ltb_lt _ _) (Nat.lt_succ_diag_r _)).
    rewrite app_nil_r, IH by (simpl in Hfuel; lia). reflexivity.
Qed.

Lemma star_backtracks (p : char -> bool) (pv : option char) (s : str) (g : list (nat * str)) :
  run (star (Chr p)) {| prev := pv; rest := s; groups := g |} = backtracks pv p s g.
Proof. apply rep_star_backtracks. apply le_n. Qed.

Lemma run_seq (r1 r2 : regex) (st : mstate) :
  run (Seq r1 r2) st = flat_map (run r2) (run r1 st).
Proof. reflexivity. Qed.

Lemma star_digit_backtracks (U : Unicode) (pv : option char) (s : str)
  (g : list (nat * str)) :
  run (star digit) {| prev := pv; rest := s; groups := g |} = backtracks pv is_decimal s g.
Proof. apply star_backtracks. Qed.

Lemma dropwhile_app_all (p : char -> bool) (a r : str) :
  forallb p a = true -> dropwhile p (a ++ r) = dropwhile p r.
Proof.
  induction a as [|c a IH]; [reflexivity|]. cbn [forallb app dropwhile].
  intros H. apply andb_true_iff in H. destruct H as [-> H]. now apply IH.
Qed.

Lemma dropwhile_app_stop (p : char -> bool) (a r : str) :
  forallb p a = false -> dropwhile p (a ++ r) = dropwhile p a ++ r.
Proof.
  induction a as [|c a IH]; [discriminate|]. cbn [forallb app dropwhile].
  destruct (p c); [exact IH | reflexivity].
Qed.

Lemma dropwhile_stop_head (p : char -> bool) (a : str) :
  forallb p a = false -> exists x t, dropwhile p a = x :: t /\ p x = false /\ In x a.
Proof.
  induction a as [|c a IH]; [discriminate|]. cbn [forallb dropwhile].
  destruct (p c) eqn:E.
  - intros H. destruct (IH H) as (x & t & -> & Hx & Hin). exists x, t. auto using in_cons.
  - intros _. exists c, a. split; [reflexivity|]. split; [exact E | now left].
Qed.

Lemma dropwhile_In (p : char -> bool) (s : str) (x : char) :
  In x (dropwhile p s) -> In x s.
Proof.
  induction s as [|c t IH]; [intros []|]. cbn [dropwhile].
  destruct (p c); [intros H; right; now apply IH | trivial].
Qed.

Lemma takewhile_dropwhile (p : char -> bool) (s : str) :
  takewhile p s ++ dropwhile p s = s.
Proof.
  induction s as [|c t IH]; [reflexivity|]. cbn [takewhile dropwhile].
  destruct (p c); [cbn [app]; now rewrite IH | reflexivity].
Qed.

Lemma takewhile_all (p : char -> bool) (s : str) : forallb p (takewhile p s) = true.
Proof.
  induction s as [|c t IH]; [reflexivity|]. cbn [takewhile].
  destruct (p c) eqn:E; [cbn [forallb]; now rewrite E | reflexivity].
Qed.

Lemma dropwhile_ends (p : char -> bool) (s : str) : ends_word p (dropwhile p s) = true.
Proof.
  induction s as [|c t IH]; [reflexivity|]. cbn [dropwhile].
  destruct (p c) eqn:E; [exact IH | cbn; now rewrite E].
Qed.

Lemma ends_word_take (p : char -> bool) (r : str) :
  ends_word p r = true -> takewhile p r = [] /\ dropwhile p r = r.
Proof.
  destruct r as [|y t]; [now split|]. cbn [ends_word takewhile dropwhile].
  destruct (p y); [discriminate | now split].
Qed.

Section MapWords.
Context {U : Unicode}.
Variable f : str -> str.
Hypothesis f_nil : f [] = [].

Lemma map_words_gap (y : char) (t : str) :
  is_word y = false -> map_words f [] (y :: t) = y :: map_words f [] t.
Proof. intros Hy. cbn [map_words rev]. now rewrite Hy, f_nil. Qed.

Lemma map_words_word (word : str) : forall acc r,
  forallb is_word word = true ->
  map_words f acc (word ++ r) = map_words f (rev word ++ acc) r.
Proof.
  induction word as [|x word IH]; intros acc r Hw; [reflexivity|].
  cbn [forallb] in Hw. apply andb_true_iff in Hw. destruct Hw as [Hx Hw].
  cbn [app map_words rev]. rewrite Hx, IH by exact Hw. now rewrite <- app_assoc.
Qed.

(** A whole word, then the rest. *)
Lemma map_words_end (word r : str) :
  forallb is_word word = true -> ends_word is_word r = true ->
  map_words f [] (word ++ r) = f word ++ map_words f [] r.
Proof.
  intros Hw Hr. rewrite map_words_word by exact Hw. rewrite app_nil_r.
  destruct r as [|y t]; cbn [map_words rev].
  - now rewrite rev_involutive, f_nil, app_nil_r.
  - cbn [ends_word] in Hr. destruct (is_word y); [discriminate|].
    now rewrite rev_involutive, f_nil.
Qed.

End MapWords.

Section Words.
Context {U : Unicode}.

(** A decimal digit is alphanumeric: so [str.isalnum] is defined, and [\d]
    lies within [\w]. *)
Hypothesis decimal_is_alnum : forall c, uni_decimal c <> None -> uni_isalnum c = true.

(** The character to rewrite: [O] or [l], read by the class [q]. *)
Variable c : char.
Variable q : char -> bool.
Hypothesis q_reads : forall x, q x = char_eqb x c.
Hypothesis c_word : is_word c = true.
Hypothesis c_letter : is_decimal c = false.

Lemma decimal_word (x : char) : is_decimal x = true -> is_word x = true.
Proof.
  unfold is_decimal, decimal_value, is_word, isalnum. destruct (is_ascii x).
  - destruct (ascii_isdigit x); [intros _; now rewrite orb_true_r | discriminate].
  - intros H. rewrite decimal_is_alnum; [reflexivity|]. now destruct (uni_decimal x).
Qed.

Lemma q_word (x : char) : q x = true -> is_word x = true.
Proof.
  rewrite q_reads. unfold char_eqb. intros H. apply N.eqb_eq in H. now subst.
Qed.

Lemma q_letter (x : char) : is_decimal x = true -> q x = false.
Proof.
  intros Hd. destruct (q x) eqn:E; [|reflexivity].
  rewrite q_reads in E. unfold char_eqb in E. apply N.eqb_eq in E. subst. congruence.
Qed.

Lemma last_of_word (s : str) : forall pv,
  opt_test is_word pv = true -> opt_test is_word (last_of pv is_decimal s) = true.
Proof.
  induction s as [|y t IH]; intros pv Hpv; [exact Hpv|]. cbn [last_of].
  destruct (is_decimal y) eqn:E; [|exact Hpv]. apply IH. cbn [opt_test].
  now apply decimal_word.
Qed.

Lemma ends_word_decimal (r : str) :
  ends_word is_word r = true -> dropwhile is_decimal r = r.
Proof.
  destruct r as [|y t]; [reflexivity|]. cbn [ends_word dropwhile]. intros H.
  destruct (is_decimal y) eqn:E; [|reflexivity].
  apply decimal_word in E. rewrite E in H. discriminate.
Qed.

(** The end of the pattern: [\d*\b] after a word character. *)
Lemma run_digits_boundary (s : str) : forall pv,
  opt_test is_word pv = true ->
  flat_map (run b) (backtracks pv is_decimal s [])
  = if ends_word is_word (dropwhile is_decimal s)
    then [{| prev := last_of pv is_decimal s; rest := dropwhile is_decimal s; groups := [] |}]
    else [].
Proof.
  induction s as [|y t IH]; intros pv Hpv.
  - cbn [backtracks flat_map run b dropwhile last_of ends_word app].
    unfold at_boundary. cbn [prev rest hd_error opt_test]. now rewrite Hpv.
  - cbn [backtracks dropwhile last_of]. destruct (is_decimal y) eqn:E.
    + rewrite flat_map_app, IH by (cbn [opt_test]; now apply decimal_word).
      cbn [flat_map run b]. unfold at_boundary. cbn [prev rest hd_error opt_test].
      rewrite Hpv, (decimal_word y E). cbn [xorb app]. now rewrite !app_nil_r.
    + cbn [flat_map run b ends_word]. unfold at_boundary. cbn [prev rest hd_error opt_test].
      rewrite Hpv. cbn [xorb]. destruct (is_word y); reflexivity.
Qed.

(** The pattern from its letter on: [c\d*\b]. *)
Lemma run_from_letter (pv : option char) (s : str) :
  run (Seq (Chr q) (Seq (star digit) b)) {| prev := pv; rest := s; groups := [] |}
  = match s with
    | y :: t =>
        if q y
        then if ends_word is_word (dropwhile is_decimal t)
             then [{| prev := last_of (Some y) is_decimal t;
                      rest := dropwhile is_decimal t; groups := [] |}]
             else []
        else []
    | [] => []
    end.
Proof.
  cbn [run rest]. destruct s as [|y t]; [reflexivity|].
  destruct (q y) eqn:E; [|reflexivity]. cbn [flat_map groups].
  change (rep_from (run digit) 0 None true (length t) 0
            {| prev := Some y; rest := t; groups := [] |})
    with (run (star digit) {| prev := Some y; rest := t; groups := [] |}).
  unfold digit. rewrite star_backtracks, app_nil_r.
  apply run_digits_boundary. cbn [opt_test]. now apply q_word.
Qed.

(** The digits before the letter: only the longest run can go on. *)
Lemma run_leading_digits (s : str) : forall pv,
  flat_map (run (Seq (Chr q) (Seq (star digit) b))) (backtracks pv is_decimal s [])
  = run (Seq (Chr q) (Seq (star digit) b))
        {| prev := last_of pv is_decimal s; rest := dropwhile is_decimal s; groups := [] |}.
Proof.
  induction s as [|y t IH]; intros pv.
  - cbn [backtracks flat_map dropwhile last_of]. now rewrite app_nil_r.
  - cbn [backtracks dropwhile last_of]. destruct (is_decimal y) eqn:E.
    + rewrite flat_map_app, IH. cbn [flat_map]. rewrite !run_from_letter.
      rewrite (q_letter y E). now rewrite !app_nil_r.
    + cbn [flat_map]. now rewrite app_nil_r.
Qed.

(** The pattern of lines 265-266, for the letter [c]. *)

Lemma run_around (pv : option char) (s : str) :
  run (cat [b; star digit; Chr q; star digit; b]) {| prev := pv; rest := s; groups := [] |}
  = if at_boundary is_word {| prev := pv; rest := s; groups := [] |}
    then run (Seq (Chr q) (Seq (star digit) b))
           {| prev := last_of pv is_decimal s; rest := dropwhile is_decimal s; groups := [] |}
    else [].
Proof.
  cbn [cat]. rewrite run_seq.
  change (run b {| prev := pv; rest := s; groups := [] |})
    with (if at_boundary is_word {| prev := pv; rest := s; groups := [] |}
          then [{| prev := pv; rest := s; groups := [] |}] else []).
  destruct (at_boundary is_word _); [|reflexivity].
  cbn [flat_map]. rewrite app_nil_r, run_seq, star_digit_backtracks.
  apply run_leading_digits.
Qed.

(** Inside a word, and between words, the pattern does not match. *)
Lemma run_around_inside (pv : option char) (s : str) :
  opt_test is_word pv = true ->
  run (cat [b; star digit; Chr q; star digit; b]) {| prev := pv; rest := s; groups := [] |} = [].
Proof.
  intros Hpv. rewrite run_around. unfold at_boundary. cbn [prev rest]. rewrite Hpv.
  destruct s as [|y t]; cbn [hd_error opt_test xorb negb].
  - rewrite run_from_letter. reflexivity.
  - destruct (is_word y) eqn:Ey; [reflexivity|]. cbn [negb].
    assert (Ed : is_decimal y = false).
    { destruct (is_decimal y) eqn:E; [|reflexivity]. apply decimal_word in E. congruence. }
    cbn [dropwhile last_of]. rewrite Ed, run_from_letter.
    destruct (q y) eqn:Eq; [|reflexivity]. apply q_word in Eq. congruence.
Qed.

Lemma run_around_gap (pv : option char) (s : str) :
  opt_test is_word pv = false -> ends_word is_word s = true ->
  run (cat [b; star digit; Chr q; star digit; b]) {| prev := pv; rest := s; groups := [] |} = [].
Proof.
  intros Hpv Hs. rewrite run_around. unfold at_boundary. cbn [prev rest]. rewrite Hpv.
  destruct s as [|y t]; [reflexivity|]. cbn [ends_word] in Hs.
  cbn [hd_error opt_test]. destruct (is_word y); [discriminate | reflexivity].
Qed.

(** At the start of a word [word], followed by [r]: the pattern matches
    the whole word when it is a numeral around [c], and nothing
    otherwise. *)
Lemma run_around_word (pv : option char) (x : char) (word r : str) :
  opt_test is_word pv = false ->
  forallb is_word (x :: word) = true -> ends_word is_word r = true ->
  (numeral_around c (x :: word) = true ->
   exists pv', opt_test is_word pv' = true /\
     run (cat [b; star digit; Chr q; star digit; b]) {| prev := pv; rest := (x :: word) ++ r; groups := [] |}
     = [{| prev := pv'; rest := r; groups := [] |}]) /\
  (numeral_around c (x :: word) = false ->
   run (cat [b; star digit; Chr q; star digit; b]) {| prev := pv; rest := (x :: word) ++ r; groups := [] |} = []).
Proof.
  intros Hpv Hword Hr.
  assert (Hx : is_word x = true) by (cbn [forallb] in Hword; now destruct (is_word x)).
  rewrite run_around. unfold at_boundary. cbn [prev rest app hd_error opt_test].
  rewrite Hpv, Hx. cbn [xorb]. change (x :: word ++ r) with ((x :: word) ++ r).
  rewrite run_from_letter. unfold numeral_around.
  destruct (forallb is_decimal (x :: word)) eqn:Hall.
  - (* the word is all digits: no letter *)
    rewrite dropwhile_app_all by exact Hall. rewrite (ends_word_decimal r Hr).
    assert (E : dropwhile is_decimal (x :: word) = []).
    { rewrite <- (app_nil_r (x :: word)) at 1. now rewrite dropwhile_app_all. }
    rewrite E. split; [discriminate|]. intros _.
    destruct r as [|y t]; [reflexivity|]. cbn [ends_word] in Hr.
    destruct (q y) eqn:Eq; [|reflexivity]. apply q_word in Eq. rewrite Eq in Hr. discriminate.
  - rewrite dropwhile_app_stop by exact Hall.
    destruct (dropwhile_stop_head is_decimal (x :: word) Hall) as (y & t & E & Hy & Hin).
    rewrite E. cbn [app]. rewrite <- q_reads.
    destruct (q y) eqn:Eq; cbn [andb]; [|split; [discriminate | reflexivity]].
    destruct (forallb is_decimal t) eqn:Ht.
    + rewrite dropwhile_app_all by exact Ht. rewrite (ends_word_decimal r Hr), Hr.
      split; [|discriminate]. intros _. eexists. split; [|reflexivity].
      apply last_of_word. cbn [opt_test]. now apply q_word.
    + rewrite dropwhile_app_stop by exact Ht.
      destruct (dropwhile_stop_head is_decimal t Ht) as (z & t' & E' & Hz & Hin').
      rewrite E'. cbn [app ends_word].
      assert (Hzw : is_word z = true).
      { rewrite forallb_forall in Hword. apply Hword.
        apply (dropwhile_In is_decimal). rewrite E. now right. }
      rewrite Hzw. cbn [negb]. split; [discriminate | reflexivity].
Qed.

Variable new : char.

Lemma fix_word_nil : fix_word c new [] = [].
Proof. reflexivity. Qed.

(** The scan of the pattern over a text: inside a word ([pv] a word
    character) the rest of the word is kept and the scan goes on behind
    it; elsewhere every word is rewritten or kept as a whole. *)
Lemma scan_around fuel : forall pv s,
  (length s < fuel)%nat ->
  flat_map (render (fun m => replace c [new] m))
           (scan (cat [b; star digit; Chr q; star digit; b]) fuel pv s)
  = if opt_test is_word pv
    then takewhile is_word s ++ map_words (fix_word c new) [] (dropwhile is_word s)
    else map_words (fix_word c new) [] s.
Proof.
  induction fuel as [|fuel IH]; intros pv s Hlen; [lia|].
  destruct (opt_test is_word pv) eqn:Hpv.
  - (* inside a word *)
    cbn [scan]. rewrite run_around_inside by exact Hpv.
    destruct s as [|y t]; [reflexivity|].
    cbn [flat_map render app takewhile dropwhile]. rewrite IH by (simpl in Hlen; lia).
    cbn [opt_test]. destruct (is_word y) eqn:Ey; [reflexivity|].
    now rewrite (map_words_gap _ fix_word_nil y t Ey).
  - destruct s as [|y t].
    + cbn [scan]. now rewrite run_around_gap.
    + destruct (is_word y) eqn:Ey.
      * (* the start of a word *)
        pose proof (takewhile_dropwhile is_word t) as Hsplit.
        assert (Hword : forallb is_word (y :: takewhile is_word t) = true)
          by (cbn [forallb]; now rewrite Ey, takewhile_all).
        pose proof (dropwhile_ends is_word t) as Hr.
        destruct (run_around_word pv y (takewhile is_word t) (dropwhile is_word t)
                    Hpv Hword Hr) as [Hyes Hno].
        cbn [app] in Hyes, Hno. rewrite Hsplit in Hyes, Hno.
        rewrite <- Hsplit at 2.
        change (y :: takewhile is_word t ++ dropwhile is_word t)
          with ((y :: takewhile is_word t) ++ dropwhile is_word t).
        rewrite (map_words_end _ fix_word_nil _ _ Hword Hr).
        unfold fix_word at 1.
        destruct (numeral_around c (y :: takewhile is_word t)) eqn:En.
        -- destruct (Hyes eq_refl) as (pv' & Hpv' & Hrun).
           destruct (scan_step (cat [b; star digit; Chr q; star digit; b]) fuel pv (y :: t))
             as [[E _] | [(st' & tl & E & Hrest & _)
                         | (st' & tl & c0 & consumed & E & Hs & ->)]];
             rewrite Hrun in E; [discriminate | |]; injection E as <- <-.
           ++ cbn [rest] in Hrest. apply (f_equal (@length _)) in Hrest.
              rewrite <- Hsplit in Hrest at 2. cbn [length] in Hrest.
              rewrite length_app in Hrest. lia.
           ++ cbn [rest prev] in *. rewrite <- Hsplit in Hs at 1.
              change (y :: takewhile is_word t ++ dropwhile is_word t)
                with ((y :: takewhile is_word t) ++ dropwhile is_word t) in Hs.
              apply app_inv_tail in Hs. rewrite <- Hs.
              cbn [flat_map render]. rewrite IH.
              ** rewrite Hpv'. destruct (ends_word_take is_word _ Hr) as [-> ->].
                 reflexivity.
              ** pose proof (dropwhile_length is_word t). simpl in Hlen. lia.
        -- cbn [scan]. rewrite (Hno eq_refl). cbn [flat_map render app].
           rewrite IH by (simpl in Hlen; lia). cbn [opt_test]. now rewrite Ey.
      * cbn [scan]. rewrite run_around_gap by (trivial; cbn; now rewrite Ey).
        cbn [flat_map render app]. rewrite IH by (simpl in Hlen; lia).
        cbn [opt_test]. rewrite Ey. now rewrite (map_words_gap _ fix_word_nil y t Ey).
Qed.

(** [re.sub(r'\b\d*c\d*\b', lambda m: m.group().replace(c, new), s)]. *)
Lemma sub_with_around (s : str) :
  sub_with (cat [b; star digit; Chr q; star digit; b]) (fun m => replace c [new] m) s
  = map_words (fix_word c new) [] s.
Proof. unfold sub_with, segments. apply (scan_around (S (length s)) None s). lia. Qed.

End Words.

Section Passes.
Context {U : Unicode}.

(** Two passes over the words are one pass, when the first writes words
    for words. *)
Lemma map_words_compose (f g : str -> str) :
  f [] = [] -> g [] = [] ->
  (forall word, forallb is_word word = true -> forallb is_word (f word) = true) ->
  forall s acc, forallb is_word acc = true ->
    map_words g [] (map_words f acc s) = map_words (fun word => g (f word)) acc s.
Proof.
  intros Hf Hg Hword.
  assert (Hlast : forall v, forallb is_word v = true -> map_words g [] v = g v).
  { intros v Hv. rewrite <- (app_nil_r v) at 1. rewrite map_words_word by exact Hv.
    cbn [map_words]. now rewrite app_nil_r, rev_involutive. }
  induction s as [|x t IH]; intros acc Hacc; cbn [map_words].
  - apply Hlast, Hword. rewrite forallb_forall in *. intros y Hy. apply Hacc.
    now apply in_rev.
  - destruct (is_word x) eqn:Ex.
    + apply IH. cbn [forallb]. now rewrite Ex.
    + assert (Hv : forallb is_word (f (rev acc)) = true).
      { apply Hword. rewrite forallb_forall in *. intros y Hy. apply Hacc. now apply in_rev. }
      rewrite map_words_word by exact Hv. cbn [map_words]. rewrite Ex.
      rewrite app_nil_r, rev_involutive. f_equal. f_equal. now apply IH.
Qed.

Lemma fix_word_words (c new : char) (word : str) :
  is_word new = true ->
  forallb is_word word = true -> forallb is_word (fix_word c new word) = true.
Proof.
  intros Hnew Hword. unfold fix_word. destruct (numeral_around c word); [|exact Hword].
  rewrite replace_map. rewrite forallb_forall in *. intros y Hy.
  apply in_map_iff in Hy. destruct Hy as (x & <- & Hx).
  destruct (char_eqb x c); [exact Hnew | now apply Hword].
Qed.

(** A numeral around [c] is all digits once [c] is rewritten to a digit. *)
Lemma numeral_rewritten (c new : char) (word : str) :
  is_decimal c = false -> is_decimal new = true -> numeral_around c word = true ->
  forallb is_decimal (replace c [new] word) = true.
Proof.
  intros Hc Hnew H. unfold numeral_around in H.
  rewrite <- (takewhile_dropwhile is_decimal word).
  destruct (dropwhile is_decimal word) as [|x t]; [discriminate|].
  apply andb_true_iff in H. destruct H as [Hx Ht].
  unfold char_eqb in Hx. apply N.eqb_eq in Hx. subst x.
  rewrite replace_map, map_app, forallb_app. cbn [map forallb].
  unfold char_eqb at 2. rewrite N.eqb_refl, Hnew. cbn [andb].
  assert (Hkeep : forall l, forallb is_decimal l = true ->
            forallb is_decimal (map (fun x => if char_eqb x c then new else x) l) = true).
  { intros l Hl. rewrite forallb_forall in *. intros y Hy.
    apply in_map_iff in Hy. destruct Hy as (x & <- & Hin).
    destruct (char_eqb x c); [exact Hnew | now apply Hl]. }
  rewrite (Hkeep _ (takewhile_all is_decimal word)), (Hkeep _ Ht). reflexivity.
Qed.

(** What the two passes do to one word. *)
Lemma numeral_fix_cases (word : str) :
  numeral_fix word
  = if numeral_around 79%N word then replace 79%N [48%N] word
    else if numeral_around 108%N word then replace 108%N [49%N] word
    else word.
Proof.
  unfold numeral_fix. unfold fix_word at 2.
  destruct (numeral_around 79%N word) eqn:E; [|reflexivity].
  unfold fix_word, numeral_around.
  assert (Hall : forallb is_decimal (replace 79%N [48%N] word) = true)
    by (apply numeral_rewritten; [reflexivity | reflexivity | exact E]).
  match goal with
  | |- context [dropwhile ?p ?l] =>
      assert (E0 : dropwhile p l = [])
        by (rewrite <- (app_nil_r l); now rewrite dropwhile_app_all);
      rewrite E0
  end. reflexivity.
Qed.

End Passes.

(** C8 (amended). [_clean_cell_text] leaves a cell that holds no digit as
    it is, whitespace collapsing apart; in any cell, what it writes
    differs from the collapsed cell at most by a [0] in the place of an [O]
    and a [1] in the place of an [l].  In a cell that holds a digit it
    works word by word, a word being a maximal run of letters, digits and
    underscores: a word made of decimal digits around one [O] gets [0] for
    the [O], a word made of decimal digits around one [l] gets [1] for the
    [l], and every other word, and every character between the words, is
    kept.  So a word without a digit of its own is rewritten when it is a
    lone [O] or [l] (["O 5"] becomes ["0 5"]), and an [O] or [l] next to
    another letter is kept (["HELLO 5"], ["Oct 5"]).  The tables of the
    Unicode database are taken to list every decimal digit as
    alphanumeric, as [str.isalnum] is defined. *)
Theorem clean_cell_text_words (U : Unicode) :
  (forall c, uni_decimal c <> None -> uni_isalnum c = true) ->
  (forall text, existsb isdigit text = false ->
     _clean_cell_text text = join (u " ") (Py.split text)) /\
  (forall text, Forall2 rewritten (join (u " ") (Py.split text)) (_clean_cell_text text)) /\
  (forall text,
     let cell := join (u " ") (Py.split text) in
     existsb isdigit cell = true ->
     _clean_cell_text text = map_words numeral_fix [] cell) /\
  (forall word,
     numeral_fix word
     = if numeral_around 79%N word then replace 79%N (u "0") word
       else if numeral_around 108%N word then replace 108%N (u "1") word
       else word) /\
  _clean_cell_text (u "O 5") = u "0 5" /\
  _clean_cell_text (u "1O0  l2") = u "100 12" /\
  _clean_cell_text (u "HELLO 5") = u "HELLO 5" /\
  _clean_cell_text (u "Oct 5") = u "Oct 5".
Proof.
  intros Hcoherent.
  split; [exact clean_cell_text_no_digit|].
  split; [exact clean_cell_text_pointwise|].
  split; [|split; [exact numeral_fix_cases | repeat split; vm_compute; reflexivity]].
  intros text cell Hdigit. unfold _clean_cell_text.
  destruct text as [|x t]; [discriminate Hdigit|].
  fold cell. rewrite Hdigit.
  assert (Hq : forall (c : char) (letter : string), u letter = [c] ->
            forall y, existsb (char_eqb y) (u letter) = char_eqb y c).
  { intros c letter -> y. cbn [existsb]. apply orb_false_r. }
  unfold chr. change (u "0") with [48%N]. change (u "1") with [49%N].
  pose proof (sub_with_around Hcoherent 79%N _ (Hq 79%N "O"%string eq_refl)
                eq_refl eq_refl 48%N cell) as E1.
  pose proof (sub_with_around Hcoherent 108%N _ (Hq 108%N "l"%string eq_refl)
                eq_refl eq_refl 49%N (map_words (fix_word 79%N 48%N) [] cell)) as E2.
  pose proof (map_words_compose (fix_word 79%N 48%N) (fix_word 108%N 49%N)
                eq_refl eq_refl (fun word => fix_word_words 79%N 48%N word eq_refl)
                cell [] eq_refl) as E3.
  clear Hq. unfold str, char in *. rewrite E1, E2. exact E3.
Qed.

(** C8 at the ASCII tables, on a cell with a month, a lone [O] and two
    numerals. *)
Lemma clean_cell_text_words_witness :
  @_clean_cell_text ascii_only (u "Oct  O 1O0 l2")
  = @map_words ascii_only (@numeral_fix ascii_only) [] (u "Oct O 1O0 l2").
Proof.
  assert (H : forall c, @uni_decimal ascii_only c <> None -> @uni_isalnum ascii_only c = true)
    by (intros c Hc; now contradiction Hc).
  assert (Hd : existsb (@isdigit ascii_only) (join (u " ") (Py.split (u "Oct  O 1O0 l2"))) = true)
    by (vm_compute; reflexivity).
  exact (proj1 (proj2 (proj2 (clean_cell_text_words ascii_only H))) (u "Oct  O 1O0 l2") Hd).
Defined.

(** C8 as stated fails: in the cell ["O 5"] the token ["O"] holds no
    digit, and comes out as ["0"]. *)
Lemma clean_cell_text_rewrites_digitless_token :
  Py.split (u "O 5") = [u "O"; u "5"] /\
  existsb (@isdigit ascii_only) (u "O") = false /\
  Py.split (@_clean_cell_text ascii_only (u "O 5")) = [u "0"; u "5"].
Proof. repeat split; vm_compute; reflexivity. Qed.

End CellFacts.

(** ** The character-level line reconstruction *)

Module CharsFacts.
Import DocumentProcessor.

Lemma insert_sorted_descending (a : Z) (l : list Z) :
  Sorted Z.ge l -> Sorted Z.ge (insert_sorted Z.geb a l).
Proof.
  induction l as [|b t IH]; intros Hs; simpl.
  - repeat constructor.
  - destruct (Z.geb_spec a b) as [Hab|Hab].
    + constructor; [exact Hs|]. constructor. lia.
    + inversion Hs as [|? ? Ht Hhd]; subst. constructor; [apply IH, Ht|].
      destruct t as [|c t]; simpl.
      * constructor. lia.
      * destruct (Z.geb_spec a c); constructor; [lia|].
        inversion Hhd; subst. assumption.
Qed.

Lemma sorted_descending (l : list Z) : Sorted Z.ge (sorted Z.geb l).
Proof.
  induction l as [|a l IH]; simpl; [constructor|]. now apply insert_sorted_descending.
Qed.

(** C9, where the code departs from it.  The lines are taken in the order
    [sorted(lines.keys(), reverse=True)], that is by descending rounded
    [top]: the line farthest from the top of the page comes first.  For
    the four characters of [Hi] (at 100 and 100.02 from the top) and [Yo]
    (at 120.04 and 120 from the top), given right to left, the result is
    [Yo] and then [Hi]. *)
Theorem extract_from_chars_lowest_line_first :
  (forall lines : list (Z * list pdf_char), Sorted Z.ge (sorted Z.geb (map fst lines))) /\
  _extract_from_chars
    [ {| ch_text := u "i"; top := 10002 # 100; x0 := 16 # 1 |};
      {| ch_text := u "H"; top := 100 # 1; x0 := 10 # 1 |};
      {| ch_text := u "o"; top := 120 # 1; x0 := 16 # 1 |};
      {| ch_text := u "Y"; top := 12004 # 100; x0 := 10 # 1 |} ]%Q
  = u "Yo" ++ nl ++ u "Hi".
Proof.
  split; [intros lines; apply sorted_descending | vm_compute; reflexivity].
Qed.

End CharsFacts.

(* ================================================================== *)
(** * Part III: further properties of the code                         *)
(* ================================================================== *)

(** ** The orchestrator's fallback chain *)

Module FallbackFacts.
Import DocumentProcessor.
Local Open Scope Z_scope.

(** A file that is no utility bill, or any file when OCR is off: when
    pdfplumber returns more than 200 characters (stripped), [_extract_pdf]
    returns that text normalized and calls no other extractor. *)
Theorem pdfplumber_accepted_over_200
  (U : Unicode) (B : Backends) (self : processor) (file_path : Path) (text : str) :
  _is_utility_bill (name file_path) = false \/ use_ocr self = false ->
  pdfplumber_outcome file_path = Ok text ->
  200 < len (strip text) ->
  _extract_pdf self file_path [] = ([PdfPlumber], Ok (_clean_text text)).
Proof.
  intros Hfirst Hout Hlen.
  unfold _extract_pdf, _extract_pdf_try, bill_ocr_step, standard_methods, try_except, bind.
  assert (E : (if _is_utility_bill (name file_path)
               then if use_ocr self
                    then bind (_extract_pdf_ocr file_path)
                           (fun ocr_text =>
                              if len (strip ocr_text) >? 50
                              then ret (Some (_clean_text ocr_text)) else ret None)
                    else ret None
               else ret None) [] = ([], Ok None)).
  { destruct Hfirst as [-> | ->]; [reflexivity|].
    destruct (_is_utility_bill (name file_path)); reflexivity. }
  unfold bind in E. rewrite E.
  unfold _extract_pdf_pdfplumber, call. rewrite Hout. cbn [app].
  destruct (Z.gtb_spec (len (strip text)) 200); [reflexivity | lia].
Qed.

Lemma pdfplumber_accepted_witness :
  @_extract_pdf ascii_only native_pdf default_processor report_pdf []
  = ([PdfPlumber], Ok (@_clean_text ascii_only native_text)).
Proof.
  assert (H1 : @_is_utility_bill ascii_only (name report_pdf) = false
               \/ use_ocr default_processor = false)
    by (left; vm_compute; reflexivity).
  assert (H2 : @pdfplumber_outcome native_pdf report_pdf = Ok native_text) by reflexivity.
  assert (H3 : 200 < len (strip native_text)) by (vm_compute; reflexivity).
  exact (pdfplumber_accepted_over_200 ascii_only native_pdf default_processor report_pdf
           native_text H1 H2 H3).
Defined.

(** Whatever the back ends answer, [_extract_pdf] calls the extractors in
    one of six orders: each extractor at most once, pdfplumber before
    PyMuPDF, and OCR either first or last.  OCR is called only when it is
    enabled, and it is called first exactly for a utility bill with OCR
    enabled. *)
Theorem extract_pdf_call_order
  (U : Unicode) (B : Backends) (self : processor) (file_path : Path) :
  let log := fst (_extract_pdf self file_path []) in
  In log [ [OCR]; [OCR; PdfPlumber]; [OCR; PdfPlumber; PyMuPDF];
           [PdfPlumber]; [PdfPlumber; PyMuPDF]; [PdfPlumber; PyMuPDF; OCR] ] /\
  (In OCR log -> use_ocr self = true) /\
  (hd_error log = Some OCR <->
   _is_utility_bill (name file_path) = true /\ use_ocr self = true).
Proof.
  cbv zeta.
  unfold _extract_pdf, _extract_pdf_try, bill_ocr_step, standard_methods, try_except, bind,
    ret, _extract_pdf_ocr, _extract_pdf_pdfplumber, _extract_pdf_pymupdf, call.
  destruct (_is_utility_bill (name file_path)) eqn:Hbill;
    destruct (use_ocr self) eqn:Hocr;
    destruct (ocr_outcome file_path) as [ocr_text|e1];
    destruct (pdfplumber_outcome file_path) as [text|e2];
    destruct (pymupdf_outcome file_path) as [pymupdf_text|e3];
    cbn [app negb andb]; rewrite ?andb_false_r, ?andb_true_r; cbn [app negb andb];
    repeat match goal with
           | |- context [if ?c then _ else _] => destruct c; cbn [app negb andb fst]
           end;
    cbn [fst hd_error In];
    (split; [auto 10|]); (split; [intros H; intuition discriminate|]);
    (split; [intros H; try discriminate; auto | intros [H1 H2]; try discriminate; auto]).
Qed.

End FallbackFacts.

(** ** What the normalizer writes, and what [load_documents] returns *)

Module NormalizedFacts.
Import Re ReFacts NormalizerFacts DocumentProcessor.
Local Open Scope Z_scope.

Lemma squeeze_blank_or_ink (s : str) : forall b, forallb blank_or_ink (squeeze b s) = true.
Proof.
  induction s as [|c t IH]; intros b; [reflexivity|]. cbn [squeeze].
  destruct (isspace c) eqn:Hc; [destruct b|]; cbn [forallb]; rewrite ?IH; try reflexivity.
  unfold blank_or_ink. now rewrite Hc.
Qed.

Lemma forallb_filter (P q : char -> bool) (s : str) :
  forallb P s = true -> forallb P (filter q s) = true.
Proof.
  induction s as [|c t IH]; [reflexivity|]. cbn [forallb filter]. intros H.
  apply andb_true_iff in H. destruct H as [Hc Ht].
  destruct (q c); cbn [forallb]; rewrite ?Hc; auto.
Qed.

Lemma dash_blank_or_ink (s : str) :
  forallb blank_or_ink s = true -> forallb blank_or_ink (map dash s) = true.
Proof.
  induction s as [|c t IH]; [reflexivity|]. cbn [map forallb]. intros H.
  apply andb_true_iff in H. destruct H as [Hc Ht]. rewrite (IH Ht), andb_true_r.
  destruct (dash_cases c) as [E | [E _]]; rewrite E; [exact Hc | reflexivity].
Qed.

Lemma forallb_suffix (P : char -> bool) (pre post : str) :
  forallb P (pre ++ post) = true -> forallb P post = true.
Proof. rewrite forallb_app. intros H. apply andb_true_iff in H. apply H. Qed.

(** Without a newline in the text, the pattern of line 403 matches
    nowhere. *)
Lemma sub_blank_lines_none (s : str) :
  forallb (fun c => negb (char_eqb 10%N c)) s = true ->
  sub (cat [newline; star space; newline]) (nl ++ nl) s = s.
Proof.
  intros H. apply sub_no_match. intros pre post pv' E. rewrite E in H.
  apply forallb_suffix in H.
  change (cat [newline; star space; newline])
    with (Seq (Chr (char_eqb 10%N)) (Seq (star space) newline)).
  apply run_seq_chr_fail. destruct post as [|c t]; [exact I|].
  cbn [forallb] in H. apply andb_true_iff in H. destruct H as [Hc _].
  now apply negb_true_iff in Hc.
Qed.

Lemma blank_or_ink_no_newline (s : str) :
  forallb blank_or_ink s = true -> forallb (fun c => negb (char_eqb 10%N c)) s = true.
Proof.
  induction s as [|c t IH]; [reflexivity|]. cbn [forallb]. intros H.
  apply andb_true_iff in H. destruct H as [Hc Ht]. rewrite (IH Ht), andb_true_r.
  unfold char_eqb. destruct (N.eqb_spec 10%N c) as [<-|]; [discriminate | reflexivity].
Qed.

Section Output.
Context {U : Unicode}.

Lemma clean_text_blank_or_ink (s : str) : forallb blank_or_ink (_clean_text s) = true.
Proof.
  unfold _clean_text.
  assert (H : forallb blank_or_ink
                (apply_replacements
                   (sub (Chr (fun c => negb (kept c))) []
                      (sub (plus space) (u " ") (strip s)))) = true).
  { rewrite apply_replacements_map, sub_chr_delete, sub_plus_space.
    apply dash_blank_or_ink, forallb_filter, squeeze_blank_or_ink. }
  rewrite (sub_blank_lines_none _ (blank_or_ink_no_newline _ H)).
  apply sub_forallb; [reflexivity | exact H].
Qed.

Lemma extract_pdf_kept (B : Backends) (self : processor) (file_path : Path)
  (log : list strategy) (content : str) :
  snd (_extract_pdf self file_path log) = Ok content ->
  forallb kept content = true /\ forallb blank_or_ink content = true.
Proof.
  unfold _extract_pdf, _extract_pdf_try, bill_ocr_step, standard_methods, try_except, bind,
    ret, _extract_pdf_ocr, _extract_pdf_pdfplumber, _extract_pdf_pymupdf, call.
  destruct (_is_utility_bill (name file_path)); destruct (use_ocr self);
    destruct (ocr_outcome file_path) as [ocr_text|e1];
    destruct (pdfplumber_outcome file_path) as [text|e2];
    destruct (pymupdf_outcome file_path) as [pymupdf_text|e3];
    cbn [app negb andb]; rewrite ?andb_false_r, ?andb_true_r; cbn [app negb andb];
    repeat match goal with
           | |- context [if ?c then _ else _] => destruct c; cbn [app negb andb snd]
           end;
    cbn [snd]; intros H; injection H as <-;
    first [ split; [apply clean_text_all_kept | apply clean_text_blank_or_ink]
          | split; reflexivity ].
Qed.

End Output.

(** For every text, each character of [_clean_text(text)] is one the filter
    of line 379 keeps, and its only whitespace character is the blank: the
    result holds no newline and no tab, so the pattern of line 403 never
    has anything to match. *)
Theorem clean_text_output (U : Unicode) (text : str) :
  forallb kept (_clean_text text) = true /\
  (forall c, In c (_clean_text text) -> isspace c = true -> c = 32%N) /\
  ~ In 10%N (_clean_text text).
Proof.
  pose proof (clean_text_blank_or_ink text) as H.
  assert (Hsp : forall c, In c (_clean_text text) -> isspace c = true -> c = 32%N).
  { intros c Hin Hc. rewrite forallb_forall in H. specialize (H c Hin).
    unfold blank_or_ink in H. rewrite Hc in H. cbn [negb orb] in H.
    apply N.eqb_eq in H. exact H. }
  split; [apply clean_text_all_kept|]. split; [exact Hsp|].
  intros Hin. assert (E : 10%N = 32%N) by (apply Hsp; [exact Hin | reflexivity]).
  clear - E. discriminate.
Qed.

(** On a text whose characters are all kept by the filter of line 379,
    [_clean_text] returns a text without leading or trailing whitespace
    and without two whitespace characters in a row: stripping it or
    collapsing its whitespace again changes nothing. *)
Theorem clean_text_tidy_on_kept (U : Unicode) (text : str) :
  forallb kept text = true ->
  tidy (_clean_text text) = true /\
  strip (_clean_text text) = _clean_text text /\
  sub (plus space) (u " ") (_clean_text text) = _clean_text text.
Proof.
  intros H.
  assert (Ht : tidy (_clean_text text) = true).
  { rewrite (clean_text_kept text H), tidy_dash. apply squeeze_strip_tidy. }
  split; [exact Ht|]. split; [now apply tidy_strip|].
  rewrite sub_plus_space. now apply tidy_squeeze.
Qed.

Lemma clean_text_tidy_witness :
  let text := u "  Account:   12345678  (Total $150.00) " in
  strip (@_clean_text ascii_only text) = @_clean_text ascii_only text.
Proof.
  intros text.
  assert (H : forallb (@kept ascii_only) text = true) by (vm_compute; reflexivity).
  exact (proj1 (proj2 (clean_text_tidy_on_kept ascii_only text H))).
Defined.

Section Loading.
Context {U : Unicode} {B : Backends}.
Variable self : processor.

(** One file gives no document, or one with a normalized text that is not
    blank. *)
Lemma load_document_cases (file_path : Path) (log : list strategy) :
  snd (load_document self file_path log) = Ok None \/
  exists content,
    snd (load_document self file_path log)
    = Ok (Some {| doc_content := content;
                  doc_source := path_str file_path;
                  doc_filename := name file_path |}) /\
    strip content <> [] /\ forallb kept content = true /\
    forallb blank_or_ink content = true.
Proof.
  assert (Hlen : forall content : str, len (strip content) > 0 -> strip content <> []).
  { intros content Hpos E. rewrite E in Hpos. unfold len in Hpos. simpl in Hpos. lia. }
  unfold load_document, try_except, bind, ret.
  destruct (str_eqb (lower (suffix file_path)) (u ".pdf")).
  - destruct (_extract_pdf self file_path log) as [log' [content|e]] eqn:E;
      [|left; reflexivity].
    destruct (extract_pdf_kept B self file_path log content) as [Hk Hb]; [now rewrite E|].
    destruct content as [|c t]; [left; reflexivity|].
    destruct (Z.gtb_spec (len (strip (c :: t))) 0); [|left; reflexivity].
    right. exists (c :: t). split; [reflexivity|]. split; [apply Hlen; lia | now split].
  - destruct (str_eqb (lower (suffix file_path)) (u ".docx")
              || str_eqb (lower (suffix file_path)) (u ".doc")).
    + unfold _extract_docx. destruct (docx_outcome file_path) as [text|e];
        [|left; reflexivity].
      pose proof (clean_text_all_kept text) as Hk.
      pose proof (clean_text_blank_or_ink text) as Hb.
      destruct (_clean_text text) as [|c t]; [left; reflexivity|].
      destruct (Z.gtb_spec (len (strip (c :: t))) 0); [|left; reflexivity].
      right. exists (c :: t). split; [reflexivity|]. split; [apply Hlen; lia | now split].
    + destruct (str_eqb (lower (suffix file_path)) (u ".txt")); [|left; reflexivity].
      unfold _extract_text. destruct (read_outcome file_path) as [text|e];
        [|left; reflexivity].
      pose proof (clean_text_all_kept text) as Hk.
      pose proof (clean_text_blank_or_ink text) as Hb.
      destruct (_clean_text text) as [|c t]; [left; reflexivity|].
      destruct (Z.gtb_spec (len (strip (c :: t))) 0); [|left; reflexivity].
      right. exists (c :: t). split; [reflexivity|]. split; [apply Hlen; lia | now split].
Qed.

End Loading.

End NormalizedFacts.

(** ** The loop of [load_documents], with its messages *)

Module ListingFacts.
Import NormalizerFacts NormalizedFacts DocumentProcessor Console ConsoleFacts.
Local Open Scope Z_scope.

Lemma appends_impl {A : Type} (good good' : document -> Prop) (n : nat) (m : IO A) :
  (forall doc, good doc -> good' doc) -> appends good n m -> appends good' n m.
Proof.
  intros Himp Hm w w' r E. destruct (Hm w w' r E) as (added & Hd & Hl & Hg).
  exists added. split; [exact Hd|]. split; [exact Hl|].
  eapply Forall_impl; [exact Himp | exact Hg].
Qed.

Lemma returns_bind_post {A B : Type} (Q : A -> Prop) (P : B -> Prop) (m : IO A)
  (f : A -> IO B) :
  returns Q m -> (forall a, Q a -> returns P (f a)) -> returns P (bind m f).
Proof.
  intros Hm Hf w w' b E. unfold Console.bind in E.
  destruct (m w) as [w1 [a|e]] eqn:Em; [|discriminate].
  exact (Hf a (Hm _ _ _ Em) _ _ _ E).
Qed.

Lemma returns_outcome {A : Type} (r : result A) : returns (fun a => r = Ok a) (outcome r).
Proof. intros w w' a E. now injection E as _ ->. Qed.

Section Listing.
Context {U : Unicode} {B : Backends} {C : Stdout}.
Variable self : processor.

Lemma extract_pdf_returns (file_path : Path) :
  returns (fun content => forallb kept content = true /\ forallb blank_or_ink content = true)
          (Console._extract_pdf self file_path).
Proof.
  unfold Console._extract_pdf. apply returns_try.
  - unfold Console._extract_pdf_try.
    apply (returns_bind_post
             (fun accepted => match accepted with
                              | Some content =>
                                  forallb kept content = true /\
                                  forallb blank_or_ink content = true
                              | None => True
                              end)).
    + unfold Console.bill_ocr_step. returns_at_end; apply returns_ret;
        first [ exact I | split; [apply clean_text_all_kept | apply clean_text_blank_or_ink] ].
    + intros [content|] Hc; [apply returns_ret; exact Hc|].
      unfold Console.standard_methods. returns_at_end; apply returns_ret;
        (split; [apply clean_text_all_kept | apply clean_text_blank_or_ink]).
  - intros e. apply returns_bind. intros _. apply returns_ret. split; reflexivity.
Qed.

Lemma lift_cleaned_returns (outcome_of : Path -> result str) (file_path : Path) :
  returns (fun content => forallb kept content = true /\ forallb blank_or_ink content = true)
          (lift (fun log => match outcome_of file_path with
                            | Ok text => (log, Ok (_clean_text text))
                            | Raise e => (log, Raise e)
                            end)).
Proof.
  intros w w' content E. unfold lift in E.
  destruct (outcome_of file_path) as [text|e]; [|discriminate].
  injection E as _ <-. split; [apply clean_text_all_kept | apply clean_text_blank_or_ink].
Qed.

(** For one file the loop appends at most one document, built for that
    file, however the body ends. *)
Lemma load_document_appends (file_path : Path) :
  appends (loaded_from file_path) 1 (Console.load_document self file_path).
Proof.
  unfold Console.load_document. cbv zeta.
  apply (appends_try _ 1 0); [|intros e; apply appends_print].
  apply (appends_bind_post _
           (fun extracted => match extracted with
                             | Some content =>
                                 forallb kept content = true /\
                                 forallb blank_or_ink content = true
                             | None => True
                             end) 0 1).
  - assert (Hsome : forall m : IO str,
              returns (fun content => forallb kept content = true /\
                                      forallb blank_or_ink content = true) m ->
              returns (fun extracted => match extracted with
                                        | Some content =>
                                            forallb kept content = true /\
                                            forallb blank_or_ink content = true
                                        | None => True
                                        end)
                      (bind m (fun content => Console.ret (Some content)))).
    { intros m Hm. eapply returns_bind_post; [exact Hm|].
      intros content Hc. apply returns_ret. exact Hc. }
    destruct (str_eqb (lower (suffix file_path)) (u ".pdf")).
    + apply returns_bind. intros _. apply Hsome, extract_pdf_returns.
    + destruct (str_eqb (lower (suffix file_path)) (u ".docx")
                || str_eqb (lower (suffix file_path)) (u ".doc")).
      * apply returns_bind. intros _. apply Hsome.
        apply (lift_cleaned_returns docx_outcome).
      * destruct (str_eqb (lower (suffix file_path)) (u ".txt")).
        -- apply returns_bind. intros _. apply Hsome.
           apply (lift_cleaned_returns read_outcome).
        -- apply returns_ret. exact I.
  - destruct (str_eqb (lower (suffix file_path)) (u ".pdf"));
      [|destruct (str_eqb (lower (suffix file_path)) (u ".docx")
                 || str_eqb (lower (suffix file_path)) (u ".doc"));
        [|destruct (str_eqb (lower (suffix file_path)) (u ".txt"))]];
      repeat first [ apply extract_pdf_appends | apply appends_ret | apply appends_print
                   | apply appends_lift | apply (appends_bind _ 0 0); [|intros ?] ].
  - intros [content|] Hc; [|apply (appends_weaken _ 0 1); [lia | apply appends_ret]].
    destruct content as [|c t]; [apply (appends_weaken _ 0 1); [lia | apply appends_print]|].
    destruct (Z.gtb_spec (len (strip (c :: t))) 0) as [Hpos|_];
      [|apply (appends_weaken _ 0 1); [lia | apply appends_print]].
    apply (appends_bind _ 1 0); [|intros _; apply appends_print].
    apply appends_append. unfold loaded_from. cbn [doc_content doc_source doc_filename].
    split; [reflexivity|]. split; [reflexivity|]. split; [|exact Hc].
    intros E. rewrite E in Hpos. unfold len in Hpos. simpl in Hpos. lia.
Qed.

(** The body of the loop raises only when its error report cannot be
    written. *)
Lemma load_document_raises (file_path : Path) (w w' : world) (e : exn) :
  Console.load_document self file_path w = (w', Raise e) ->
  exists e0, write (processing_report file_path e0) = Raise e.
Proof.
  unfold Console.load_document, Console.try_except. cbv zeta.
  match goal with
  | |- (match ?body with _ => _ end) = _ -> _ => destruct body as [w1 [[]|e0]]
  end; [discriminate|].
  unfold print, outcome. intros H. injection H as _ H. exists e0. exact H.
Qed.

Lemma load_document_absorbs (file_path : Path) (w : world) :
  (forall e, write (processing_report file_path e) = Ok tt) ->
  exists w', Console.load_document self file_path w = (w', Ok tt).
Proof.
  intros Hreport. destruct (Console.load_document self file_path w) as [w' [[]|e]] eqn:E;
    [now exists w'|].
  destruct (load_document_raises _ _ _ _ E) as (e0 & He0). rewrite Hreport in He0.
  discriminate.
Qed.

Lemma load_entries_appends (entries : list entry) (glob_end : option exn) :
  appends (fun doc => exists file, In file entries /\ is_file file = Ok true /\
                                   loaded_from (entry_path file) doc)
          (length entries) (load_entries self entries glob_end).
Proof.
  induction entries as [|file rest IH].
  - cbn [load_entries length]. destruct glob_end; [apply appends_raise | apply appends_ret].
  - cbn [load_entries length].
    apply (appends_bind_post _ (fun found => is_file file = Ok found) 0 (S (length rest)));
      [apply returns_outcome | apply appends_outcome|].
    intros found Hfound. apply (appends_bind _ 1 (length rest)).
    + destruct found; [|apply (appends_weaken _ 0 1); [lia | apply appends_ret]].
      eapply appends_impl; [|apply load_document_appends].
      intros doc Hdoc. exists file. split; [now left | now split].
    + intros _. eapply appends_impl; [|exact IH].
      intros doc (f & Hf & Hdoc). exists f. split; [now right | exact Hdoc].
Qed.

Lemma load_entries_raises (entries : list entry) (glob_end : option exn) :
  forall w w' e,
    load_entries self entries glob_end w = (w', Raise e) ->
    glob_end = Some e \/
    exists file, In file entries /\
      (is_file file = Raise e \/
       is_file file = Ok true /\
       exists e0, write (processing_report (entry_path file) e0) = Raise e).
Proof.
  induction entries as [|file rest IH]; intros w w' e E.
  - cbn [load_entries] in E. destruct glob_end as [e1|]; [|discriminate].
    injection E as _ ->. now left.
  - cbn [load_entries] in E. unfold Console.bind at 1, outcome in E.
    destruct (is_file file) as [found|e1] eqn:Efile.
    + unfold Console.bind in E. destruct found.
      * destruct (Console.load_document self (entry_path file) w) as [w1 [[]|e1]] eqn:E1.
        -- destruct (IH _ _ _ E) as [Hg | (f & Hf & Hcase)]; [now left|].
           right. exists f. split; [now right | exact Hcase].
        -- injection E as _ <-. right. exists file. split; [now left|]. right.
           split; [exact Efile | exact (load_document_raises _ _ _ _ E1)].
      * unfold Console.ret in E.
        destruct (IH _ _ _ E) as [Hg | (f & Hf & Hcase)]; [now left|].
        right. exists f. split; [now right | exact Hcase].
    + injection E as _ <-. right. exists file. split; [now left | now left].
Qed.

Lemma load_entries_absorbs (entries : list entry) :
  Forall (fun file => exists found, is_file file = Ok found) entries ->
  (forall file e, In file entries -> write (processing_report (entry_path file) e) = Ok tt) ->
  forall w, exists w', load_entries self entries None w = (w', Ok tt).
Proof.
  intros Hfiles Hreport w.
  destruct (load_entries self entries None w) as [w' [[]|e]] eqn:E; [now exists w'|].
  destruct (load_entries_raises _ _ _ _ _ E) as [Hg | (f & Hf & [Hcase | (_ & e0 & Hcase)])].
  - discriminate.
  - rewrite Forall_forall in Hfiles. destruct (Hfiles f Hf) as (found & Hfound).
    rewrite Hfound in Hcase. discriminate.
  - rewrite (Hreport f e0 Hf) in Hcase. discriminate.
Qed.

(** What [load_documents] returns, when it returns. *)
Lemma load_documents_returned (entries : list entry) (glob_end : option exn)
  (w w' : world) (docs : list document) :
  Console.load_documents self entries glob_end w = (w', Ok docs) ->
  (length docs <= length entries)%nat /\
  Forall (fun doc => exists file, In file entries /\ is_file file = Ok true /\
                                  loaded_from (entry_path file) doc) docs.
Proof.
  unfold Console.load_documents, Console.bind. cbn [calls documents]. intros E.
  destruct (load_entries self entries glob_end {| calls := calls w; documents := [] |})
    as [w1 [[]|e]] eqn:Eloop; [|discriminate].
  injection E as _ <-.
  destruct (load_entries_appends entries glob_end _ _ _ Eloop) as (added & Hd & Hl & Hg).
  rewrite Hd. cbn [documents app]. split; [exact Hl | exact Hg].
Qed.

Lemma load_documents_listed (entries : list entry) (w : world) :
  Forall (fun file => exists found, is_file file = Ok found) entries ->
  (forall file e, In file entries -> write (processing_report (entry_path file) e) = Ok tt) ->
  exists w' docs, Console.load_documents self entries None w = (w', Ok docs).
Proof.
  intros Hfiles Hreport. unfold Console.load_documents, Console.bind. cbn [calls documents].
  destruct (load_entries_absorbs entries Hfiles Hreport
              {| calls := calls w; documents := [] |}) as (w1 & ->).
  eauto.
Qed.

End Listing.

Section QuietListing.
Context {U : Unicode} {B : Backends} {C : Stdout}.
Variable self : processor.
Hypothesis takes_all : forall msg, write msg = Ok tt.

(** On a stream that takes every message, the body of the loop is
    [DocumentProcessor.load_document]. *)
Lemma load_document_quiet (file_path : Path) (w : world) :
  Console.load_document self file_path w
  = ({| calls := fst (DocumentProcessor.load_document self file_path (calls w));
        documents :=
          documents w ++
          match snd (DocumentProcessor.load_document self file_path (calls w)) with
          | Ok (Some doc) => [doc]
          | _ => []
          end |},
     Ok tt).
Proof.
  unfold Console.load_document, DocumentProcessor.load_document. cbv zeta.
  unfold Console.try_except, Console.bind, DocumentProcessor.try_except,
    DocumentProcessor.bind, DocumentProcessor.ret, Console.ret, print, outcome.
  destruct w as [log docs]. cbn [calls documents].
  destruct (str_eqb (lower (suffix file_path)) (u ".pdf")).
  - rewrite !takes_all, (extract_pdf_quiet self takes_all). cbn [calls documents].
    destruct (DocumentProcessor._extract_pdf self file_path log) as [log1 [content|e]];
      cbn [fst snd]; rewrite ?takes_all, ?app_nil_r; [|reflexivity].
    destruct content as [|c t]; rewrite ?takes_all, ?app_nil_r; [reflexivity|].
    destruct (len (strip (c :: t)) >? 0); unfold append; cbn [calls documents fst snd];
      rewrite ?takes_all, ?app_nil_r; reflexivity.
  - destruct (str_eqb (lower (suffix file_path)) (u ".docx")
              || str_eqb (lower (suffix file_path)) (u ".doc")).
    + rewrite !takes_all. unfold lift, _extract_docx. cbn [calls documents].
      destruct (docx_outcome file_path) as [text|e];
        cbn [fst snd]; rewrite ?takes_all, ?app_nil_r; [|reflexivity].
      destruct (_clean_text text) as [|c t]; rewrite ?takes_all, ?app_nil_r; [reflexivity|].
      destruct (len (strip (c :: t)) >? 0); unfold append; cbn [calls documents fst snd];
        rewrite ?takes_all, ?app_nil_r; reflexivity.
    + destruct (str_eqb (lower (suffix file_path)) (u ".txt"));
        [|cbn [fst snd]; rewrite app_nil_r; reflexivity].
      rewrite !takes_all. unfold lift, _extract_text. cbn [calls documents].
      destruct (read_outcome file_path) as [text|e];
        cbn [fst snd]; rewrite ?takes_all, ?app_nil_r; [|reflexivity].
      destruct (_clean_text text) as [|c t]; rewrite ?takes_all, ?app_nil_r; [reflexivity|].
      destruct (len (strip (c :: t)) >? 0); unfold append; cbn [calls documents fst snd];
        rewrite ?takes_all, ?app_nil_r; reflexivity.
Qed.

(** And the loop over what [glob] yields is [DocumentProcessor.load_documents]
    over the entries that are files. *)
Lemma load_entries_quiet (entries : list entry) :
  Forall (fun file => exists found, is_file file = Ok found) entries ->
  forall w, exists docs,
    DocumentProcessor.load_documents self (map entry_path (filter listed_file entries))
      (calls w)
    = (fst (DocumentProcessor.load_documents self
              (map entry_path (filter listed_file entries)) (calls w)),
       Ok docs) /\
    load_entries self entries None w
    = ({| calls := fst (DocumentProcessor.load_documents self
                          (map entry_path (filter listed_file entries)) (calls w));
          documents := documents w ++ docs |},
       Ok tt).
Proof.
  induction 1 as [|file rest (found & Hfile) _ IH]; intros w.
  - exists []. split; [reflexivity|]. cbn. rewrite app_nil_r. now destruct w.
  - assert (Hlisted : listed_file file = found).
    { unfold listed_file. rewrite Hfile. now destruct found. }
    cbn [load_entries filter]. rewrite Hlisted.
    unfold Console.bind at 1, outcome. rewrite Hfile. destruct found.
    + cbn [map DocumentProcessor.load_documents]. unfold Console.bind.
      rewrite load_document_quiet.
      pose proof (load_document_cases self (entry_path file) (calls w)) as Hone.
      unfold DocumentProcessor.bind, DocumentProcessor.ret.
      destruct (DocumentProcessor.load_document self (entry_path file) (calls w))
        as [log1 r1]. cbn [fst snd] in *.
      destruct (IH {| calls := log1;
                      documents := documents w ++
                                   match r1 with Ok (Some doc) => [doc] | _ => [] end |})
        as (docs & Hrun & Hloop).
      cbn [calls documents] in *. rewrite Hloop, Hrun. cbn [fst snd].
      destruct Hone as [-> | (content & -> & _)].
      * exists docs. rewrite app_nil_r. split; reflexivity.
      * eexists. cbn [fst snd]. split; [reflexivity|]. rewrite <- app_assoc. reflexivity.
    + unfold Console.bind, Console.ret. exact (IH w).
Qed.

End QuietListing.

(** [load_documents], with its messages and its directory listing.  When
    it returns, it returns at most one document for each entry: each
    document comes from an entry that is a file, with the path and the name
    of that file, and its text is not blank and is normalized.  It raises
    only an exception of the listing, of [is_file()], or of writing the
    error report of line 57: the errors of the extractors and of the other
    messages end there.  So it returns whenever the directory can be listed
    and these reports written; and on a standard output that takes every
    message it returns what [DocumentProcessor.load_documents] returns for
    the entries that are files.  An instance of raising: a folder with an
    entry for which [is_file()] raises [PermissionError]. *)
Theorem load_documents_absorbs
  (U : Unicode) (B : Backends) (C : Stdout) (self : processor)
  (entries : list entry) (glob_end : option exn) (w : world) :
  (forall w' docs,
     Console.load_documents self entries glob_end w = (w', Ok docs) ->
     (length docs <= length entries)%nat /\
     Forall (fun doc => exists file, In file entries /\ is_file file = Ok true /\
                                     loaded_from (entry_path file) doc) docs) /\
  (forall e,
     snd (Console.load_documents self entries glob_end w) = Raise e ->
     glob_end = Some e \/
     exists file, In file entries /\
       (is_file file = Raise e \/
        is_file file = Ok true /\
        exists e0, write (processing_report (entry_path file) e0) = Raise e)) /\
  (glob_end = None ->
   Forall (fun file => exists found, is_file file = Ok found) entries ->
   (forall file e, In file entries ->
      write (processing_report (entry_path file) e) = Ok tt) ->
   exists docs, snd (Console.load_documents self entries glob_end w) = Ok docs) /\
  (glob_end = None ->
   Forall (fun file => exists found, is_file file = Ok found) entries ->
   (forall msg, write msg = Ok tt) ->
   snd (Console.load_documents self entries glob_end w)
   = snd (DocumentProcessor.load_documents self
            (map entry_path (filter listed_file entries)) (calls w))) /\
  snd (@Console.load_documents ascii_only notes quiet default_processor locked_folder
         None nothing_yet)
  = Raise (Exception (u "PermissionError: Permission denied")).
Proof.
  split; [exact (load_documents_returned self entries glob_end w)|].
  unfold Console.load_documents, Console.bind. cbn [calls documents].
  set (w0 := {| calls := calls w; documents := [] |}).
  split; [|split; [|split; [|vm_compute; reflexivity]]].
  - intros e E.
    destruct (load_entries self entries glob_end w0) as [w1 [[]|e1]] eqn:Eloop;
      [discriminate|].
    cbn [snd] in E. injection E as <-.
    exact (load_entries_raises self entries glob_end _ _ _ Eloop).
  - intros -> Hfiles Hreport.
    destruct (load_entries_absorbs self entries Hfiles Hreport w0) as (w1 & ->).
    cbn [snd]. eauto.
  - intros -> Hfiles Hquiet.
    destruct (load_entries_quiet self Hquiet entries Hfiles w0) as (docs & Hrun & ->).
    cbn [snd calls documents app]. subst w0. cbn [calls] in *. now rewrite Hrun.
Qed.

(** The loop on a folder, on a standard output that takes every message:
    the sub-folder is passed over, the note gives one document, with the
    normalized text of the note. *)
Lemma load_documents_absorbs_witness :
  snd (@Console.load_documents ascii_only notes quiet default_processor notes_folder
         None nothing_yet)
  = Ok [ {| doc_content := u "Read the meter on Friday.";
            doc_source := u "docs/2025/note.txt";
            doc_filename := u "note.txt" |} ].
Proof.
  assert (Hfiles : Forall (fun file => exists found, is_file file = Ok found) notes_folder).
  { repeat constructor; eexists; reflexivity. }
  assert (Hquiet : forall msg, @write quiet msg = Ok tt) by reflexivity.
  rewrite (proj1 (proj2 (proj2 (proj2 (load_documents_absorbs ascii_only notes quiet
                                         default_processor notes_folder None
                                         nothing_yet))))
             eq_refl Hfiles Hquiet).
  vm_compute. reflexivity.
Defined.

End ListingFacts.

(** ** The chunker, continued *)

Module ChunkingFacts.
Import DocumentProcessor ChunkerFacts.
Local Open Scope Z_scope.

Lemma enumerate_from_In {A : Type} (l : list A) : forall k i x,
  In (i, x) (enumerate_from k l) -> k <= i < k + len l /\ In x l.
Proof.
  induction l as [|y l IH]; intros k i x H; [contradiction|].
  cbn [enumerate_from] in H. unfold len in *. cbn [length].
  destruct H as [H|H].
  - injection H as <- <-. split; [lia | now left].
  - destruct (IH _ _ _ H). split; [lia | now right].
Qed.

Lemma enumerate_from_length {A : Type} (l : list A) : forall k,
  length (enumerate_from k l) = length l.
Proof. induction l as [|y l IH]; intros k; simpl; [reflexivity | now rewrite IH]. Qed.

Section Chunking.
Context {U : Unicode} {T : Tokenizer}.
Variable self : processor.

(** Under [0 <= chunk_overlap < chunk_size], [_split_text] returns at
    least one chunk, whatever the fuel beyond the number of tokens. *)
Lemma split_text_total (text : str) :
  0 <= chunk_overlap self < chunk_size self ->
  exists chunks, chunks <> [] /\
    forall fuel, (Z.to_nat (len (encode text)) < fuel)%nat ->
      _split_text self fuel text = Some chunks.
Proof.
  intros Hc. destruct (Z.leb_spec (len (encode text)) (chunk_size self)) as [Hle|Hgt].
  - exists [text]. split; [discriminate|]. intros fuel _. unfold _split_text.
    destruct (Z.leb_spec (len (encode text)) (chunk_size self)); [reflexivity | lia].
  - assert (H0 : 0 <= 0 < len (encode text)) by lia.
    destruct (window_loop_spec self (S (Z.to_nat (len (encode text)))) (encode text) 0 []
                Hc H0) as (w & ws & Hrun & _); [lia|].
    exists (map decode (w :: ws)). split; [discriminate|]. intros fuel Hf.
    rewrite split_text_long by exact Hgt.
    rewrite (window_loop_mono self _ fuel _ _ _ _ Hrun) by lia. reflexivity.
Qed.

Lemma chunk_document_chunks (fuel : nat) (doc : document) (chunks : list chunk) :
  chunk_document self fuel doc = Some chunks ->
  Forall (fun c => 0 <= chunk_id c < total_chunks c /\
                   source c = doc_source doc /\ filename c = doc_filename doc) chunks.
Proof.
  unfold chunk_document.
  destruct (_split_text self fuel (doc_content doc)) as [doc_chunks|]; [|discriminate].
  intros H. injection H as <-. apply Forall_app. split.
  - destruct (contains (u "pge") (lower (doc_filename doc))
              || contains (u "bill") (lower (doc_filename doc))); [|constructor].
    destruct (_extract_bill_info (doc_content doc)); [constructor|].
    constructor; [|constructor]. cbn. repeat split; lia.
  - apply Forall_forall. intros c Hc. apply in_map_iff in Hc.
    destruct Hc as ([i chunk] & <- & Hin). apply enumerate_from_In in Hin.
    cbn [chunk_id total_chunks source filename].
    destruct (contains (u "pge") (lower (doc_filename doc))); repeat split; lia.
Qed.

End Chunking.

(** Every chunk that [chunk_documents] returns carries the source and the
    filename of one of the documents, and [0 <= chunk_id < total_chunks]. *)
Theorem chunk_documents_invariant
  (U : Unicode) (T : Tokenizer) (self : processor) (fuel : nat)
  (documents : list document) (chunks : list chunk) :
  chunk_documents self fuel documents = Some chunks ->
  Forall (fun c => 0 <= chunk_id c < total_chunks c /\
                   exists doc, In doc documents /\
                     source c = doc_source doc /\ filename c = doc_filename doc) chunks.
Proof.
  revert chunks. induction documents as [|doc rest IH]; intros chunks H.
  - injection H as <-. constructor.
  - cbn [chunk_documents] in H.
    destruct (chunk_document self fuel doc) as [here|] eqn:Ehere; [|discriminate].
    destruct (chunk_documents self fuel rest) as [there|]; [|discriminate].
    injection H as <-. apply Forall_app. split.
    + eapply Forall_impl; [|exact (chunk_document_chunks self fuel doc here Ehere)].
      intros c (Hid & Hs & Hf). split; [exact Hid|]. exists doc.
      split; [now left | now split].
    + eapply Forall_impl; [|exact (IH there eq_refl)].
      intros c (Hid & d & Hd & Hs). split; [exact Hid|]. exists d.
      split; [now right | exact Hs].
Qed.

Lemma chunk_documents_invariant_witness :
  exists chunks,
    @chunk_documents ascii_only char_tokenizer default_processor 0 sample_documents
    = Some chunks /\
    Forall (fun c => 0 <= chunk_id c < total_chunks c /\
                     exists doc, In doc sample_documents /\
                       source c = doc_source doc /\ filename c = doc_filename doc) chunks.
Proof.
  destruct (@chunk_documents ascii_only char_tokenizer default_processor 0 sample_documents)
    as [chunks|] eqn:E; [|vm_compute in E; discriminate].
  exists chunks. split; [reflexivity|].
  exact (chunk_documents_invariant ascii_only char_tokenizer default_processor 0
           sample_documents chunks E).
Defined.

(** Chunking works document by document: the chunks of two lists of
    documents put end to end are the chunks of the first followed by the
    chunks of the second, and the run ends only if both do. *)
Theorem chunk_documents_app
  (U : Unicode) (T : Tokenizer) (self : processor) (fuel : nat)
  (docs1 docs2 : list document) :
  chunk_documents self fuel (docs1 ++ docs2)
  = match chunk_documents self fuel docs1, chunk_documents self fuel docs2 with
    | Some chunks1, Some chunks2 => Some (chunks1 ++ chunks2)
    | _, _ => None
    end.
Proof.
  induction docs1 as [|doc rest IH].
  - cbn. now destruct (chunk_documents self fuel docs2).
  - cbn [app chunk_documents]. rewrite IH.
    destruct (chunk_document self fuel doc) as [here|]; [|reflexivity].
    destruct (chunk_documents self fuel rest) as [there|]; [|reflexivity].
    destruct (chunk_documents self fuel docs2) as [more|]; [|reflexivity].
    now rewrite app_assoc.
Qed.

(** The chunker at its boundary, under [0 <= chunk_overlap < chunk_size]:
    a text of exactly [chunk_size + 1] tokens gives exactly two chunks, the
    first of [chunk_size] tokens, the second of [chunk_overlap + 1] tokens,
    and the first [chunk_overlap] tokens of the second are the last
    [chunk_overlap] tokens of the first. *)
Theorem split_text_boundary (T : Tokenizer) (self : processor) (text : str) :
  0 <= chunk_overlap self < chunk_size self ->
  len (encode text) = chunk_size self + 1 ->
  let tokens := encode text in
  let first := slice tokens 0 (chunk_size self) in
  let second := slice tokens (chunk_size self - chunk_overlap self) (chunk_size self + 1) in
  (forall fuel, (2 <= fuel)%nat ->
     _split_text self fuel text = Some [decode first; decode second]) /\
  len first = chunk_size self /\
  len second = chunk_overlap self + 1 /\
  firstn (Z.to_nat (chunk_overlap self)) second
  = skipn (Z.to_nat (chunk_size self - chunk_overlap self)) first.
Proof.
  intros Hc Hlen tokens first second. fold tokens in Hlen.
  split; [|split; [|split]].
  - intros fuel Hf. rewrite split_text_long by (fold tokens; lia). fold tokens.
    destruct fuel as [|[|fuel]]; [lia | lia |].
    cbn [window_loop].
    destruct (Z.ltb_spec 0 (len tokens)); [|lia].
    rewrite Z.add_0_l.
    replace (Z.min (chunk_size self) (len tokens)) with (chunk_size self) by lia.
    destruct (Z.geb_spec (chunk_size self) (len tokens)); [lia|].
    rewrite Z.add_0_l.
    destruct (Z.ltb_spec (chunk_size self - chunk_overlap self) (len tokens)); [|lia].
    replace (Z.min (chunk_size self - chunk_overlap self + chunk_size self) (len tokens))
      with (len tokens) by lia.
    destruct (Z.geb_spec (len tokens) (len tokens)); [|lia].
    cbn [app map option_map]. subst first second. now rewrite Hlen.
  - subst first. rewrite len_slice by lia. lia.
  - subst second. rewrite len_slice by lia. lia.
  - subst first second. rewrite !slice_inner by lia.
    rewrite skipn_firstn_comm, firstn_firstn. cbn [Z.to_nat skipn].
    f_equal. lia.
Qed.

Lemma split_text_boundary_witness :
  @_split_text char_tokenizer (__init__ 4 1 true) 2 (u "abcde")
  = Some [u "abcd"; u "de"].
Proof.
  assert (Hc : 0 <= chunk_overlap (__init__ 4 1 true) < chunk_size (__init__ 4 1 true))
    by (simpl; lia).
  assert (Hl : len (@encode char_tokenizer (u "abcde")) = chunk_size (__init__ 4 1 true) + 1)
    by (vm_compute; reflexivity).
  exact (proj1 (split_text_boundary char_tokenizer (__init__ 4 1 true) (u "abcde") Hc Hl)
           2%nat (le_n 2)).
Defined.

End ChunkingFacts.

(** ** The chunker and the texts the tokenizer refuses *)

Module EncodingFacts.
Import DocumentProcessor ChunkerFacts ChunkingFacts Encoding.
Local Open Scope Z_scope.

Section Refusing.
Context {U : Unicode} {T : Tokenizer} {R : Refusals}.
Variable self : processor.

Lemma split_text_accepted (fuel : nat) (text : str) :
  refused text = None ->
  Encoding._split_text self fuel text
  = match DocumentProcessor._split_text self fuel text with
    | None => None
    | Some chunks => Some (Ok chunks)
    end.
Proof.
  intros H. unfold Encoding._split_text, encode_outcome, DocumentProcessor._split_text.
  rewrite H. destruct (len (encode text) <=? chunk_size self); reflexivity.
Qed.

Lemma chunk_document_accepted (fuel : nat) (doc : document) :
  refused (doc_content doc) = None ->
  Encoding.chunk_document self fuel doc
  = match DocumentProcessor.chunk_document self fuel doc with
    | None => None
    | Some chunks => Some (Ok chunks)
    end.
Proof.
  intros H. unfold Encoding.chunk_document, DocumentProcessor.chunk_document.
  rewrite (split_text_accepted _ _ H).
  destruct (DocumentProcessor._split_text self fuel (doc_content doc)); reflexivity.
Qed.

Lemma chunk_document_refused (fuel : nat) (doc : document) (e : exn) :
  refused (doc_content doc) = Some e ->
  Encoding.chunk_document self fuel doc = Some (Raise e).
Proof.
  intros H. unfold Encoding.chunk_document, Encoding._split_text, encode_outcome.
  now rewrite H.
Qed.

Lemma chunk_document_returns (fuel : nat) (doc : document) (here : list chunk) :
  Encoding.chunk_document self fuel doc = Some (Ok here) ->
  refused (doc_content doc) = None /\
  DocumentProcessor.chunk_document self fuel doc = Some here.
Proof.
  destruct (refused (doc_content doc)) as [e|] eqn:E.
  - rewrite (chunk_document_refused _ _ _ E). discriminate.
  - rewrite (chunk_document_accepted _ _ E).
    destruct (DocumentProcessor.chunk_document self fuel doc); [|discriminate].
    intros H. injection H as ->. now split.
Qed.

Lemma chunk_document_raises (fuel : nat) (doc : document) (e : exn) :
  Encoding.chunk_document self fuel doc = Some (Raise e) ->
  refused (doc_content doc) = Some e.
Proof.
  destruct (refused (doc_content doc)) as [e'|] eqn:E.
  - rewrite (chunk_document_refused _ _ _ E). intros H. now injection H as ->.
  - rewrite (chunk_document_accepted _ _ E).
    destruct (DocumentProcessor.chunk_document self fuel doc); discriminate.
Qed.

(** More fuel does not change what [_split_text] returns. *)
Lemma split_text_mono (fuel fuel' : nat) (text : str) (chunks : list str) :
  DocumentProcessor._split_text self fuel text = Some chunks ->
  (fuel <= fuel')%nat ->
  DocumentProcessor._split_text self fuel' text = Some chunks.
Proof.
  intros H Hle. destruct (Z.leb_spec (len (encode text)) (chunk_size self)) as [Hshort|Hlong].
  - unfold DocumentProcessor._split_text in *.
    destruct (Z.leb_spec (len (encode text)) (chunk_size self)); [exact H | lia].
  - rewrite split_text_long in * by exact Hlong.
    destruct (window_loop self fuel (encode text) 0 []) as [windows|] eqn:E; [|discriminate].
    now rewrite (window_loop_mono self fuel fuel' _ _ _ _ E Hle).
Qed.

Section Positive.
Hypothesis sizes : 0 <= chunk_overlap self < chunk_size self.

Lemma split_text_nonempty (fuel : nat) (text : str) (chunks : list str) :
  DocumentProcessor._split_text self fuel text = Some chunks -> chunks <> [].
Proof.
  intros H. destruct (split_text_total self text sizes) as (chunks' & Hne & Htotal).
  set (fuel' := Nat.max fuel (S (Z.to_nat (len (encode text))))).
  assert (E : DocumentProcessor._split_text self fuel' text = Some chunks)
    by (apply (split_text_mono fuel); [exact H | subst fuel'; lia]).
  rewrite Htotal in E by (subst fuel'; lia). injection E as <-. exact Hne.
Qed.

(** What the loop appends for a document ends with the chunks of its
    text, of which there is at least one; all carry its source and its
    file name. *)
Lemma chunk_document_text (fuel : nat) (doc : document) (here : list chunk) :
  DocumentProcessor.chunk_document self fuel doc = Some here ->
  (exists c, In c here /\ type c = text_chunk) /\
  Forall (fun c => source c = doc_source doc /\ filename c = doc_filename doc) here.
Proof.
  intros H. split.
  - unfold DocumentProcessor.chunk_document in H.
    destruct (DocumentProcessor._split_text self fuel (doc_content doc))
      as [doc_chunks|] eqn:E; [|discriminate].
    apply split_text_nonempty in E. destruct doc_chunks as [|c0 rest]; [congruence|].
    injection H as <-. cbn [enumerate_from map].
    eexists. split; [apply in_or_app; right; left; reflexivity | reflexivity].
  - eapply Forall_impl; [|exact (chunk_document_chunks self fuel doc here H)].
    intros c (_ & Hs & Hf). now split.
Qed.

Lemma chunk_document_ends (doc : document) :
  exists fuel here, forall fuel', (fuel <= fuel')%nat ->
    DocumentProcessor.chunk_document self fuel' doc = Some here.
Proof.
  destruct (split_text_total self (doc_content doc) sizes) as (doc_chunks & _ & Htotal).
  exists (S (Z.to_nat (len (encode (doc_content doc))))). eexists. intros fuel' Hf.
  unfold DocumentProcessor.chunk_document. rewrite Htotal by lia. reflexivity.
Qed.

(** [chunk_documents] ends: it returns, or it raises. *)
Lemma chunk_documents_ends (documents : list document) :
  exists fuel outcome, forall fuel', (fuel <= fuel')%nat ->
    Encoding.chunk_documents self fuel' documents = Some outcome.
Proof.
  induction documents as [|doc rest (fuel2 & outcome2 & Hrest)].
  - exists 0%nat, (Ok []). reflexivity.
  - destruct (refused (doc_content doc)) as [e|] eqn:E.
    + exists 0%nat, (Raise e). intros fuel' _. cbn [Encoding.chunk_documents].
      now rewrite (chunk_document_refused _ _ _ E).
    + destruct (chunk_document_ends doc) as (fuel1 & here & Hhere).
      exists (Nat.max fuel1 fuel2).
      exists (match outcome2 with Ok there => Ok (here ++ there) | Raise e => Raise e end).
      intros fuel' Hf. cbn [Encoding.chunk_documents].
      rewrite (chunk_document_accepted _ _ E), Hhere, Hrest by lia.
      destruct outcome2; reflexivity.
Qed.

(** When it returns, no document was refused, and each document has
    chunks of its own. *)
Lemma chunk_documents_returns (fuel : nat) (documents : list document) :
  forall chunks,
    Encoding.chunk_documents self fuel documents = Some (Ok chunks) ->
    Forall (fun doc => refused (doc_content doc) = None) documents /\
    DocumentProcessor.chunk_documents self fuel documents = Some chunks /\
    exists per_document,
      chunks = concat per_document /\
      Forall2 (fun doc here =>
                 DocumentProcessor.chunk_document self fuel doc = Some here /\
                 (exists c, In c here /\ type c = text_chunk) /\
                 Forall (fun c => source c = doc_source doc /\
                                  filename c = doc_filename doc) here)
              documents per_document.
Proof.
  induction documents as [|doc rest IH]; intros chunks H.
  - injection H as <-. split; [constructor|]. split; [reflexivity|].
    exists []. split; [reflexivity | constructor].
  - cbn [Encoding.chunk_documents] in H.
    destruct (Encoding.chunk_document self fuel doc) as [[here|e]|] eqn:Ehere;
      try discriminate.
    destruct (Encoding.chunk_documents self fuel rest) as [[there|e]|]; try discriminate.
    injection H as <-. apply chunk_document_returns in Ehere. destruct Ehere as [Hdoc Ehere].
    destruct (IH there eq_refl) as (Hrest & Erest & per_document & -> & Hper).
    split; [now constructor|]. split.
    + cbn [DocumentProcessor.chunk_documents]. now rewrite Ehere, Erest.
    + exists (here :: per_document). split; [reflexivity|]. constructor; [|exact Hper].
      split; [exact Ehere | exact (chunk_document_text fuel doc here Ehere)].
Qed.

End Positive.

(** When it raises, the exception is the refusal of the first document
    that is refused. *)
Lemma chunk_documents_raises (fuel : nat) (documents : list document) (e : exn) :
  Encoding.chunk_documents self fuel documents = Some (Raise e) ->
  exists before doc after,
    documents = before ++ doc :: after /\
    Forall (fun doc => refused (doc_content doc) = None) before /\
    refused (doc_content doc) = Some e.
Proof.
  induction documents as [|doc rest IH]; intros H; [discriminate|].
  cbn [Encoding.chunk_documents] in H.
  destruct (Encoding.chunk_document self fuel doc) as [[here|e1]|] eqn:Ehere;
    try discriminate.
  - destruct (Encoding.chunk_documents self fuel rest) as [[there|e1]|]; try discriminate.
    destruct (IH H) as (before & doc' & after & -> & Hbefore & Hdoc).
    exists (doc :: before), doc', after. split; [reflexivity|]. split; [|exact Hdoc].
    constructor; [|exact Hbefore].
    destruct (refused (doc_content doc)) as [e2|] eqn:E; [|reflexivity].
    rewrite (chunk_document_refused _ _ _ E) in Ehere. discriminate.
  - injection H as ->. exists [], doc, rest. split; [reflexivity|]. split; [constructor|].
    exact (chunk_document_raises _ _ _ Ehere).
Qed.

(** When no document is refused, it returns. *)
Lemma chunk_documents_accepts (documents : list document) :
  0 <= chunk_overlap self < chunk_size self ->
  Forall (fun doc => refused (doc_content doc) = None) documents ->
  exists fuel chunks, forall fuel', (fuel <= fuel')%nat ->
    Encoding.chunk_documents self fuel' documents = Some (Ok chunks).
Proof.
  intros sizes Haccepted.
  destruct (chunk_documents_ends sizes documents) as (fuel & [chunks|e] & Hrun).
  - exists fuel, chunks. exact Hrun.
  - destruct (chunk_documents_raises fuel documents e (Hrun fuel (Nat.le_refl _)))
      as (before & doc & after & -> & _ & Hdoc).
    apply Forall_app in Haccepted. destruct Haccepted as [_ Hafter].
    inversion Hafter as [|? ? Hnone _]. rewrite Hnone in Hdoc. discriminate.
Qed.

End Refusing.

(** A text of kept characters holds no special token of [cl100k_base]:
    the character [<] is not kept. *)
Lemma contains_In (needle hay : str) (c : char) :
  In c needle -> contains needle hay = true -> In c hay.
Proof.
  intros Hc. induction hay as [|h t IH]; intros H.
  - destruct needle; [contradiction | discriminate].
  - cbn [contains] in H. apply orb_true_iff in H. destruct H as [H|H].
    + clear IH. revert h t H. induction needle as [|n needle IHn]; intros h t H;
        [contradiction|].
      destruct Hc as [<-|Hc].
      * cbn [startswith] in H. apply andb_true_iff in H. destruct H as [H _].
        apply N.eqb_eq in H. left. now symmetry.
      * cbn [startswith] in H. apply andb_true_iff in H. destruct H as [_ H].
        destruct t as [|h' t']; [destruct needle; [contradiction | discriminate]|].
        right. exact (IHn Hc h' t' H).
    + right. exact (IH H).
Qed.

Lemma kept_accepted (U : Unicode) (text : str) :
  kept 60%N = false -> forallb kept text = true -> @refused cl100k_base text = None.
Proof.
  intros Hlt Hkept. cbn [refused cl100k_base].
  destruct (existsb (fun special => contains special text) special_tokens) eqn:E;
    [|reflexivity].
  apply existsb_exists in E. destruct E as (special & Hin & Hc).
  assert (H60 : In 60%N special).
  { cbn in Hin. repeat (destruct Hin as [<-|Hin]; [now left|]). contradiction. }
  pose proof (contains_In _ _ _ H60 Hc) as Htext.
  rewrite forallb_forall in Hkept. rewrite (Hkept _ Htext) in Hlt. discriminate.
Qed.

(** Under [0 <= chunk_overlap < chunk_size], [chunk_documents] ends on
    every list of documents: it returns or it raises, and more fuel changes
    nothing.  It raises exactly the refusal of the first document whose
    text the tokenizer refuses.  When it returns, its chunks are, document
    by document and in order, the chunks of
    [DocumentProcessor.chunk_documents]: for each document a group of
    chunks of its own, with the source and the file name of the document,
    and at least one text chunk among them; no document is lost, not even
    an empty one.  When no document is refused it returns. *)
Theorem chunk_documents_per_document
  (U : Unicode) (T : Tokenizer) (R : Refusals) (self : processor)
  (documents : list document) :
  0 <= chunk_overlap self < chunk_size self ->
  (exists fuel outcome, forall fuel', (fuel <= fuel')%nat ->
     Encoding.chunk_documents self fuel' documents = Some outcome) /\
  (forall fuel chunks,
     Encoding.chunk_documents self fuel documents = Some (Ok chunks) ->
     Forall (fun doc => refused (doc_content doc) = None) documents /\
     DocumentProcessor.chunk_documents self fuel documents = Some chunks /\
     exists per_document,
       chunks = concat per_document /\
       Forall2 (fun doc here =>
                  DocumentProcessor.chunk_document self fuel doc = Some here /\
                  (exists c, In c here /\ type c = text_chunk) /\
                  Forall (fun c => source c = doc_source doc /\
                                   filename c = doc_filename doc) here)
               documents per_document) /\
  (forall fuel e,
     Encoding.chunk_documents self fuel documents = Some (Raise e) ->
     exists before doc after,
       documents = before ++ doc :: after /\
       Forall (fun doc => refused (doc_content doc) = None) before /\
       refused (doc_content doc) = Some e) /\
  (Forall (fun doc => refused (doc_content doc) = None) documents ->
   exists fuel chunks, forall fuel', (fuel <= fuel')%nat ->
     Encoding.chunk_documents self fuel' documents = Some (Ok chunks)).
Proof.
  intros sizes.
  pose proof (chunk_documents_ends self sizes documents) as Hends.
  split; [exact Hends|]. split; [|split].
  - intros fuel. exact (chunk_documents_returns self sizes fuel documents).
  - intros fuel e. exact (chunk_documents_raises self fuel documents e).
  - exact (chunk_documents_accepts self documents sizes).
Qed.

(** The chunker on the two sample documents followed by a note that
    quotes a special token of [cl100k_base]: it raises, and the note is the
    document that is refused. *)
Lemma chunk_documents_per_document_witness :
  exists before after,
    sample_documents ++ [quoting_note] = before ++ quoting_note :: after /\
    Forall (fun doc => @refused cl100k_base (doc_content doc) = None) before.
Proof.
  assert (sizes : 0 <= chunk_overlap default_processor < chunk_size default_processor)
    by (simpl; lia).
  assert (H : @Encoding.chunk_documents ascii_only char_tokenizer cl100k_base
                default_processor 0 (sample_documents ++ [quoting_note])
              = Some (Raise (Exception
                  (u "Encountered text corresponding to disallowed special token"))))
    by (vm_compute; reflexivity).
  destruct (proj1 (proj2 (proj2 (chunk_documents_per_document ascii_only char_tokenizer
                                   cl100k_base default_processor
                                   (sample_documents ++ [quoting_note]) sizes))) _ _ H)
    as (before & doc & after & Heq & Hbefore & Hdoc).
  exists before, after. split; [|exact Hbefore].
  assert (Hquote : doc = quoting_note).
  { destruct before as [|d1 [|d2 [|d3 before]]].
    - injection Heq as <-. vm_compute in Hdoc. discriminate.
    - injection Heq as _ <-. vm_compute in Hdoc. discriminate.
    - now injection Heq as _ _ <-.
    - apply (f_equal (@length _)) in Heq. rewrite !length_app in Heq.
      cbn [length sample_documents] in Heq. lia. }
  rewrite Hquote in Heq. exact Heq.
Defined.

End EncodingFacts.

(** ** The character-level line reconstruction, continued *)

Module LinesFacts.
Import DocumentProcessor NormalizerFacts.

Lemma lines_append_perm (y : Z) (char : pdf_char) (lines : list (Z * list pdf_char)) :
  Permutation (flat_map snd (lines_append y char lines)) (char :: flat_map snd lines).
Proof.
  induction lines as [|[y' chars] t IH]; [reflexivity|].
  cbn [lines_append]. destruct (Z.eqb y y'); cbn [flat_map snd].
  - rewrite <- app_assoc. symmetry. apply Permutation_middle.
  - rewrite IH. symmetry. apply Permutation_middle.
Qed.

Lemma lines_append_keys (y : Z) (char : pdf_char) (lines : list (Z * list pdf_char)) :
  map fst (lines_append y char lines)
  = if existsb (Z.eqb y) (map fst lines) then map fst lines else map fst lines ++ [y].
Proof.
  induction lines as [|[y' chars] t IH]; [reflexivity|].
  cbn [lines_append map fst existsb]. destruct (Z.eqb y y'); [reflexivity|].
  cbn [map fst orb]. rewrite IH. now destruct (existsb (Z.eqb y) (map fst t)).
Qed.

Lemma lines_append_well_grouped (char : pdf_char) (lines : list (Z * list pdf_char)) :
  well_grouped lines -> well_grouped (lines_append (round1 (top char)) char lines).
Proof.
  intros [Hnd Hall]. split.
  - rewrite lines_append_keys.
    destruct (existsb (Z.eqb (round1 (top char))) (map fst lines)) eqn:E; [exact Hnd|].
    apply NoDup_app; [exact Hnd | repeat constructor; intros [] |].
    intros k Hk [<-|[]].
    assert (existsb (Z.eqb (round1 (top char))) (map fst lines) = true)
      by (apply existsb_exists; exists (round1 (top char)); split;
          [exact Hk | apply Z.eqb_refl]).
    congruence.
  - clear Hnd. induction lines as [|[y' chars] t IH].
    + repeat constructor; discriminate.
    + inversion Hall as [|? ? [Hne Hkey] Ht]; subst. cbn [lines_append].
      destruct (Z.eqb_spec (round1 (top char)) y') as [E|E].
      * constructor; [|exact Ht]. cbn [fst snd] in *. split.
        -- destruct chars; discriminate.
        -- apply Forall_app. split; [exact Hkey | repeat constructor; exact E].
      * constructor; [now split | apply IH, Ht].
Qed.

Lemma group_lines_from (chars : list pdf_char) : forall lines,
  well_grouped lines ->
  let lines' := fold_left (fun lines char => lines_append (round1 (top char)) char lines)
                          chars lines in
  well_grouped lines' /\
  Permutation (flat_map snd lines') (chars ++ flat_map snd lines).
Proof.
  induction chars as [|char chars IH]; intros lines Hw; cbn [fold_left app].
  - split; [exact Hw | reflexivity].
  - destruct (IH _ (lines_append_well_grouped char lines Hw)) as [Hw' Hp].
    split; [exact Hw'|]. cbv zeta in Hp. rewrite Hp, lines_append_perm.
    symmetry. apply Permutation_middle.
Qed.

Lemma lines_get_found (lines : list (Z * list pdf_char)) (y : Z) (chars : list pdf_char) :
  NoDup (map fst lines) -> In (y, chars) lines -> lines_get y lines = chars.
Proof.
  induction lines as [|[y' chars'] t IH]; intros Hnd Hin; [contradiction|].
  cbn [lines_get]. inversion Hnd as [|? ? Hnotin Hnd']; subst.
  destruct Hin as [E|Hin].
  - injection E as -> ->. now rewrite Z.eqb_refl.
  - destruct (Z.eqb_spec y y') as [->|]; [|now apply IH].
    exfalso. apply Hnotin. apply in_map_iff. now exists (y', chars).
Qed.

(** [sorted] is a sort: a permutation of its argument, ordered when the
    comparison is total and transitive. *)
Lemma insert_sorted_perm {A : Type} (before : A -> A -> bool) (a : A) (l : list A) :
  Permutation (insert_sorted before a l) (a :: l).
Proof.
  induction l as [|b t IH]; [reflexivity|]. cbn [insert_sorted].
  destruct (before a b); [reflexivity|]. rewrite IH. apply perm_swap.
Qed.

Lemma sorted_perm {A : Type} (before : A -> A -> bool) (l : list A) :
  Permutation (sorted before l) l.
Proof.
  induction l as [|a l IH]; [reflexivity|]. cbn [sorted fold_right].
  fold (sorted before l). rewrite insert_sorted_perm. now constructor.
Qed.

Lemma sorted_ordered {A : Type} (before : A -> A -> bool) (l : list A) :
  (forall a b, before a b = false -> before b a = true) ->
  (forall a b c, before a b = true -> before b c = true -> before a c = true) ->
  StronglySorted (fun a b => before a b = true) (sorted before l).
Proof.
  intros Htotal Htrans.
  assert (Hins : forall a l, StronglySorted (fun a b => before a b = true) l ->
                   StronglySorted (fun a b => before a b = true) (insert_sorted before a l)).
  { intros a l0. induction l0 as [|b t IH]; intros Hs; cbn [insert_sorted].
    - repeat constructor.
    - inversion Hs as [|? ? Ht Hb]; subst. destruct (before a b) eqn:E.
      + constructor; [exact Hs|]. constructor; [exact E|].
        eapply Forall_impl; [|exact Hb]. intros c Hc. now apply (Htrans a b c).
      + constructor; [apply IH, Ht|].
        apply Forall_forall. intros c Hc.
        apply (Permutation_in _ (insert_sorted_perm before a t)) in Hc.
        destruct Hc as [<-|Hc]; [now apply Htotal|].
        rewrite Forall_forall in Hb. now apply Hb. }
  induction l as [|a l IH]; [constructor|]. cbn [sorted fold_right]. apply Hins, IH.
Qed.

Lemma StronglySorted_weaken {A : Type} (R R' : A -> A -> Prop) (l : list A) :
  (forall a b, R a b -> R' a b) -> StronglySorted R l -> StronglySorted R' l.
Proof.
  intros HR Hs. induction Hs as [|a l Hs IH Hall]; constructor; [exact IH|].
  eapply Forall_impl; [|exact Hall]. intros b. apply HR.
Qed.

Lemma strip_strip (s : str) : strip (strip s) = strip s.
Proof.
  unfold strip at 2 3. destruct (lstrip_head s) as [-> | (c & t & -> & Hc)]; [reflexivity|].
  destruct (rstrip_head c t Hc) as [t' E]. rewrite E.
  unfold strip, lstrip. cbn [dropwhile]. rewrite Hc, <- E. apply rstrip_rstrip.
Qed.

(** Grouping the characters into lines loses and repeats none: the lines
    of [group_lines] hold, between them, exactly the characters given;
    their keys are distinct; every line is non-empty, holds the characters
    whose [top] rounds to its key, and is what the key looks up. *)
Theorem group_lines_partition (chars : list pdf_char) :
  let lines := group_lines chars in
  Permutation (flat_map snd lines) chars /\
  NoDup (map fst lines) /\
  Forall (fun line =>
            snd line <> [] /\
            Forall (fun char => round1 (top char) = fst line) (snd line) /\
            lines_get (fst line) lines = snd line) lines.
Proof.
  cbv zeta. unfold group_lines.
  assert (H0 : well_grouped []) by (split; constructor).
  destruct (group_lines_from chars [] H0) as [[Hnd Hall] Hp]. cbv zeta in *.
  split; [now rewrite Hp, app_nil_r|]. split; [exact Hnd|].
  apply Forall_forall. intros [y g] Hin. rewrite Forall_forall in Hall.
  destruct (Hall _ Hin) as [Hne Hkey]. cbn [fst snd] in *.
  split; [exact Hne|]. split; [exact Hkey | now apply lines_get_found].
Qed.

(** The characters of a line are put in ascending order of [x0], none lost
    or repeated (line 319). *)
Theorem line_chars_sorted (line : list pdf_char) :
  let line_chars := sorted (fun a b => Qle_bool (x0 a) (x0 b)) line in
  Permutation line_chars line /\
  StronglySorted (fun a b => (x0 a <= x0 b)%Q) line_chars.
Proof.
  cbv zeta. split; [apply sorted_perm|].
  eapply StronglySorted_weaken; [| apply sorted_ordered].
  - intros a b H. now apply Qle_bool_iff.
  - intros a b H. apply Qle_bool_iff. apply Qlt_le_weak, Qnot_le_lt.
    intros Hle. apply Qle_bool_iff in Hle. congruence.
  - intros a b c H1 H2. apply Qle_bool_iff. apply Qle_bool_iff in H1, H2.
    eapply Qle_trans; eassumption.
Qed.

(** Every line of text that [_extract_from_chars] emits is non-empty and
    has no leading or trailing whitespace; a line of blanks is dropped, so
    there are at most as many lines of text as lines of characters. *)
Theorem text_lines_stripped (lines : list (Z * list pdf_char)) :
  Forall (fun line_text => line_text <> [] /\ strip line_text = line_text) (text_lines lines) /\
  (length (text_lines lines) <= length lines)%nat.
Proof.
  unfold text_lines.
  assert (Hlen : length (sorted Z.geb (map fst lines)) = length lines).
  { rewrite (Permutation_length (sorted_perm Z.geb (map fst lines))). apply length_map. }
  rewrite <- Hlen. generalize (sorted Z.geb (map fst lines)) as keys.
  induction keys as [|y keys [IH1 IH2]]; [split; [constructor | simpl; lia]|].
  cbn [flat_map length].
  set (line_text := flat_map ch_text
                      (sorted (fun a b => Qle_bool (x0 a) (x0 b)) (lines_get y lines))).
  destruct (strip line_text) as [|c t] eqn:E; cbn [app].
  - split; [exact IH1 | lia].
  - split; [|simpl; lia]. constructor; [|exact IH1].
    split; [discriminate|]. rewrite <- E. apply strip_strip.
Qed.

End LinesFacts.

(** ** Reports need digits *)

Module DigitFacts.
Import Re ReFacts.

Lemma existsb_suffix (d : char -> bool) (pre post : str) :
  existsb d post = true -> existsb d (pre ++ post) = true.
Proof. intros H. rewrite existsb_app, H. apply orb_true_r. Qed.

Lemma rep_from_reads (d : char -> bool) (step : mstate -> list mstate)
  (lo : nat) (hi : option nat) (greedy : bool) (fuel : nat) (st st' : mstate) :
  (1 <= lo)%nat ->
  (forall st1, In st1 (step st) -> existsb d (rest st) = true) ->
  In st' (rep_from step lo hi greedy fuel 0 st) -> existsb d (rest st) = true.
Proof.
  intros Hlo Hstep Hin.
  assert (Hstop : (if Nat.leb lo 0 then [st] else []) = [])
    by (destruct (Nat.leb_spec lo 0); [lia | reflexivity]).
  destruct fuel as [|fuel]; cbn [rep_from] in Hin; rewrite Hstop in Hin; [contradiction|].
  assert (Hagain : In st'
            (if below hi 0
             then flat_map (fun st1 =>
                     if Nat.ltb (length (rest st1)) (length (rest st))
                     then rep_from step lo hi greedy fuel 1 st1 else []) (step st)
             else [])).
  { destruct greedy; [now rewrite app_nil_r in Hin | exact Hin]. }
  destruct (below hi 0); [|contradiction].
  apply in_flat_map in Hagain. destruct Hagain as (st1 & H1 & _). exact (Hstep st1 H1).
Qed.

(** A pattern that reads a character of [d] matches only where such a
    character is ahead. *)
Lemma run_reads (d : char -> bool) (r : regex) : forall st st',
  reads d r -> In st' (run r st) -> existsb d (rest st) = true.
Proof.
  induction r as [p| |r1 IH1 r2 IH2|r1 IH1 r2 IH2|r0 IH lo hi greedy|w|i r0 IH];
    intros st st' Hr Hin; cbn [run reads] in *.
  - destruct (rest st) as [|c t]; [contradiction|].
    destruct (p c) eqn:Hp; [|contradiction]. cbn [existsb]. now rewrite (Hr c Hp).
  - contradiction.
  - apply in_flat_map in Hin. destruct Hin as (st1 & H1 & H2).
    destruct Hr as [Hr|Hr]; [exact (IH1 _ _ Hr H1)|].
    destruct (run_consumes r1 st st1 H1) as [consumed ->].
    apply existsb_suffix. exact (IH2 _ _ Hr H2).
  - destruct Hr as [Hr1 Hr2]. apply in_app_or in Hin.
    destruct Hin as [H|H]; [exact (IH1 _ _ Hr1 H) | exact (IH2 _ _ Hr2 H)].
  - destruct Hr as [Hlo Hr].
    apply (rep_from_reads d (run r0) lo hi greedy (length (rest st)) st st' Hlo);
      [|exact Hin].
    intros st1 H1. exact (IH _ _ Hr H1).
  - contradiction.
  - apply in_map_iff in Hin. destruct Hin as (st1 & _ & H1). exact (IH _ _ Hr H1).
Qed.

Lemma scan_no_hits (r : regex) fuel : forall pv s,
  (forall pre post pv', s = pre ++ post ->
     run r {| prev := pv'; rest := post; groups := [] |} = []) ->
  hits (scan r fuel pv s) = [].
Proof.
  induction fuel as [|fuel IH]; intros pv s Hno; [reflexivity|].
  cbn [scan]. rewrite (Hno [] s pv eq_refl).
  destruct s as [|c t]; [reflexivity|]. cbn [hits]. apply IH.
  intros pre post pv' E. apply (Hno (c :: pre) post pv'). now rewrite E.
Qed.

(** A pattern that reads a character of [d] has no match in a text without
    one. *)
Lemma no_hits_without (d : char -> bool) (r : regex) (s : str) :
  reads d r -> existsb d s = false -> hits (segments r s) = [].
Proof.
  intros Hr Hs. apply scan_no_hits. intros pre post pv' E.
  destruct (run r {| prev := pv'; rest := post; groups := [] |}) as [|st' tl] eqn:Erun;
    [reflexivity|].
  assert (H : existsb d post = true).
  { apply (run_reads d r {| prev := pv'; rest := post; groups := [] |} st' Hr).
    rewrite Erun. now left. }
  rewrite E, existsb_app, H, orb_true_r in Hs. discriminate.
Qed.

Section Digits.
Context {U : Unicode}.

Lemma reads_digits (lo : nat) (hi : option nat) (greedy : bool) :
  (1 <= lo)%nat -> reads is_decimal (Rep digit lo hi greedy).
Proof. intros H. split; [exact H | intros c Hc; exact Hc]. Qed.

Lemma reads_date_shape : reads is_decimal DocumentProcessor.date_shape.
Proof. left. apply reads_digits. lia. Qed.

Lemma reads_dollar_shape : reads is_decimal DocumentProcessor.dollar_shape.
Proof. right. right. left. apply reads_digits. lia. Qed.

Ltac no_hits H :=
  match goal with
  | |- context [hits (segments ?r ?s)] =>
      let R := fresh "R" in
      assert (R : reads is_decimal r);
      [ | rewrite (no_hits_without is_decimal r s R H); clear R ]
  end.

Lemma chunker_report_needs_digit (text : str) :
  existsb is_decimal text = false -> DocumentProcessor._extract_bill_info text = [].
Proof.
  intros H. unfold DocumentProcessor._extract_bill_info, findall, findall_group.
  no_hits H; [exact reads_dollar_shape|].
  no_hits H; [right; left; exact reads_date_shape|].
  no_hits H; [left; apply (reads_digits 1 None true); lia|].
  no_hits H; [right; right; apply (reads_digits 8 None true); lia|].
  no_hits H; [right; right; exact reads_date_shape|].
  no_hits H; [right; right; exact reads_dollar_shape|].
  reflexivity.
Qed.

Lemma ocr_report_needs_digit (text source : str) :
  existsb is_decimal text = false -> UtilityBillProcessor._extract_bill_info text source = [].
Proof.
  intros H.
  unfold UtilityBillProcessor._extract_bill_info, UtilityBillProcessor.reasonable_amounts,
    UtilityBillProcessor.valid_dates, findall, findall_group, findall_pairs.
  no_hits H; [right; right; left; apply (reads_digits 1 (Some 3) true); lia|].
  no_hits H; [right; left; left; apply (reads_digits 1 (Some 2) true); lia|].
  no_hits H; [left; apply (reads_digits 1 None true); lia|].
  no_hits H; [left; apply (reads_digits 1 None true); lia|].
  no_hits H; [right; right; apply (reads_digits 8 None true); lia|].
  no_hits H; [right; right; right; right; left; left;
              apply (reads_digits 1 (Some 2) true); lia|].
  cbn. now destruct text; [|destruct (_ <? _)%Z].
Qed.

End Digits.

(** A text without a decimal digit yields an empty report from both
    structured-field extractors, since each of their patterns needs a
    digit; so [chunk_documents] adds no structured-info chunk for it, and
    every chunk of such a document is a text chunk. *)
Theorem reports_need_digits (U : Unicode) (text : str) :
  existsb is_decimal text = false ->
  DocumentProcessor._extract_bill_info text = [] /\
  (forall source, UtilityBillProcessor._extract_bill_info text source = []) /\
  (forall (T : Tokenizer) self fuel source filename chunks,
     DocumentProcessor.chunk_document self fuel
       {| DocumentProcessor.doc_content := text;
          DocumentProcessor.doc_source := source;
          DocumentProcessor.doc_filename := filename |} = Some chunks ->
     Forall (fun c => DocumentProcessor.type c = DocumentProcessor.text_chunk) chunks).
Proof.
  intros H. split; [now apply chunker_report_needs_digit|].
  split; [intros source; now apply ocr_report_needs_digit|].
  intros T self fuel source filename chunks.
  unfold DocumentProcessor.chunk_document. cbn [DocumentProcessor.doc_content].
  rewrite (chunker_report_needs_digit text H).
  destruct (DocumentProcessor._split_text self fuel text) as [doc_chunks|]; [|discriminate].
  intros E. injection E as <-.
  destruct (_ || _); cbn [app]; apply Forall_forall; intros c Hc;
    apply in_map_iff in Hc; destruct Hc as ([i chunk] & <- & _); reflexivity.
Qed.

Lemma reports_need_digits_witness :
  @DocumentProcessor._extract_bill_info ascii_only (u "Thank you for your payment.") = [].
Proof.
  assert (H : existsb (@is_decimal ascii_only) (u "Thank you for your payment.") = false)
    by (vm_compute; reflexivity).
  exact (proj1 (reports_need_digits ascii_only (u "Thank you for your payment.") H)).
Defined.

End DigitFacts.

(** ** The page loops *)

Module PagesFacts.
Import DocumentProcessor Pages BillPages NormalizerFacts LinesFacts.
Local Open Scope Z_scope.

Lemma firstn_app_long {A : Type} (n : nat) (l more : list A) :
  (n <= length l)%nat -> firstn n (l ++ more) = firstn n l.
Proof.
  intros H. rewrite firstn_app. replace (n - length l)%nat with 0%nat by lia.
  cbn [firstn]. apply app_nil_r.
Qed.

Lemma ocr_pages_rendered (pages : list ocr_page) : forall page_num text,
  Forall (fun page => rendered page = Ok tt) pages ->
  exists more, ocr_pages page_num pages text = Ok (text ++ more) /\
               (more = [] <-> Forall unread pages).
Proof.
  induction pages as [|page rest IH]; intros page_num text Hr.
  - exists []. split; [cbn; now rewrite app_nil_r | split; [constructor | reflexivity]].
  - inversion Hr as [|? ? Hpage Hrest]; subst. cbn [ocr_pages]. rewrite Hpage.
    destruct (recognized page) as [page_text|e] eqn:Erec.
    + destruct (strip page_text) as [|c t] eqn:Es.
      * destruct (IH (page_num + 1) text Hrest) as (more & -> & Hmore).
        exists more. split; [reflexivity|]. rewrite Hmore. split.
        -- intros H. constructor; [unfold unread; now rewrite Erec | exact H].
        -- intros H. now inversion H.
      * destruct (IH (page_num + 1)
                    (text ++ u "--- OCR Page " ++ str_of_int (page_num + 1) ++ u " ---"
                          ++ nl ++ page_text ++ nl) Hrest) as (more & -> & _).
        eexists. split; [rewrite <- app_assoc; reflexivity|]. split.
        -- intros H. discriminate.
        -- intros H. inversion H as [|? ? Hun _]; subst. unfold unread in Hun.
           rewrite Erec in Hun. congruence.
    + destruct (IH (page_num + 1) text Hrest) as (more & -> & Hmore).
      exists more. split; [reflexivity|]. rewrite Hmore. split.
      * intros H. constructor; [unfold unread; now rewrite Erec | exact H].
      * intros H. now inversion H.
Qed.

(** [_extract_pdf_ocr] looks at the first five pages only.  A page whose
    recognition raises is skipped: when these pages can be rendered, the
    extraction succeeds whatever the recognition does, and its text is
    empty exactly when no page was recognized with text on it. *)
Theorem extract_pdf_ocr_pages (pages : list ocr_page) :
  (forall more, (5 <= length pages)%nat ->
     Pages._extract_pdf_ocr (Ok (pages ++ more)) = Pages._extract_pdf_ocr (Ok pages)) /\
  (Forall (fun page => rendered page = Ok tt) (firstn 5 pages) ->
   exists text,
     Pages._extract_pdf_ocr (Ok pages) = Ok text /\
     (text = [] <-> Forall unread (firstn 5 pages))).
Proof.
  split.
  - intros more H. unfold Pages._extract_pdf_ocr. now rewrite firstn_app_long.
  - intros H. unfold Pages._extract_pdf_ocr.
    destruct (ocr_pages_rendered (firstn 5 pages) 0 [] H) as (more & E & Hmore).
    exists more. split; [exact E | exact Hmore].
Qed.

Lemma extract_pdf_ocr_pages_witness :
  exists text,
    Pages._extract_pdf_ocr
      (Ok [ {| rendered := Ok tt; recognized := Raise (Exception (u "tesseract failed")) |};
            {| rendered := Ok tt; recognized := Ok (u "Total $150.00") |} ]) = Ok text.
Proof.
  destruct (proj2 (extract_pdf_ocr_pages
              [ {| rendered := Ok tt; recognized := Raise (Exception (u "tesseract failed")) |};
                {| rendered := Ok tt; recognized := Ok (u "Total $150.00") |} ]))
    as (text & E & _).
  - repeat constructor.
  - exists text. exact E.
Defined.

(** *** The utility-bill page loop *)

Lemma join_nonempty (sep p : str) (rest : list str) : p <> [] -> join sep (p :: rest) <> [].
Proof.
  intros Hp. destruct rest as [|q rest]; cbn [join]; [exact Hp|].
  destruct p; [congruence | discriminate].
Qed.

Section Bill.
Context {U : Unicode}.



End Bill.



(** *** The line filter *)

Lemma split_on_nonempty (sep : char) (s : str) : split_on sep s <> [].
Proof.
  destruct s as [|c t]; cbn [split_on]; [discriminate|].
  destruct (char_eqb c sep); [discriminate|]. destruct (split_on sep t); discriminate.
Qed.

(** Splitting at a character and joining with it gives the text back. *)
Lemma join_split_on (sep : char) (s : str) : join [sep] (split_on sep s) = s.
Proof.
  induction s as [|c t IH]; [reflexivity|]. cbn [split_on]. unfold char_eqb.
  destruct (N.eqb_spec c sep) as [->|].
  - pose proof (split_on_nonempty sep t) as Hne.
    destruct (split_on sep t) as [|p ps]; [congruence|].
    cbn [join app] in *. now rewrite IH.
  - pose proof (split_on_nonempty sep t) as Hne.
    destruct (split_on sep t) as [|p ps]; [congruence|].
    destruct ps as [|q ps]; cbn [join app] in *; now rewrite <- IH.
Qed.

Lemma split_on_pieces (sep : char) (s : str) :
  Forall (fun piece => forallb (fun c => negb (char_eqb c sep)) piece = true)
         (split_on sep s).
Proof.
  induction s as [|c t IH]; [repeat constructor|]. cbn [split_on].
  destruct (char_eqb c sep) eqn:E; [constructor; [reflexivity | exact IH]|].
  destruct (split_on sep t) as [|p ps]; [repeat constructor; cbn; now rewrite E|].
  inversion IH; subst. constructor; [cbn [forallb]; now rewrite E | assumption].
Qed.

Section Filter.
Context {U : Unicode}.
Variable uni_isalpha : char -> bool.

Lemma map_strip_fixed (pieces : list str) :
  Forall (fun line => strip line = line) pieces -> map strip pieces = pieces.
Proof.
  induction 1 as [|p ps Hp _ IH]; [reflexivity|]. cbn [map]. now rewrite Hp, IH.
Qed.

Lemma filter_keeps_all (pieces : list str) :
  Forall (fun line => keeps_line uni_isalpha line = true) pieces ->
  filter (keeps_line uni_isalpha) pieces = pieces.
Proof.
  induction 1 as [|p ps Hp _ IH]; [reflexivity|]. cbn [filter]. now rewrite Hp, IH.
Qed.

End Filter.

(** [_clean_extracted_text] invents nothing: every line it returns is a
    line of the text, stripped, of at least three characters and without a
    newline, and it returns no more lines than the text has.  A text whose
    lines are all kept and already stripped comes back unchanged. *)
Theorem clean_extracted_text_lines
  (U : Unicode) (uni_isalpha : char -> bool) (text : str) :
  Forall (fun line =>
            (exists raw, In raw (split_on 10%N text) /\ keeps_line uni_isalpha raw = true
                         /\ line = strip raw) /\
            3 <= len line /\ strip line = line /\ ~ In 10%N line)
         (cleaned_lines uni_isalpha text) /\
  (length (cleaned_lines uni_isalpha text) <= length (split_on 10%N text))%nat /\
  (Forall (fun line => keeps_line uni_isalpha line = true /\ strip line = line)
          (split_on 10%N text) ->
   _clean_extracted_text uni_isalpha text = text).
Proof.
  split; [|split].
  - apply Forall_forall. intros line Hin. unfold cleaned_lines in Hin.
    apply in_map_iff in Hin. destruct Hin as (raw & <- & Hraw).
    apply filter_In in Hraw. destruct Hraw as [Hraw Hkeep].
    split; [exists raw; now repeat split|]. split; [|split].
    + unfold keeps_line in Hkeep.
      destruct (Z.ltb_spec (len (strip raw)) 3); [discriminate | lia].
    + apply strip_strip.
    + pose proof (split_on_pieces 10%N text) as Hp. rewrite Forall_forall in Hp.
      specialize (Hp raw Hraw).
      assert (Hs : forallb (fun c => negb (char_eqb c 10%N)) (strip raw) = true)
        by (unfold strip, lstrip; now apply forallb_rstrip, forallb_dropwhile).
      intros H10. rewrite forallb_forall in Hs. specialize (Hs _ H10). discriminate.
  - unfold cleaned_lines. rewrite length_map. apply filter_length_le.
  - intros H. unfold _clean_extracted_text, cleaned_lines.
    destruct text as [|c t]; [reflexivity|].
    rewrite filter_keeps_all by (eapply Forall_impl; [|exact H]; now intros l [? ?]).
    rewrite map_strip_fixed by (eapply Forall_impl; [|exact H]; now intros l [? ?]).
    apply (join_split_on 10%N).
Qed.

Lemma clean_extracted_text_witness :
  let text := u "Account 12345678" ++ nl ++ u "Total due $150.00" in
  @_clean_extracted_text ascii_only (fun _ => false) text = text.
Proof.
  intros text.
  assert (H : Forall (fun line => @keeps_line ascii_only (fun _ => false) line = true
                                  /\ strip line = line) (split_on 10%N text)).
  { repeat constructor; vm_compute; reflexivity. }
  exact (proj2 (proj2 (clean_extracted_text_lines ascii_only (fun _ => false) text)) H).
Defined.

(** *** The layout walk *)

Lemma layout_line_text_end (line : layout_line) :
  layout_line_text line = [] \/ exists body, layout_line_text line = body ++ nl.
Proof.
  unfold layout_line_text. destruct (strip _) as [|c t]; [now left|].
  right. now exists (c :: t).
Qed.

(** [_extract_from_layout] reads the text blocks (type 0) only: blocks of
    another type, or without a type, add nothing; a dictionary without
    blocks gives the empty text; and the text it returns is empty or ends
    with a newline. *)
Theorem extract_from_layout_text_blocks (some_blocks : list block) :
  _extract_from_layout {| blocks := Some some_blocks |}
  = _extract_from_layout
      {| blocks := Some (filter (fun b => match block_type b with
                                          | Some 0 => true
                                          | _ => false
                                          end) some_blocks) |} /\
  _extract_from_layout {| blocks := None |} = [] /\
  (_extract_from_layout {| blocks := Some some_blocks |} = [] \/
   exists body, _extract_from_layout {| blocks := Some some_blocks |} = body ++ nl).
Proof.
  cbn [_extract_from_layout blocks]. split; [|split; [reflexivity|]].
  - unfold extract_blocks. induction some_blocks as [|b rest IH]; [reflexivity|].
    cbn [flat_map filter].
    destruct (block_type b) as [[| |]|] eqn:E; cbn [flat_map app]; rewrite ?E;
      cbn [app]; try exact IH. now rewrite IH.
  - assert (Hlines : forall ls, flat_map layout_line_text ls = [] \/
                                exists body, flat_map layout_line_text ls = body ++ nl).
    { induction ls as [|l ls IH]; [now left|]. cbn [flat_map].
      destruct IH as [-> | [body ->]].
      - rewrite app_nil_r. apply layout_line_text_end.
      - right. exists (layout_line_text l ++ body). now rewrite app_assoc. }
    induction some_blocks as [|b rest IH]; [now left|].
    unfold extract_blocks in *. cbn [flat_map].
    destruct IH as [-> | [body ->]].
    + rewrite app_nil_r. destruct (block_type b) as [[| |]|]; try (now left). apply Hlines.
    + right. eexists. rewrite app_assoc. reflexivity.
Qed.

End PagesFacts.

(** ** The page frames of pdfplumber and the thresholds of [_extract_pdf] *)

Module PlumberFacts.
Import DocumentProcessor Pages.
Local Open Scope Z_scope.

Lemma uint_str_nonempty (d : Decimal.uint) : d <> Decimal.Nil -> uint_str d <> [].
Proof. destruct d; intros H; [congruence | discriminate ..]. Qed.

Lemma str_of_int_nonempty (n : Z) : str_of_int n <> [].
Proof.
  unfold str_of_int. destruct n as [|p|p]; cbn [Z.to_int]; [discriminate | | discriminate].
  apply uint_str_nonempty, Unsigned.to_uint_nonnil.
Qed.

(** [rstrip] keeps everything up to a character that is no whitespace. *)
Lemma rstrip_keeps (c : char) (z : str) : isspace c = false ->
  forall a, exists z', rstrip (a ++ c :: z) = a ++ c :: z'.
Proof.
  intros Hc. induction a as [|x a [z' IH]]; cbn [app rstrip].
  - destruct (rstrip z) as [|y t]; [rewrite Hc; now exists [] | now exists (y :: t)].
  - rewrite IH. exists z'. destruct (a ++ c :: z') eqn:E; [now destruct a | reflexivity].
Qed.

Lemma strip_between_dashes (a z : str) :
  exists z', strip (45%N :: a ++ 45%N :: z) = 45%N :: a ++ 45%N :: z'.
Proof.
  unfold strip, lstrip. cbn [dropwhile].
  replace (isspace 45%N) with false by reflexivity.
  apply (rstrip_keeps 45%N z eq_refl (45%N :: a)).
Qed.

Section Frames.
Context {U : Unicode}.
Variable uni_isalpha : char -> bool.

(** Every page text opens with its frame. *)
Lemma plumber_page_frame (page_num : Z) (page : plumber_page)
  (bound bound' : option (option str)) (page_text : str) :
  plumber_page_text uni_isalpha page_num page bound = Ok (page_text, bound') ->
  exists tail,
    page_text = u "--- Page " ++ str_of_int (page_num + 1) ++ u " ---" ++ nl ++ tail.
Proof.
  unfold plumber_page_text.
  destruct (extracted_tables page) as [tables|e]; [|discriminate].
  destruct (extracted_text page) as [[[|c t]|]|e];
    try destruct (len (strip _) >? 50);
    destruct (page_chars page) as [[|ch chars]|e']; try discriminate;
    try destruct bound as [extracted|]; try discriminate;
    try destruct (len (strip _) >? len _);
    intros H; injection H as <- _;
    eexists; rewrite <- ?app_assoc; reflexivity.
Qed.

Lemma plumber_page_dashes (page_num : Z) (page : plumber_page)
  (bound bound' : option (option str)) (page_text : str) :
  plumber_page_text uni_isalpha page_num page bound = Ok (page_text, bound') ->
  exists body tail,
    page_text = 45%N :: body ++ 45%N :: 10%N :: tail /\ 12 <= len body.
Proof.
  intros H. destruct (plumber_page_frame _ _ _ _ _ H) as [tail ->].
  exists (u "-- Page " ++ str_of_int (page_num + 1) ++ u " --"), tail. split.
  - change (u "--- Page ") with (45%N :: u "-- Page ").
    change (u " ---") with (u " --" ++ [45%N]).
    cbn [app nl]. f_equal. rewrite <- !app_assoc. reflexivity.
  - pose proof (str_of_int_nonempty (page_num + 1)) as Hne.
    unfold len. rewrite !length_app.
    destruct (str_of_int (page_num + 1)); [congruence|]. cbn [length u]. cbn. lia.
Qed.

(** The text of [k] pages holds, between two dashes, at least [16 k - 4]
    characters: the frames alone. *)
Lemma plumber_pages_frames (pages : list plumber_page) :
  forall page_num bound text0 text,
  pages <> [] ->
  plumber_pages uni_isalpha page_num pages bound text0 = Ok text ->
  exists a z, text = text0 ++ 45%N :: a ++ 45%N :: z /\ 16 * len pages - 4 <= len a.
Proof.
  induction pages as [|page rest IH]; intros page_num bound text0 text Hne H; [congruence|].
  cbn [plumber_pages] in H.
  destruct (plumber_page_text uni_isalpha page_num page bound) as [[page_text bound']|e] eqn:E;
    [|discriminate].
  destruct (plumber_page_dashes _ _ _ _ _ E) as (body & tail & -> & Hbody).
  destruct rest as [|page2 rest].
  - injection H as <-. exists body, (10%N :: tail ++ nl). split.
    + repeat first [progress cbn [app nl] | rewrite <- app_assoc]. reflexivity.
    + unfold len in *. cbn [length]. lia.
  - apply IH in H; [|discriminate]. destruct H as (a & z & -> & Ha).
    exists (body ++ 45%N :: 10%N :: tail ++ nl ++ 45%N :: a), z. split.
    + repeat first [progress cbn [app nl] | rewrite <- app_assoc]. reflexivity.
    + unfold len, nl, char in *. rewrite !length_app. cbn [length] in *.
      rewrite !length_app. cbn [length]. lia.
Qed.

Lemma plumber_text_length (pages : list plumber_page) (text : str) :
  pages <> [] ->
  Pages._extract_pdf_pdfplumber uni_isalpha (Ok pages) = Ok text ->
  16 * len pages - 2 <= len (strip text).
Proof.
  intros Hne H. unfold Pages._extract_pdf_pdfplumber in H.
  destruct (plumber_pages_frames pages 0 None [] text Hne H) as (a & z & -> & Ha).
  cbn [app]. destruct (strip_between_dashes a z) as [z' Hz].
  unfold len, str, char in *. rewrite Hz. cbn [length]. rewrite length_app.
  cbn [length]. lia.
Qed.

End Frames.

(** The frames [--- Page n ---] that [_extract_pdf_pdfplumber] writes count
    as text for [_extract_pdf].  For a file that is no utility bill and on
    which pdfplumber does not raise: from 7 pages on the OCR of the last
    resort is never run, and from 13 pages on the text of pdfplumber is
    accepted and no other extractor is called, whatever the pages hold. *)
Theorem long_pdf_accepted_by_frames
  (U : Unicode) (uni_isalpha : char -> bool) (B : Backends) (self : processor)
  (file_path : Path) (pages : list plumber_page) (text : str) :
  _is_utility_bill (name file_path) = false ->
  pdfplumber_outcome file_path = Pages._extract_pdf_pdfplumber uni_isalpha (Ok pages) ->
  Pages._extract_pdf_pdfplumber uni_isalpha (Ok pages) = Ok text ->
  (7 <= len pages -> ~ In OCR (fst (_extract_pdf self file_path []))) /\
  (13 <= len pages ->
   _extract_pdf self file_path [] = ([PdfPlumber], Ok (_clean_text text))).
Proof.
  intros Hbill Hout Hok. rewrite Hok in Hout.
  assert (Hlen : pages <> [] -> 16 * len pages - 2 <= len (strip text))
    by (intros Hne; exact (plumber_text_length uni_isalpha pages text Hne Hok)).
  unfold _extract_pdf, _extract_pdf_try, bill_ocr_step, standard_methods, try_except, bind,
    ret, DocumentProcessor._extract_pdf_ocr, DocumentProcessor._extract_pdf_pdfplumber,
    _extract_pdf_pymupdf, call.
  rewrite Hbill, Hout. cbn [app negb andb].
  split; intros Hpages.
  - assert (Hne : pages <> []) by (intros ->; cbn in Hpages; lia).
    specialize (Hlen Hne).
    destruct (Z.gtb_spec (len (strip text)) 200) as [Hlong|Hshort]; cbn [fst];
      [intros [Hin|[]]; discriminate|].
    destruct (pymupdf_outcome file_path) as [pymupdf_text|e]; cbn [fst];
      [|intros [Hin|[Hin|[]]]; discriminate].
    destruct (Z.gtb_spec (len (strip pymupdf_text)) (len (strip text))) as [Hmore|Hless];
      match goal with
      | |- context [(?x <? 100)] => destruct (Z.ltb_spec x 100) as [Hpoor|Hgood]; [lia|]
      end; cbn [andb fst]; intros [Hin|[Hin|[]]]; discriminate.
  - assert (Hne : pages <> []) by (intros ->; cbn in Hpages; lia).
    specialize (Hlen Hne).
    destruct (Z.gtb_spec (len (strip text)) 200); [reflexivity | lia].
Qed.

Lemma long_pdf_accepted_witness :
  let pages := repeat scanned_page 13 in
  exists text,
    @_extract_pdf ascii_only (scan_of pages) default_processor report_pdf []
    = ([PdfPlumber], Ok text).
Proof.
  intros pages.
  assert (H1 : @_is_utility_bill ascii_only (name report_pdf) = false)
    by (vm_compute; reflexivity).
  assert (H2 : @pdfplumber_outcome (scan_of pages) report_pdf
               = @Pages._extract_pdf_pdfplumber ascii_only (fun _ => false) (Ok pages))
    by reflexivity.
  assert (H3 : exists text,
               @Pages._extract_pdf_pdfplumber ascii_only (fun _ => false) (Ok pages) = Ok text)
    by (vm_compute; eexists; reflexivity).
  destruct H3 as [text H3].
  assert (H4 : 13 <= len pages) by (vm_compute; discriminate).
  exists (@_clean_text ascii_only text).
  exact (proj2 (long_pdf_accepted_by_frames ascii_only (fun _ => false) (scan_of pages)
                  default_processor report_pdf pages text H1 H2 H3) H4).
Defined.



End PlumberFacts.

(** ** What [add_documents] hands to the store *)

Module StoreFacts.
Import DocumentProcessor Pages VectorStore.
Local Open Scope Z_scope.

Lemma uint_str_inj (d : Decimal.uint) : forall d', uint_str d = uint_str d' -> d = d'.
Proof.
  induction d; intros d' H; destruct d'; cbn [uint_str] in H;
    try discriminate; try reflexivity;
    injection H as H; f_equal; now apply IHd.
Qed.

Lemma uint_str_digits (d : Decimal.uint) (c : char) :
  In c (uint_str d) -> (48 <= c <= 57)%N.
Proof.
  induction d; cbn [uint_str In]; intros H; try (now destruct H);
    (destruct H as [<-|H]; [lia | now apply IHd]).
Qed.

Lemma str_of_int_inj (n m : Z) : str_of_int n = str_of_int m -> n = m.
Proof.
  unfold str_of_int. intros H.
  rewrite <- (DecimalZ.of_to n), <- (DecimalZ.of_to m). f_equal.
  destruct (Z.to_int n) as [d|d], (Z.to_int m) as [d'|d'].
  - f_equal. now apply uint_str_inj.
  - exfalso. assert (Hin : In 45%N (uint_str d)) by (rewrite H; now left).
    apply uint_str_digits in Hin. lia.
  - exfalso. assert (Hin : In 45%N (uint_str d')) by (rewrite <- H; now left).
    apply uint_str_digits in Hin. lia.
  - injection H as H. f_equal. now apply uint_str_inj.
Qed.

Lemma str_of_int_no_underscore (n : Z) : ~ In 95%N (str_of_int n).
Proof.
  unfold str_of_int. destruct (Z.to_int n) as [d|d]; intros H.
  - apply uint_str_digits in H. lia.
  - destruct H as [H|H]; [discriminate|]. apply uint_str_digits in H. lia.
Qed.

(** Two strings that agree up to the first occurrence of [c]. *)
Lemma app_sep_inj (c : char) (a : str) : forall b x y,
  ~ In c a -> ~ In c b -> a ++ c :: x = b ++ c :: y -> a = b.
Proof.
  induction a as [|h a IH]; intros [|k b] x y Ha Hb H; cbn [app] in H.
  - reflexivity.
  - injection H as -> _. exfalso. apply Hb. now left.
  - injection H as -> _. exfalso. apply Ha. now left.
  - injection H as -> H. f_equal. apply (IH b x y); [| |exact H].
    + intros Hin. apply Ha. now right.
    + intros Hin. apply Hb. now right.
Qed.

Lemma chunk_ident_inj (i j : Z) (c c' : chunk) :
  chunk_ident i c = chunk_ident j c' -> i = j.
Proof.
  unfold chunk_ident. intros H. apply app_inv_head in H.
  change (u "_") with [95%N] in H. cbn [app] in H.
  apply str_of_int_inj.
  apply (app_sep_inj 95%N _ _ _ _ (str_of_int_no_underscore i)
           (str_of_int_no_underscore j) H).
Qed.

Lemma enumerate_from_index {A : Type} (l : list A) : forall k i x,
  In (i, x) (enumerate_from k l) -> k <= i.
Proof.
  induction l as [|y l IH]; intros k i x H; [destruct H|].
  destruct H as [H|H]; [injection H as <- _; lia|]. apply IH in H. lia.
Qed.

Lemma chunk_idents_distinct (chunks : list chunk) : forall k,
  NoDup (map (fun '(i, c) => chunk_ident i c) (enumerate_from k chunks)).
Proof.
  induction chunks as [|c rest IH]; intros k; [constructor|].
  cbn [enumerate_from map]. constructor; [|apply IH].
  intros Hin. apply in_map_iff in Hin. destruct Hin as ([j c'] & Hid & Hin).
  apply chunk_ident_inj in Hid. apply enumerate_from_index in Hin. lia.
Qed.

(** The ids of [add_documents] are pairwise distinct, whatever the file
    names and chunk numbers are: two chunks with the same file name and
    the same [chunk_id] still get two ids.  There is one id, one document
    and one metadata record for each chunk, and nothing is added for an
    empty list. *)
Theorem add_documents_ids_distinct
  (embedding : Type) (encode_batch : list str -> list embedding) (chunks : list chunk) :
  match add_documents embedding encode_batch chunks with
  | None => chunks = []
  | Some a =>
      NoDup (ids a) /\
      length (ids a) = length chunks /\
      documents a = map content chunks /\
      length (metadatas a) = length chunks
  end.
Proof.
  destruct chunks as [|c0 rest]; [reflexivity|].
  unfold add_documents. cbn [ids documents metadatas].
  generalize (c0 :: rest). clear c0 rest. intros chunks.
  split; [|split; [|split]].
  - apply chunk_idents_distinct.
  - rewrite length_map. generalize 0.
    induction chunks as [|c rest IH]; intros k; [reflexivity|].
    cbn [enumerate_from length]. now rewrite IH.
  - reflexivity.
  - apply length_map.
Qed.

Lemma range_step_32 (n : Z) :
  range_step 0 n batch_size
  = map (fun k => 32 * Z.of_nat k) (seq 0 (Z.to_nat ((n + 31) / 32))).
Proof.
  unfold range_step, batch_size. replace (n - 0 + 32 - 1) with (n + 31) by lia.
  apply map_ext. intros k. lia.
Qed.

Lemma firstn_add {A : Type} (a b : nat) (l : list A) :
  firstn (a + b) l = firstn a l ++ firstn b (skipn a l).
Proof.
  revert l. induction a as [|a IH]; intros l; [reflexivity|].
  destruct l as [|x l]; [now rewrite !firstn_nil|]. cbn. now rewrite IH.
Qed.

Lemma batch_slice {A : Type} (l : list A) (k : nat) :
  32 * Z.of_nat k < len l ->
  slice l (32 * Z.of_nat k) (32 * Z.of_nat k + 32) = firstn 32 (skipn (32 * k) l).
Proof.
  intros Hk. unfold slice, clamp_index.
  destruct (Z.ltb_spec (32 * Z.of_nat k) 0); [lia|].
  destruct (Z.ltb_spec (32 * Z.of_nat k + 32) 0); [lia|].
  rewrite (Z.min_l (32 * Z.of_nat k)) by lia.
  replace (Z.to_nat (32 * Z.of_nat k)) with (32 * k)%nat by lia.
  destruct (Z.le_gt_cases (32 * Z.of_nat k + 32) (len l)).
  - rewrite Z.min_l by lia. f_equal. lia.
  - rewrite Z.min_r by lia.
    rewrite (firstn_all2 (n := 32)) by (rewrite length_skipn; unfold len in *; lia).
    apply firstn_all2. rewrite length_skipn. unfold len in *. lia.
Qed.

Lemma batches_prefix {A : Type} (l : list A) (K : nat) :
  32 * Z.of_nat K < len l + 32 ->
  concat (map (fun i => slice l i (i + 32)) (map (fun k => 32 * Z.of_nat k) (seq 0 K)))
  = firstn (32 * K) l.
Proof.
  induction K as [|K IH]; intros HK; [reflexivity|].
  rewrite seq_S, !map_app, concat_app, IH by lia. cbn [map concat Nat.add].
  rewrite app_nil_r, batch_slice by lia.
  replace (32 * S K)%nat with (32 * K + 32)%nat by lia. symmetry. apply firstn_add.
Qed.

(** The batches handed to the embedding model are the documents, in
    order, each exactly once: every batch holds between 1 and 32
    documents, and there are [ceil(n / 32)] of them. *)
Theorem batches_cover_documents (documents : list str) :
  concat (batches documents) = documents /\
  Forall (fun batch => 1 <= len batch <= 32) (batches documents) /\
  len (batches documents) = (len documents + 31) / 32.
Proof.
  unfold batches. rewrite range_step_32. unfold batch_size.
  assert (Hn : 0 <= len documents) by (unfold len; lia).
  set (n := len documents) in *.
  assert (HK : 32 * ((n + 31) / 32) <= n + 31)
    by (apply Z.mul_div_le; lia).
  assert (HK' : n + 31 < 32 * ((n + 31) / 32) + 32).
  { pose proof (Z.mod_pos_bound (n + 31) 32 ltac:(lia)).
    pose proof (Z.div_mod (n + 31) 32 ltac:(lia)). lia. }
  assert (H0 : 0 <= (n + 31) / 32) by (apply Z.div_pos; lia).
  split; [|split].
  - rewrite batches_prefix by (subst n; lia).
    apply firstn_all2. subst n. unfold len in *. lia.
  - apply Forall_forall. intros batch Hin.
    apply in_map_iff in Hin. destruct Hin as (i & <- & Hin).
    apply in_map_iff in Hin. destruct Hin as (k & <- & Hin).
    apply in_seq in Hin.
    assert (Hk : 32 * Z.of_nat k < n) by lia.
    rewrite batch_slice by exact Hk. unfold len. rewrite length_firstn, length_skipn.
    subst n. unfold len in *. lia.
  - unfold len. rewrite !length_map, length_seq. lia.
Qed.

End StoreFacts.

(** ** Ingestion *)

Module IngestFacts.
Import DocumentProcessor VectorStore Console Collection RAGPipeline.
Import ListingFacts EncodingFacts StoreFacts.
Local Open Scope Z_scope.

(** A run that ended before [collection.add]. *)
Ltac nothing_stored :=
  let H := fresh "H" in
  intros H; injection H as <- <-; left; split; [reflexivity | discriminate].

Section Store.
Context {embedding : Type} {S : Store embedding}.

Lemma encode_all_total (batches : list (list str)) :
  (forall batch_docs, exists batch_embeddings, embed batch_docs = Ok batch_embeddings) ->
  exists all_embeddings, encode_all batches = Ok all_embeddings.
Proof.
  intros Hembed. induction batches as [|batch_docs rest (more & IH)]; [now exists []|].
  cbn [encode_all]. destruct (Hembed batch_docs) as (here & ->). rewrite IH. eauto.
Qed.

(** With an embedding model that does not raise, the record is the one
    of [VectorStore.add_documents]. *)
Lemma encode_all_pure (encode_batch : list str -> list embedding)
  (batches : list (list str)) :
  (forall batch_docs, embed batch_docs = Ok (encode_batch batch_docs)) ->
  encode_all batches = Ok (flat_map encode_batch batches).
Proof.
  intros Hembed. induction batches as [|batch_docs rest IH]; [reflexivity|].
  cbn [encode_all flat_map]. now rewrite Hembed, IH.
Qed.

End Store.

(** [ingest_documents], under [0 <= chunk_overlap < chunk_size].  However
    it ends, it has handed to the collection nothing, or one record: the
    record of the chunks of the loaded documents, which hold for each
    loaded document, in order, a group of chunks with the source and the
    file name of the document and at least one text chunk among them; the
    ids of the record are pairwise distinct.  When it returns, the record
    is there exactly when a document was loaded; when it raises with the
    record there, the exception is the one of writing one of its last two
    messages.  It returns when every message can be written, the
    directory can be listed, the tokenizer refuses no text of kept
    characters, and neither the embedding model nor the collection raises.
    With an embedding model that does not raise, the record is the one of
    [VectorStore.add_documents].  An instance of raising: on the folder of
    notes, with a collection that refuses the record, it raises and stores
    nothing. *)
Theorem ingest_documents_outcome
  (U : Unicode) (T : Tokenizer) (R : Encoding.Refusals) (B : Backends) (C : Stdout)
  (embedding : Type) (S : Store embedding) (doc_processor : processor)
  (documents_path : str) (entries : list entry) (glob_end : option exn)
  (s : state embedding) :
  0 <= chunk_overlap doc_processor < chunk_size doc_processor ->
  (forall fuel s' r,
     ingest_documents doc_processor fuel documents_path entries glob_end s = Some (s', r) ->
     (collection s' = collection s /\
      (r = Ok tt ->
       snd (Console.load_documents doc_processor entries glob_end (console s)) = Ok [])) \/
     exists loaded per_document all_embeddings,
       snd (Console.load_documents doc_processor entries glob_end (console s)) = Ok loaded /\
       loaded <> [] /\
       Forall2 (fun doc here =>
                  (exists c, In c here /\ type c = text_chunk) /\
                  Forall (fun c => source c = doc_source doc /\
                                   filename c = doc_filename doc) here)
               loaded per_document /\
       encode_all (batches (map content (concat per_document))) = Ok all_embeddings /\
       collection_add (record_of (concat per_document) all_embeddings) = Ok tt /\
       NoDup (ids (record_of (concat per_document) all_embeddings)) /\
       collection s' = collection s ++ [record_of (concat per_document) all_embeddings] /\
       (forall e, r = Raise e ->
          write (check_mark ++ u " Added " ++ Pages.str_of_int (len (concat per_document))
                 ++ u " chunks to vector store") = Raise e \/
          write (u "Document ingestion completed!") = Raise e)) /\
  ((forall msg, write msg = Ok tt) ->
   glob_end = None ->
   Forall (fun file => exists found, is_file file = Ok found) entries ->
   (forall text, forallb kept text = true -> Encoding.refused text = None) ->
   (forall batch_docs, exists batch_embeddings, embed batch_docs = Ok batch_embeddings) ->
   (forall record, collection_add record = Ok tt) ->
   exists fuel s', forall fuel', (fuel <= fuel')%nat ->
     ingest_documents doc_processor fuel' documents_path entries glob_end s
     = Some (s', Ok tt)) /\
  (forall (encode_batch : list str -> list embedding) chunks,
     chunks <> [] ->
     (forall batch_docs, embed batch_docs = Ok (encode_batch batch_docs)) ->
     exists all_embeddings,
       encode_all (batches (map content chunks)) = Ok all_embeddings /\
       VectorStore.add_documents embedding encode_batch chunks
       = Some (record_of chunks all_embeddings)) /\
  (exists s',
     @ingest_documents ascii_only char_tokenizer Encoding.cl100k_base notes quiet Z
       (limited 0) default_processor 0 (u "docs") notes_folder None empty_store
     = Some (s', Raise (Exception (u "Batch size exceeds maximum batch size"))) /\
     collection s' = []).
Proof.
  intros sizes. split; [|split; [|split]].
  - intros fuel s' r.
    unfold ingest_documents, add_documents, andthen, say, on_console, print, outcome, add.
    cbn [console collection].
    destruct (write (u "Loading documents from " ++ documents_path ++ u "...")) as [[]|e0];
      [|nothing_stored].
    destruct (Console.load_documents doc_processor entries glob_end (console s))
      as [w [loaded|e0]] eqn:Eload; cbn [snd console collection]; [|nothing_stored].
    destruct loaded as [|doc rest].
    { intros H. injection H as <- _. left. split; reflexivity. }
    destruct (write (u "Loaded " ++ Pages.str_of_int (len (doc :: rest)) ++ u " documents"))
      as [[]|e0]; [|nothing_stored].
    destruct (Encoding.chunk_documents doc_processor fuel (doc :: rest))
      as [[chunks|e0]|] eqn:Echunks; [|nothing_stored|discriminate].
    destruct (chunk_documents_returns doc_processor sizes fuel _ _ Echunks)
      as (_ & _ & per_document & -> & Hper).
    assert (Hgroups : Forall2 (fun doc here =>
                         (exists c, In c here /\ type c = text_chunk) /\
                         Forall (fun c => source c = doc_source doc /\
                                          filename c = doc_filename doc) here)
                      (doc :: rest) per_document).
    { eapply Forall2_impl; [|exact Hper]. intros d here (_ & H). exact H. }
    destruct (concat per_document) as [|c0 chunks] eqn:Econcat.
    { exfalso. inversion Hper as [|? here ? others (_ & (c & Hin & _) & _) _]. subst.
      cbn [concat] in Econcat. destruct here; [contradiction | discriminate]. }
    cbn [console collection].
    destruct (write (u "Created " ++ Pages.str_of_int (len (c0 :: chunks)) ++ u " chunks"))
      as [[]|e0]; [|nothing_stored].
    destruct (write (u "Processing " ++ Pages.str_of_int (len (c0 :: chunks))
                     ++ u " chunks...")) as [[]|e0]; [|nothing_stored].
    destruct (write (u "Generating embeddings...")) as [[]|e0]; [|nothing_stored].
    destruct (encode_all (batches (map content (c0 :: chunks))))
      as [all_embeddings|e0] eqn:Eembed; [|nothing_stored].
    destruct (write (u "Adding to vector store...")) as [[]|e0]; [|nothing_stored].
    destruct (collection_add (record_of (c0 :: chunks) all_embeddings)) as [[]|e0] eqn:Eadd;
      [|nothing_stored].
    cbn [console collection]. intros H. right.
    exists (doc :: rest), per_document, all_embeddings. rewrite Econcat.
    split; [reflexivity|]. split; [discriminate|]. split; [exact Hgroups|].
    split; [exact Eembed|]. split; [exact Eadd|].
    split; [apply chunk_idents_distinct|].
    destruct (write (check_mark ++ u " Added " ++ Pages.str_of_int (len (c0 :: chunks))
                     ++ u " chunks to vector store")) as [[]|e0].
    + injection H as <- <-. cbn [collection]. split; [reflexivity|].
      intros e He. now right.
    + injection H as <- <-. cbn [collection]. split; [reflexivity|].
      intros e He. left. exact He.
  - intros Hquiet -> Hfiles Haccepts Hembed Hadd.
    destruct (load_documents_listed doc_processor entries (console s) Hfiles
                (fun file e _ => Hquiet _)) as (w & loaded & Eload).
    destruct (load_documents_returned doc_processor entries None _ _ _ Eload)
      as (_ & Hloaded).
    assert (Haccepted : Forall (fun doc => Encoding.refused (doc_content doc) = None) loaded).
    { eapply Forall_impl; [|exact Hloaded].
      intros doc (file & _ & _ & _ & _ & _ & Hkept & _). exact (Haccepts _ Hkept). }
    destruct (chunk_documents_accepts doc_processor loaded sizes Haccepted)
      as (fuel & chunks & Hrun).
    destruct (encode_all_total (batches (map content chunks)) Hembed)
      as (all_embeddings & Eembed).
    exists fuel. unfold ingest_documents, add_documents, andthen, say, on_console, print,
      outcome, add.
    rewrite ?Hquiet. cbn [console collection]. rewrite Eload.
    destruct loaded as [|doc rest]; [eexists; intros fuel' _; reflexivity|].
    cbn [console collection]. rewrite ?Hquiet.
    destruct chunks as [|c0 chunks].
    + eexists. intros fuel' Hf. rewrite (Hrun fuel' Hf). rewrite ?Hquiet. reflexivity.
    + eexists. intros fuel' Hf. rewrite (Hrun fuel' Hf). rewrite ?Hquiet.
      cbn [console collection]. rewrite Eembed, ?Hquiet, Hadd.
      cbn [console collection]. rewrite ?Hquiet. reflexivity.
  - intros encode_batch chunks Hne Hembed. eexists.
    split; [apply (encode_all_pure encode_batch), Hembed|].
    destruct chunks as [|c0 chunks]; [congruence | reflexivity].
  - eexists. split; [vm_compute; reflexivity | reflexivity].
Qed.

(** Ingestion of the folder of notes, on a standard output that takes
    every message, with the refusals of [cl100k_base] and a collection that
    takes every record: it returns. *)
Lemma ingest_documents_outcome_witness :
  exists fuel s',
    @ingest_documents ascii_only char_tokenizer Encoding.cl100k_base notes quiet Z
      text_lengths default_processor fuel (u "docs") notes_folder None empty_store
    = Some (s', Ok tt).
Proof.
  assert (sizes : 0 <= chunk_overlap default_processor < chunk_size default_processor)
    by (simpl; lia).
  assert (Hquiet : forall msg, @write quiet msg = Ok tt) by reflexivity.
  assert (Hfiles : Forall (fun file => exists found, is_file file = Ok found) notes_folder).
  { repeat constructor; eexists; reflexivity. }
  assert (Haccepts : forall text, forallb (@kept ascii_only) text = true ->
                       @Encoding.refused Encoding.cl100k_base text = None).
  { intros text. apply kept_accepted. vm_compute. reflexivity. }
  assert (Hembed : forall batch_docs, exists batch_embeddings,
                     @embed Z text_lengths batch_docs = Ok batch_embeddings).
  { intros batch_docs. eexists. reflexivity. }
  assert (Hadd : forall record, @collection_add Z text_lengths record = Ok tt)
    by reflexivity.
  destruct (proj1 (proj2 (ingest_documents_outcome ascii_only char_tokenizer
                            Encoding.cl100k_base notes quiet Z text_lengths
                            default_processor (u "docs") notes_folder None empty_store
                            sizes))
              Hquiet eq_refl Hfiles Haccepts Hembed Hadd) as (fuel & s' & Hrun).
  exists fuel, s'. apply Hrun. lia.
Defined.

End IngestFacts.

(** ** The table rows of [_extract_pdf_pdfplumber] *)

Module TableFacts.
Import DocumentProcessor Pages NormalizerFacts CellFacts PagesFacts.
Local Open Scope Z_scope.

(** A stripped text that is not empty begins with a character that is no
    whitespace. *)
Lemma strip_head (s : str) :
  strip s = [] \/ exists c t, strip s = c :: t /\ isspace c = false.
Proof.
  unfold strip. destruct (lstrip_head s) as [-> | (c & t & -> & Hc)]; [now left|].
  right. destruct (rstrip_head c t Hc) as [t' ->]. now exists c, t'.
Qed.

Lemma split_from_run (s : str) : forall cur,
  cur <> [] -> exists part parts, split_from cur s = part :: parts /\ part <> [].
Proof.
  induction s as [|c t IH]; intros cur Hcur.
  - destruct cur as [|x cur]; [congruence|]. exists (rev (x :: cur)), []. split; [reflexivity|].
    cbn [rev]. now destruct (rev cur).
  - cbn [split_from]. destruct (isspace c).
    + destruct cur as [|x cur]; [congruence|]. exists (rev (x :: cur)), (split_from [] t).
      split; [reflexivity|]. cbn [rev]. now destruct (rev cur).
    + apply IH. discriminate.
Qed.

Section Rows.
Context {U : Unicode}.

(** A cell that is not blank is not cleaned away. *)
Lemma clean_cell_text_nonempty (cell : str) :
  strip cell <> [] -> _clean_cell_text (strip cell) <> [].
Proof.
  intros Hne.
  destruct (strip_head cell) as [E | (c & t & E & Hc)]; [congruence|].
  pose proof (clean_cell_text_pointwise (strip cell)) as Hp.
  rewrite E in *. unfold Py.split in Hp. cbn [split_from] in Hp. rewrite Hc in Hp.
  destruct (split_from_run t [c] ltac:(discriminate)) as (part & parts & Es & Hpart).
  rewrite Es in Hp. pose proof (join_nonempty (u " ") part parts Hpart) as Hj.
  intros Hempty. rewrite Hempty in Hp. apply Forall2_length in Hp.
  destruct (join (u " ") (part :: parts)); [congruence | discriminate].
Qed.

End Rows.

(** [table_row] writes a line exactly for a row that has a cell with
    something else than whitespace.  The line is made of the cells that
    are not blank, stripped and cleaned, in their order, joined by [ | ]:
    no entry of the line is empty, and a blank cell leaves no trace in
    it. *)
Theorem table_row_entries (U : Unicode) (row : list (option str)) :
  let entries :=
    flat_map (fun cell =>
                match cell with
                | Some cell =>
                    match strip cell with
                    | [] => []
                    | stripped => [_clean_cell_text stripped]
                    end
                | None => []
                end) row in
  table_row row = match entries with
                  | [] => []
                  | _ => join (u " | ") entries ++ nl
                  end /\
  Forall (fun entry => entry <> []) entries /\
  (table_row row = [] <->
   Forall (fun cell => match cell with
                       | Some cell => strip cell = []
                       | None => True
                       end) row).
Proof.
  set (blank := fun cell : option str =>
                  match cell with Some cell => strip cell = [] | None => True end).
  set (entry_of := fun cell : option str =>
                     match cell with
                     | Some cell =>
                         match strip cell with
                         | [] => []
                         | stripped => [_clean_cell_text stripped]
                         end
                     | None => []
                     end).
  cbv zeta. fold entry_of.
  assert (Hclean : flat_map (fun cell : option str =>
                               match cell with
                               | Some ((_ :: _) as cell) =>
                                   match _clean_cell_text (strip cell) with
                                   | [] => []
                                   | clean_cell => [clean_cell]
                                   end
                               | _ => []
                               end) row
                   = flat_map entry_of row).
  { induction row as [|cell rest IH]; [reflexivity|]. cbn [flat_map]. rewrite IH. f_equal.
    destruct cell as [[|c t]|]; [reflexivity| |reflexivity]. unfold entry_of.
    destruct (strip (c :: t)) as [|x s] eqn:E; [reflexivity|].
    pose proof (clean_cell_text_nonempty (c :: t)) as Hne. rewrite E in Hne.
    destruct (_clean_cell_text (x :: s)); [exfalso; now apply Hne | reflexivity]. }
  assert (Hany : existsb (fun cell : option str =>
                            match cell with
                            | Some ((_ :: _) as cell) =>
                                match strip cell with [] => false | _ => true end
                            | _ => false
                            end) row = false <-> Forall blank row).
  { clear Hclean. induction row as [|cell rest IH]; [split; [constructor | reflexivity]|].
    cbn [existsb]. rewrite orb_false_iff, IH. split.
    - intros [Hcell Hrest]. constructor; [|exact Hrest]. unfold blank.
      destruct cell as [[|c t]|]; [reflexivity| |exact I].
      destruct (strip (c :: t)); [reflexivity | discriminate].
    - intros H. inversion H as [|? ? Hcell Hrest]; subst. split; [|exact Hrest].
      destruct cell as [[|c t]|]; [reflexivity| |reflexivity].
      unfold blank in Hcell. now rewrite Hcell. }
  assert (Hentries : flat_map entry_of row = [] <-> Forall blank row).
  { clear Hclean Hany. induction row as [|cell rest IH]; [split; [constructor | reflexivity]|].
    cbn [flat_map]. split.
    - intros H. apply app_eq_nil in H. destruct H as [Hcell Hrest].
      constructor; [|now apply IH]. unfold blank, entry_of in *.
      destruct cell as [cell|]; [|exact I].
      destruct (strip cell); [reflexivity | discriminate].
    - intros H. inversion H as [|? ? Hcell Hrest]; subst.
      rewrite (proj2 IH Hrest), app_nil_r. unfold blank, entry_of in *.
      destruct cell as [cell|]; [now rewrite Hcell | reflexivity]. }
  assert (Hrow : table_row row = match flat_map entry_of row with
                                 | [] => []
                                 | _ => join (u " | ") (flat_map entry_of row) ++ nl
                                 end).
  { unfold table_row. cbv zeta.
    match goal with |- (if ?any then _ else _) = _ => destruct any eqn:E end.
    - match goal with
      | |- context [join _ (flat_map ?f row)] =>
          assert (Hc : flat_map f row = flat_map entry_of row) by exact Hclean;
          rewrite Hc
      end. reflexivity.
    - apply Hany, Hentries in E. now rewrite E. }
  split; [exact Hrow|]. split.
  - apply Forall_forall. intros entry Hin. apply in_flat_map in Hin.
    destruct Hin as (cell & _ & Hin). unfold entry_of in Hin.
    destruct cell as [cell|]; [|destruct Hin].
    destruct (strip cell) as [|x s] eqn:E; [destruct Hin|].
    destruct Hin as [<-|[]]. rewrite <- E. apply clean_cell_text_nonempty. now rewrite E.
  - rewrite Hrow, <- Hentries. destruct (flat_map entry_of row) as [|e es].
    + split; reflexivity.
    + split; [|discriminate]. intros H. apply app_eq_nil in H. destruct H as [_ H].
      discriminate.
Qed.

End TableFacts.
